(** * mcp-utility-tools: the tool handlers of the utility server

    A shallow embedding of the request handler of the server
    (the [switch (name)] of the [CallToolRequestSchema] handler) and of the
    three process-wide maps it works on: [cache], [retryMetadata] and
    [rateLimits].

    Conventions.
    - A JavaScript number that the handlers use as a counter, a duration or a
      timestamp is an integer of [Z].  The numeric arguments ([max_retries],
      [initial_delay_ms], [ttl_seconds], [max_requests], [window_seconds],
      [concurrency], ...) are JavaScript numbers too: the model takes their
      whole-number values, and what is proved is proved of calls whose
      numeric arguments are whole numbers.
    - [new Date(t).toISOString()] throws a [RangeError] when [t] is more
      than 8.64e15 ms from the epoch.  The two handlers that render such a
      date have written to their store by then; [cache_put] and
      [rate_limit_check] give the state they leave and the object of their
      reply, [cache_put_outcome] and [rate_limit_check_outcome] what the
      caller gets.
    - [Date.now()] is an explicit argument: every handler receives the clock
      readings it performs, in the order in which it performs them.
    - A [Map<string, _>] is a [gmap string _].  An object fetched from a map
      and then mutated in place stays the map's entry, so the model writes the
      mutated record back under the same key.
    - Optional arguments are [option]s; the defaults of the destructuring
      patterns are applied with [default]. *)

From Stdlib Require Import ZArith String List Lia Bool.
From stdpp Require Import gmap strings list fin_maps.

Local Open Scope string_scope.
Local Open Scope Z_scope.

(** ** Values *)

(** JSON data, as the tools receive and return it ([value: any]). *)
#[warnings="-register-all"]
Inductive json : Type :=
  | JNull
  | JBool (b : bool)
  | JNum (n : Z)
  | JStr (s : string)
  | JArr (items : list json)
  | JObj (fields : list (string * json)).

(** The two functions of the JavaScript runtime that the handlers call on
    data: [JSON.stringify] (used to build the cache key of a batch
    operation) and [Date.prototype.toISOString], the string of a time value
    ([valid_time] below says which integers are time values; on the others
    the method throws). *)
Class JsRuntime : Type := {
  JSON_stringify : json -> string;
  toISOString : Z -> string
}.

(** ** The stores *)

(** [interface CacheEntry { value: any; expiresAt: number }] *)
Record CacheEntry : Type := {
  value : json;
  expiresAt : Z
}.

(** The values of [retryMetadata]. *)
Record RetryMeta : Type := {
  attempts : Z;
  lastAttempt : Z;
  success : bool
}.

(** The values of [rateLimits]. *)
Record RateLimit : Type := {
  count : Z;
  resetAt : Z
}.

(** The module-level state of the server. *)
Record world : Type := {
  cache : gmap string CacheEntry;
  retryMetadata : gmap string RetryMeta;
  rateLimits : gmap string RateLimit
}.

Definition empty_world : world :=
  {| cache := ∅; retryMetadata := ∅; rateLimits := ∅ |}.

Definition with_cache (c : gmap string CacheEntry) (w : world) : world :=
  {| cache := c; retryMetadata := retryMetadata w; rateLimits := rateLimits w |}.

Definition with_retryMetadata (r : gmap string RetryMeta) (w : world) : world :=
  {| cache := cache w; retryMetadata := r; rateLimits := rateLimits w |}.

Definition with_rateLimits (r : gmap string RateLimit) (w : world) : world :=
  {| cache := cache w; retryMetadata := retryMetadata w; rateLimits := r |}.

(** The [setInterval] callback that runs every minute: expired cache
    entries and retry metadata older than one hour are deleted. *)
Definition sweep (now : Z) (w : world) : world :=
  {| cache := filter (fun kv => now < expiresAt (snd kv)) (cache w);
     retryMetadata :=
       filter (fun kv => now - 3600000 <= lastAttempt (snd kv)) (retryMetadata w);
     rateLimits := rateLimits w |}.

(** [function getCacheKey(key, namespace = "default")]: the template
    literal [`${namespace}:${key}`].  The default of the parameter is applied
    by the callers' destructuring ([namespace = "default"]) before the call. *)
Definition getCacheKey (key : string) (namespace : string) : string :=
  namespace +:+ ":" +:+ key.

(** [Math.ceil (a / b)] for a positive integer [b]. *)
Definition ceil_div (a b : Z) : Z := - ((- a) / b).

(** ** retry_operation *)

(** The arguments of the tool; [max_retries] and [initial_delay_ms] in
    whole numbers. *)
Record retry_args : Type := {
  operation_id : string;
  operation_type : string;
  operation_data : json;
  max_retries : option Z;
  initial_delay_ms : option Z;
  should_execute : option bool
}.

(** The five objects the handler answers with, by their [status]. *)
Inductive retry_reply : Type :=
  | AlreadySucceeded (id : string) (n_attempts : Z)
  | MaxRetriesExceeded (id : string) (n_attempts : Z)
  | RetryDelayed (id : string) (n_attempts : Z) (wait_ms : Z)
  | ReadyToExecute (id : string) (n_attempts : Z) (next_delay_ms : Z)
      (op_type : string) (op_data : json)
  | ExecuteAttempt (id : string) (attempt_number : Z)
      (op_type : string) (op_data : json).

Definition status (r : retry_reply) : string :=
  match r with
  | AlreadySucceeded _ _ => "already_succeeded"
  | MaxRetriesExceeded _ _ => "max_retries_exceeded"
  | RetryDelayed _ _ _ => "retry_delayed"
  | ReadyToExecute _ _ _ _ _ => "ready_to_execute"
  | ExecuteAttempt _ _ _ _ => "execute_attempt"
  end.

(** The metadata the handler works on: the stored entry, or a fresh object
    that is not (yet) in the map. *)
Definition retry_lookup (w : world) (id : string) : RetryMeta :=
  default {| attempts := 0; lastAttempt := 0; success := false |}
          (retryMetadata w !! id).

(** [case "retry_operation"].  [now] is the reading of [Date.now()] that
    computes [timeSinceLastAttempt], [now'] the one stored in
    [metadata.lastAttempt]. *)
Definition retry_operation (a : retry_args) (now now' : Z) (w : world)
  : retry_reply * world :=
  let max_retries := default 3 (max_retries a) in
  let initial_delay_ms := default 1000 (initial_delay_ms a) in
  let should_execute := default true (should_execute a) in
  let metadata := retry_lookup w (operation_id a) in
  if success metadata then
    (AlreadySucceeded (operation_id a) (attempts metadata), w)
  else if max_retries <=? attempts metadata then
    (MaxRetriesExceeded (operation_id a) (attempts metadata), w)
  else
    let timeSinceLastAttempt := now - lastAttempt metadata in
    let requiredDelay := initial_delay_ms * 2 ^ attempts metadata in
    if (0 <? attempts metadata) && (timeSinceLastAttempt <? requiredDelay) then
      let waitTime := requiredDelay - timeSinceLastAttempt in
      (RetryDelayed (operation_id a) (attempts metadata) waitTime, w)
    else if negb should_execute then
      (ReadyToExecute (operation_id a) (attempts metadata) requiredDelay
         (operation_type a) (operation_data a), w)
    else
      let metadata' :=
        {| attempts := attempts metadata + 1;
           lastAttempt := now';
           success := success metadata |} in
      (ExecuteAttempt (operation_id a) (attempts metadata')
         (operation_type a) (operation_data a),
       with_retryMetadata (<[operation_id a := metadata']> (retryMetadata w)) w).

(** ** The cache tools *)

Record cache_get_args : Type := {
  get_key : string;
  get_namespace : option string
}.

Record cache_get_reply : Type := {
  found : bool;
  found_key : string;
  found_namespace : string;
  found_value : option json;
  expires_in_seconds : option Z;
  reason : option string
}.

(** [case "cache_get"].  [now] is the clock of the expiry test, [now'] the
    one of [expires_in_seconds]. *)
Definition cache_get (a : cache_get_args) (now now' : Z) (w : world)
  : cache_get_reply * world :=
  let key := get_key a in
  let namespace := default "default" (get_namespace a) in
  let cacheKey := getCacheKey key namespace in
  match cache w !! cacheKey with
  | None =>
      ({| found := false; found_key := key; found_namespace := namespace;
          found_value := None; expires_in_seconds := None; reason := None |}, w)
  | Some entry =>
      if expiresAt entry <=? now then
        ({| found := false; found_key := key; found_namespace := namespace;
            found_value := None; expires_in_seconds := None;
            reason := Some "expired" |},
         with_cache (delete cacheKey (cache w)) w)
      else
        ({| found := true; found_key := key; found_namespace := namespace;
            found_value := Some (value entry);
            expires_in_seconds := Some ((expiresAt entry - now') / 1000);
            reason := None |}, w)
  end.

(** The arguments of the tool; [ttl_seconds] in whole numbers. *)
Record cache_put_args : Type := {
  put_key : string;
  put_value : json;
  ttl_seconds : option Z;
  put_namespace : option string
}.

Record cache_put_reply : Type := {
  put_success : bool;
  stored_key : string;
  stored_namespace : string;
  stored_ttl_seconds : Z;
  expires_at : string;
  cache_size : nat
}.

(** [case "cache_put"]: the write to the cache and the object of the reply.
    The reply is rendered, and given, only when [expiresAt] is a time value:
    [cache_put_outcome]. *)
Definition cache_put `{JsRuntime} (a : cache_put_args) (now : Z) (w : world)
  : cache_put_reply * world :=
  let key := put_key a in
  let ttl_seconds := default 300 (ttl_seconds a) in
  let namespace := default "default" (put_namespace a) in
  let cacheKey := getCacheKey key namespace in
  let expiresAt := now + ttl_seconds * 1000 in
  let cache' := <[cacheKey := {| value := put_value a; expiresAt := expiresAt |}]> (cache w) in
  ({| put_success := true; stored_key := key; stored_namespace := namespace;
      stored_ttl_seconds := ttl_seconds;
      expires_at := toISOString expiresAt;
      cache_size := size cache' |},
   with_cache cache' w).

Record cache_delete_args : Type := {
  del_key : string;
  del_namespace : option string
}.

Record cache_delete_reply : Type := {
  del_success : bool;
  deleted_key : string;
  deleted_namespace : string;
  existed : bool
}.

(** [case "cache_delete"] *)
Definition cache_delete (a : cache_delete_args) (w : world)
  : cache_delete_reply * world :=
  let key := del_key a in
  let namespace := default "default" (del_namespace a) in
  let cacheKey := getCacheKey key namespace in
  ({| del_success := true; deleted_key := key; deleted_namespace := namespace;
      existed := bool_decide (is_Some (cache w !! cacheKey)) |},
   with_cache (delete cacheKey (cache w)) w).

Record cache_clear_reply : Type := {
  clear_success : bool;
  cleared_namespace : option string;
  cleared_entries : nat
}.

(** [case "cache_clear"].  [if (namespace)] is false for a missing namespace
    and for the empty string. *)
Definition cache_clear (namespace : option string) (w : world)
  : cache_clear_reply * world :=
  match namespace with
  | Some ns =>
      if bool_decide (ns = "") then
        ({| clear_success := true; cleared_namespace := None;
            cleared_entries := size (cache w) |}, with_cache ∅ w)
      else
        let prefix := ns +:+ ":" in
        let hit (kv : string * CacheEntry) := String.prefix prefix (fst kv) = true in
        ({| clear_success := true; cleared_namespace := Some ns;
            cleared_entries := size (filter hit (cache w)) |},
         with_cache (filter (fun kv => ~ hit kv) (cache w)) w)
  | None =>
      ({| clear_success := true; cleared_namespace := None;
          cleared_entries := size (cache w) |}, with_cache ∅ w)
  end.

(** ** rate_limit_check *)

(** The arguments of the tool; [max_requests] and [window_seconds] in
    whole numbers. *)
Record rate_args : Type := {
  resource : string;
  max_requests : option Z;
  window_seconds : option Z;
  increment : option bool
}.

Record rate_reply : Type := {
  allowed : bool;
  rate_resource : string;
  current_count : Z;
  rate_max_requests : Z;
  remaining : Z;
  reset_in_seconds : Z;
  reset_at : string
}.

(** [case "rate_limit_check"].  [limit] is the entry of the map (a new one
    when there is none or its window is over); [limit.count++] mutates that
    entry.  The reply is rendered, and given, only when [limit.resetAt] is a
    time value: [rate_limit_check_outcome]. *)
Definition rate_limit_check `{JsRuntime} (a : rate_args) (now : Z) (w : world)
  : rate_reply * world :=
  let max_requests := default 60 (max_requests a) in
  let window_seconds := default 60 (window_seconds a) in
  let increment := default true (increment a) in
  let windowMs := window_seconds * 1000 in
  let fresh := {| count := 0; resetAt := now + windowMs |} in
  let limit :=
    match rateLimits w !! resource a with
    | Some limit => if resetAt limit <=? now then fresh else limit
    | None => fresh
    end in
  let allowed := count limit <? max_requests in
  let remaining := Z.max 0 (max_requests - count limit) in
  let resetIn := ceil_div (resetAt limit - now) 1000 in
  let limit' :=
    if allowed && increment
    then {| count := count limit + 1; resetAt := resetAt limit |}
    else limit in
  ({| allowed := allowed; rate_resource := resource a;
      current_count := count limit'; rate_max_requests := max_requests;
      remaining := remaining; reset_in_seconds := resetIn;
      reset_at := toISOString (resetAt limit) |},
   with_rateLimits (<[resource a := limit']> (rateLimits w)) w).

(** ** batch_operation *)

(** The codes of [McpError] ([ErrorCode] of the SDK).  The handler throws
    [MethodNotFound] for an unknown tool and wraps every other exception in
    [InternalError]; it never throws [InvalidParams]. *)
Inductive ErrorCode : Type := MethodNotFound | InternalError | InvalidParams.

(** An element of [operations]: [{ id, type, data }]. *)
Record BatchOp : Type := {
  op_id : string;
  op_type : string;
  op_data : json
}.

(** The arguments of the tool; [concurrency], [timeout_ms] and
    [cache_ttl_seconds] in whole numbers. *)
Record batch_args : Type := {
  operations : list BatchOp;
  concurrency : option Z;
  timeout_ms : option Z;
  continue_on_error : option bool;
  use_cache : option bool;
  cache_ttl_seconds : option Z
}.

(** The three shapes of the objects pushed on [results]. *)
Inductive BatchResult : Type :=
  | Cached (id : string) (result : json)
  | Succeeded (id : string) (result : json)
  | Failed (id : string) (error : string).

Definition result_id (r : BatchResult) : string :=
  match r with Cached i _ | Succeeded i _ | Failed i _ => i end.

Definition result_success (r : BatchResult) : bool :=
  match r with Cached _ _ | Succeeded _ _ => true | Failed _ _ => false end.

(** The object the handler returns.  [sorted_results] holds [None] where
    [results.find] gave [undefined]. *)
Record batch_payload : Type := {
  batch_success : bool;
  total_operations : nat;
  successful : nat;
  failed : nat;
  sorted_results : list (option BatchResult)
}.

(** Where the [async] handler stands: running its loop, suspended at
    [await Promise.race(inProgress.values())] on the promises it raced, or
    finished by [return] or by an exception (which the [catch] of the
    handler rethrows as an [McpError]). *)
Inductive main_state : Type :=
  | Running
  | Awaiting (raced : list nat)
  | Returned (p : batch_payload)
  | Thrown (code : ErrorCode) (message : string).

(** The handler of [batch_operation] is asynchronous.  The model follows the
    event loop of the runtime: the handler runs without interruption until it
    suspends at its [await]; timers and promise callbacks run while it is
    suspended.

    For each operation started the loop creates
    [promise = Promise.race([work, timeout])], stores it with
    [inProgress.set(op.id, promise)] and hangs the callbacks on a chain
    derived from it, [promise.then(..).catch(..).finally(..)].  The handler
    awaits [Promise.race(inProgress.values())], a race of the stored
    promises themselves: when one of them is fulfilled the handler resumes,
    and when one of them is rejected the [await] throws, the exception leaves
    the loop and the [catch] of the request handler rethrows it as
    [McpError(ErrorCode.InternalError, "Tool execution failed: ...")].

    A promise created by the loop is known by a handle, the number of
    promises created before it.  The state of one call:
    - [queue], [inProgress], [results]: the three locals of the handler
      ([inProgress] maps [op.id] to the promise stored under it);
    - [pending]: the promises that have not settled, each with its operation
      (the operations in flight);
    - [settled]: the promises that have settled and whose [.finally] callback
      has not run yet, with [true] for fulfilled and [false] for rejected;
    - [orphaned]: the operations whose promise was rejected by the timeout
      while their simulated work is still asleep;
    - [store]: the shared [cache]. *)
Record batch_state : Type := {
  queue : list BatchOp;
  inProgress : gmap string nat;
  pending : gmap nat BatchOp;
  settled : gmap nat (BatchOp * bool);
  orphaned : gmap nat BatchOp;
  results : list BatchResult;
  next_promise : nat;
  main : main_state;
  store : gmap string CacheEntry
}.

(** The values of a map of promises, as [inProgress.values()] lists them. *)
Definition promises (m : gmap string nat) : list nat :=
  List.map snd (map_to_list m).

Definition raced_on (h : nat) (raced : list nat) : bool :=
  existsb (Nat.eqb h) raced.

(** The operations in flight: started and not settled. *)
Definition in_flight (st : batch_state) : nat := size (pending st).

Definition is_running (m : main_state) : bool :=
  match m with Running => true | _ => false end.

Definition is_thrown (m : main_state) : bool :=
  match m with Thrown _ _ => true | _ => false end.

Section Batch.
Context `{JsRuntime}.
Variable a : batch_args.

Definition the_concurrency : Z := default 5 (concurrency a).
Definition the_continue_on_error : bool := default true (continue_on_error a).
Definition the_use_cache : bool := default false (use_cache a).
Definition the_cache_ttl_seconds : Z := default 300 (cache_ttl_seconds a).

(** [`batch:${op.type}:${JSON.stringify(op.data)}`] *)
Definition batch_cache_key (op : BatchOp) : string :=
  "batch:" +:+ op_type op +:+ ":" +:+ JSON_stringify (op_data op).

(** [const sortedResults = operations.map(op => results.find(r => r.id === op.id))] *)
Definition sortedResults (rs : list BatchResult) : list (option BatchResult) :=
  List.map (fun op => List.find (fun r => String.eqb (result_id r) (op_id op)) rs)
           (operations a).

Definition payload (rs : list BatchResult) : batch_payload :=
  {| batch_success := true;
     total_operations := length (operations a);
     successful := length (List.filter result_success rs);
     failed := length (List.filter (fun r => negb (result_success r)) rs);
     sorted_results := sortedResults rs |}.

(** The state in which the handler enters its loop. *)
Definition batch_init (c : gmap string CacheEntry) : batch_state :=
  {| queue := operations a; inProgress := ∅; pending := ∅; settled := ∅;
     orphaned := ∅; results := []; next_promise := 0%nat; main := Running;
     store := c |}.

Definition set_main (m : main_state) (st : batch_state) : batch_state :=
  {| queue := queue st; inProgress := inProgress st; pending := pending st;
     settled := settled st; orphaned := orphaned st; results := results st;
     next_promise := next_promise st; main := m; store := store st |}.

(** The inner loop is left: the handler awaits the race when something is in
    progress; otherwise the outer loop tests its condition again, which ends
    the loop when the queue is empty and repeats the same iteration (nothing
    can be started, nothing is awaited) when it is not. *)
Definition after_inner (st : batch_state) : batch_state :=
  if (0 <? size (inProgress st))%nat then
    set_main (Awaiting (promises (inProgress st))) st
  else
    match queue st with
    | [] => set_main (Returned (payload (results st))) st
    | _ :: _ => st
    end.

(** The live cache entry of an operation, when [use_cache] is set:
    [cached && cached.expiresAt > Date.now()]. *)
Definition cache_hit (now : Z) (op : BatchOp) (c : gmap string CacheEntry)
  : option CacheEntry :=
  if the_use_cache then
    match c !! batch_cache_key op with
    | Some cached => if now <? expiresAt cached then Some cached else None
    | None => None
    end
  else None.

(** One iteration of the inner [while]: [queue.shift()], then either a
    cached result is pushed ([continue]) or a promise is created and stored
    under [op.id]. *)
Definition start_next (now : Z) (op : BatchOp) (rest : list BatchOp)
    (st : batch_state) : batch_state :=
  match cache_hit now op (store st) with
  | Some cached =>
      {| queue := rest; inProgress := inProgress st; pending := pending st;
         settled := settled st; orphaned := orphaned st;
         results := results st ++ [Cached (op_id op) (value cached)];
         next_promise := next_promise st; main := Running; store := store st |}
  | None =>
      {| queue := rest;
         inProgress := <[op_id op := next_promise st]> (inProgress st);
         pending := <[next_promise st := op]> (pending st);
         settled := settled st; orphaned := orphaned st; results := results st;
         next_promise := S (next_promise st); main := Running; store := store st |}
  end.

(** One step of the running handler, from the test of the inner loop. *)
Definition main_step (now : Z) (st : batch_state) : batch_state :=
  match main st with
  | Running =>
      match queue st with
      | op :: rest =>
          if Z.of_nat (size (inProgress st)) <? the_concurrency
          then start_next now op rest st
          else after_inner st
      | [] => after_inner st
      end
  | _ => st
  end.

(** The handler runs until it suspends or finishes: every step that leaves
    it running takes an operation off the queue, or changes nothing (lemma
    [run_main_spins]: a handler that is still running after these steps
    repeats the same iteration for ever, which a [concurrency] below one
    causes).  One reading of the clock serves the whole run. *)
Definition run_main (now : Z) (st : batch_state) : batch_state :=
  Nat.iter (S (length (queue st))) (main_step now) st.

(** The async function of one operation, after its [setTimeout]: the result
    object, and the write to the cache when [use_cache] is set. *)
Definition work_result (op : BatchOp) (now : Z) : json :=
  JObj [("id", JStr (op_id op)); ("type", JStr (op_type op));
        ("data", op_data op); ("processed_at", JStr (toISOString now))].

Definition work_store (op : BatchOp) (now : Z) (c : gmap string CacheEntry)
  : gmap string CacheEntry :=
  if the_use_cache then
    <[batch_cache_key op :=
        {| value := work_result op now;
           expiresAt := now + the_cache_ttl_seconds * 1000 |}]> c
  else c.

(** The awaited race settles when one of its promises does: the handler
    resumes, or the [await] throws the rejection, which the [catch] of the
    handler wraps. *)
Definition wake (h : nat) (fulfilled : bool) (error : string) (m : main_state)
  : main_state :=
  match m with
  | Awaiting raced =>
      if raced_on h raced then
        if fulfilled then Running
        else Thrown InternalError ("Tool execution failed: " +:+ error)
      else m
  | _ => m
  end.

(** [`Operation ${op.id} timed out`] *)
Definition timeout_message (op : BatchOp) : string :=
  "Operation " +:+ op_id op +:+ " timed out".

(** The work of [op] wins its race: the promise [h] is fulfilled, the
    [.then] callback pushes the result. *)
Definition on_fulfilled (h : nat) (op : BatchOp) (now : Z) (st : batch_state)
  : batch_state :=
  {| queue := queue st; inProgress := inProgress st;
     pending := delete h (pending st);
     settled := <[h := (op, true)]> (settled st);
     orphaned := orphaned st;
     results := results st ++ [Succeeded (op_id op) (work_result op now)];
     next_promise := next_promise st;
     main := wake h true "" (main st);
     store := work_store op now (store st) |}.

(** The timeout wins: the promise [h] is rejected, the [.catch] callback
    pushes the failure and empties the queue unless [continue_on_error]. *)
Definition on_rejected (h : nat) (op : BatchOp) (st : batch_state)
  : batch_state :=
  {| queue := if the_continue_on_error then queue st else [];
     inProgress := inProgress st;
     pending := delete h (pending st);
     settled := <[h := (op, false)]> (settled st);
     orphaned := <[h := op]> (orphaned st);
     results := results st ++ [Failed (op_id op) (timeout_message op)];
     next_promise := next_promise st;
     main := wake h false (timeout_message op) (main st);
     store := store st |}.

(** The [.finally] callback: [inProgress.delete(op.id)].  A race that the
    handler started on the settled promise in the meantime settles next. *)
Definition on_finally (h : nat) (op : BatchOp) (fulfilled : bool)
    (st : batch_state) : batch_state :=
  {| queue := queue st;
     inProgress := delete (op_id op) (inProgress st);
     pending := pending st;
     settled := delete h (settled st);
     orphaned := orphaned st; results := results st;
     next_promise := next_promise st;
     main := wake h fulfilled (timeout_message op) (main st);
     store := store st |}.

(** While the handler is suspended, other requests and the periodic sweep
    run and leave the shared cache in some state. *)
Definition set_store (c : gmap string CacheEntry) (st : batch_state) : batch_state :=
  {| queue := queue st; inProgress := inProgress st; pending := pending st;
     settled := settled st; orphaned := orphaned st; results := results st;
     next_promise := next_promise st; main := main st; store := c |}.

(** The work of an operation that had timed out ends: only the cache sees it. *)
Definition on_late_work (h : nat) (op : BatchOp) (now : Z) (st : batch_state)
  : batch_state :=
  {| queue := queue st; inProgress := inProgress st; pending := pending st;
     settled := settled st;
     orphaned := delete h (orphaned st);
     results := results st; next_promise := next_promise st; main := main st;
     store := work_store op now (store st) |}.

(** The steps of a call.  A timer or a promise callback runs only when the
    handler is not running: it runs to its next suspension first. *)
Inductive step : batch_state -> batch_state -> Prop :=
  | step_main now st :
      main st = Running -> step st (main_step now st)
  | step_fulfilled h op now st :
      main st <> Running -> pending st !! h = Some op ->
      step st (on_fulfilled h op now st)
  | step_rejected h op st :
      main st <> Running -> pending st !! h = Some op ->
      step st (on_rejected h op st)
  | step_finally h op ok st :
      main st <> Running -> settled st !! h = Some (op, ok) ->
      step st (on_finally h op ok st)
  | step_late_work h op now st :
      main st <> Running -> orphaned st !! h = Some op ->
      step st (on_late_work h op now st)
  | step_store c st :
      main st <> Running -> step st (set_store c st).

(** The states a call passes through, from the cache [c] it finds. *)
Definition reachable (c : gmap string CacheEntry) (st : batch_state) : Prop :=
  rtc step (batch_init c) st.

(** What the event loop runs between two resumptions of a call: the timer
    of the simulated work of a promise fires, or its timeout timer does (it
    comes first only for a [timeout_ms] shorter than the sleep of the work,
    which is below one second), or something else runs and changes the
    cache. *)
Inductive event : Type :=
  | WorkDone (h : nat) (now : Z)
  | TimedOut (h : nat) (now : Z)
  | StoreChanged (c : gmap string CacheEntry).

Definition no_timeout (ev : event) : bool :=
  match ev with TimedOut _ _ => false | _ => true end.

(** Nothing else runs while the handler does. *)
Definition when_idle (f : batch_state -> batch_state) (st : batch_state)
  : batch_state :=
  if is_running (main st) then st else f st.

(** One turn of the event loop, with the promise callbacks in the order the
    microtask queue gives them:
    - work that ends first: [.then] callback; the handler resumes (the
      settled promise is still in [inProgress]) and runs to its next
      [await]; [.finally] callback; the handler resumes again, its new race
      holding a settled promise;
    - timeout that fires first: [.catch] callback and the rejection of the
      awaited race; [.finally] callback.
    A timer that fires for a promise that has settled does nothing, except
    that work ending after its timeout still writes to the cache. *)
Definition fire (ev : event) : batch_state -> batch_state :=
  when_idle (fun st =>
    match ev with
    | WorkDone h now =>
        match pending st !! h with
        | Some op =>
            when_idle (fun st1 => run_main now (on_finally h op true st1))
                      (run_main now (on_fulfilled h op now st))
        | None =>
            match orphaned st !! h with
            | Some op => on_late_work h op now st
            | None => st
            end
        end
    | TimedOut h now =>
        match pending st !! h with
        | Some op => on_finally h op false (on_rejected h op st)
        | None => st
        end
    | StoreChanged c => set_store c st
    end).

(** A call: the handler runs from its first line to its first suspension,
    then the events of the schedule are delivered in order. *)
Definition batch_start (now : Z) (c : gmap string CacheEntry) : batch_state :=
  run_main now (batch_init c).

Definition batch_run (now : Z) (c : gmap string CacheEntry) (evs : list event)
  : batch_state :=
  fold_left (fun st ev => fire ev st) evs (batch_start now c).

(** *** Invariants of a call *)

(** What the scheduling keeps true when the ids of a call are distinct:
    the operations still queued have distinct ids, none of which is a key of
    [inProgress]; every promise that has not been through its [.finally]
    callback is stored in [inProgress] under the id of its operation, and
    [inProgress] holds nothing else; at most [concurrency] promises are
    stored. *)
Record batch_inv (st : batch_state) : Prop := {
  inv_queue_nodup : NoDup (List.map op_id (queue st));
  inv_queue_fresh :
    forall op, In op (queue st) -> inProgress st !! op_id op = None;
  inv_tasks :
    forall h op,
      pending st !! h = Some op \/ (exists ok, settled st !! h = Some (op, ok)) ->
      inProgress st !! op_id op = Some h;
  inv_back :
    forall i h,
      inProgress st !! i = Some h ->
      exists op, op_id op = i /\
        (pending st !! h = Some op \/ exists ok, settled st !! h = Some (op, ok));
  inv_disjoint :
    forall h, is_Some (settled st !! h) -> pending st !! h = None;
  inv_handles :
    forall h, is_Some (pending st !! h) \/ is_Some (settled st !! h) ->
              (h < next_promise st)%nat;
  inv_size :
    Z.of_nat (size (inProgress st)) <= Z.max 0 (the_concurrency)
}.

(** What a call keeps true besides: the awaited race holds every promise
    that has not been through its [.finally] callback; as long as no
    exception was thrown, every operation of the call is queued, in flight or
    has a result; and the handler returns only once [inProgress] is empty,
    with the payload of the results, which hold every operation. *)
Record call_inv (st : batch_state) : Prop := {
  inv_await :
    forall raced h,
      main st = Awaiting raced ->
      is_Some (pending st !! h) \/ is_Some (settled st !! h) ->
      raced_on h raced = true;
  inv_cover :
    is_thrown (main st) = false ->
    forall op, In op (operations a) ->
      In op (queue st) \/ (exists h, pending st !! h = Some op) \/
      In (op_id op) (List.map result_id (results st));
  inv_returned :
    forall p, main st = Returned p ->
      inProgress st = ∅ /\ p = payload (results st) /\
      forall op, In op (operations a) ->
                 In (op_id op) (List.map result_id (results st))
}.

(** Between two turns of the event loop of a call in which nothing has
    failed: every [.finally] callback has run, and the handler has returned
    or awaits a race of the promises in progress, of which there are some. *)
Definition suspended_or_returned (st : batch_state) : Prop :=
  (exists p, main st = Returned p) \/
  (exists raced, main st = Awaiting raced /\ inProgress st <> ∅).

Definition quiet (st : batch_state) : Prop :=
  settled st = ∅ /\ suspended_or_returned st.

End Batch.

(** ** Sequences of requests *)

(** What happens to the retry store: a [retry_operation] request, or a tick
    of the periodic sweep. *)
Inductive action : Type :=
  | Retry (a : retry_args) (now now' : Z)
  | Sweep (now : Z).

(** The replies to the requests of [acts], in order, and the state they
    leave. *)
Fixpoint run_actions (acts : list action) (w : world) : list retry_reply * world :=
  match acts with
  | [] => ([], w)
  | Retry a now now' :: rest =>
      let (r, w1) := retry_operation a now now' w in
      let (rs, w2) := run_actions rest w1 in
      (r :: rs, w2)
  | Sweep now :: rest => run_actions rest (sweep now w)
  end.

Definition is_retry (x : action) : bool :=
  match x with Retry _ _ _ => true | Sweep _ => false end.

(** The requests of [acts] on the operation [oid] all pass [m] as
    [max_retries]. *)
Definition fixed_max_retries (oid : string) (m : Z) (acts : list action) : Prop :=
  Forall (fun x =>
            match x with
            | Retry a _ _ => operation_id a = oid -> default 3 (max_retries a) = m
            | Sweep _ => True
            end) acts.

Definition is_execute_attempt (oid : string) (r : retry_reply) : bool :=
  match r with
  | ExecuteAttempt i _ _ _ => bool_decide (i = oid)
  | _ => false
  end.

Definition reply_id (r : retry_reply) : string :=
  match r with
  | AlreadySucceeded i _ | MaxRetriesExceeded i _ | RetryDelayed i _ _
  | ReadyToExecute i _ _ _ _ | ExecuteAttempt i _ _ _ => i
  end.

(** Consecutive [rate_limit_check] requests with the same arguments, at the
    given times. *)
Fixpoint rate_run `{JsRuntime} (a : rate_args) (times : list Z) (w : world)
  : list rate_reply * world :=
  match times with
  | [] => ([], w)
  | now :: rest =>
      let (r, w1) := rate_limit_check a now w in
      let (rs, w2) := rate_run a rest w1 in
      (r :: rs, w2)
  end.

(** ** Predicates of the statements *)

(** Two pairs of arguments alias when a value put under the first is what a
    read under the second finds, whatever the state. *)
Definition aliases `{JsRuntime} (k1 ns1 k2 ns2 : string) : Prop :=
  forall (w : world) (v : json) (ttl t0 t1 t1' : Z),
    t1 < t0 + ttl * 1000 ->
    found_value
      (fst (cache_get {| get_key := k2; get_namespace := Some ns2 |} t1 t1'
              (snd (cache_put {| put_key := k1; put_value := v;
                                 ttl_seconds := Some ttl;
                                 put_namespace := Some ns1 |} t0 w))))
    = Some v.

(** No stored entry is marked successful. *)
Definition none_succeeded (w : world) : Prop :=
  forall id md, retryMetadata w !! id = Some md -> success md = false.

(** The stored attempts of [oid] stay within [m]. *)
Definition within_budget (oid : string) (m : Z) (w : world) : Prop :=
  forall md, retryMetadata w !! oid = Some md -> attempts md <= m.

(** The entry the handler works on. *)
Definition current_limit (a : rate_args) (now : Z) (w : world) : RateLimit :=
  match rateLimits w !! resource a with
  | Some limit =>
      if resetAt limit <=? now
      then {| count := 0; resetAt := now + default 60 (window_seconds a) * 1000 |}
      else limit
  | None => {| count := 0; resetAt := now + default 60 (window_seconds a) * 1000 |}
  end.

(** A runtime for closed examples; none of them depends on what the two
    functions return. *)
Definition example_runtime : JsRuntime :=
  {| JSON_stringify := fun _ => "null";
     toISOString := fun _ => "1970-01-01T00:00:00.000Z" |}.

Definition sample_op (i : string) : BatchOp :=
  {| op_id := i; op_type := "fetch"; op_data := JNull |}.

Definition sample_batch (ops : list BatchOp) (n : Z) : batch_args :=
  {| operations := ops; concurrency := Some n; timeout_ms := None;
     continue_on_error := None; use_cache := None; cache_ttl_seconds := None |}.

Definition sample_retry : retry_args :=
  {| operation_id := "job"; operation_type := "http_request";
     operation_data := JNull; max_retries := None; initial_delay_ms := None;
     should_execute := None |}.

Definition sample_put (ttl : Z) : cache_put_args :=
  {| put_key := "k"; put_value := JStr "v"; ttl_seconds := Some ttl;
     put_namespace := None |}.

(** ** Variants of the arguments *)

(** The arguments [a] with [should_execute] given. *)
Definition set_should_execute (b : bool) (a : retry_args) : retry_args :=
  {| operation_id := operation_id a; operation_type := operation_type a;
     operation_data := operation_data a; max_retries := max_retries a;
     initial_delay_ms := initial_delay_ms a; should_execute := Some b |}.

(** ** What the caller gets *)

(** The time values of [Date]: [new Date(t)] is an invalid date, and its
    [toISOString()] throws a [RangeError], when [t] is more than 8.64e15 ms
    from the epoch. *)
Definition valid_time (t : Z) : bool :=
  (-8640000000000000 <=? t) && (t <=? 8640000000000000).

(** A call answers with its reply, or throws an [McpError]. *)
Inductive outcome (A : Type) : Type :=
  | Replied (reply : A)
  | Threw (code : ErrorCode) (message : string).

Arguments Replied {A} reply.
Arguments Threw {A} code message.

(** The [RangeError] of [toISOString] as the [catch] of the request handler
    rethrows it: [`Tool execution failed: ${error.message}`]. *)
Definition invalid_time_error : string :=
  "Tool execution failed: Invalid time value".

(** [cache_put] as the caller sees it: [cache.set] has run when the reply
    is rendered with [new Date(expiresAt).toISOString()]. *)
Definition cache_put_outcome `{JsRuntime} (a : cache_put_args) (now : Z) (w : world)
  : outcome cache_put_reply * world :=
  let expiresAt := now + default 300 (ttl_seconds a) * 1000 in
  let (r, w1) := cache_put a now w in
  if valid_time expiresAt then (Replied r, w1)
  else (Threw InternalError invalid_time_error, w1).

(** [rate_limit_check] as the caller sees it: the window is stored and the
    request counted when the reply is rendered with
    [new Date(limit.resetAt).toISOString()]. *)
Definition rate_limit_check_outcome `{JsRuntime} (a : rate_args) (now : Z) (w : world)
  : outcome rate_reply * world :=
  let (r, w1) := rate_limit_check a now w in
  if valid_time (resetAt (current_limit a now w)) then (Replied r, w1)
  else (Threw InternalError invalid_time_error, w1).

(** Consecutive [rate_limit_check] requests with the same arguments, at the
    given times, as the caller sees them. *)
Fixpoint rate_run_outcome `{JsRuntime} (a : rate_args) (times : list Z) (w : world)
  : list (outcome rate_reply) * world :=
  match times with
  | [] => ([], w)
  | now :: rest =>
      let (o, w1) := rate_limit_check_outcome a now w in
      let (os, w2) := rate_run_outcome a rest w1 in
      (o :: os, w2)
  end.

(** ** What happens between two requests on an operation *)

(** The sweeps of [acts] keep the retry entry [e]: none of them runs more
    than one hour after its last attempt. *)
Definition sweeps_keep (e : option RetryMeta) (acts : list action) : Prop :=
  Forall (fun x =>
            match x with
            | Retry _ _ _ => True
            | Sweep s => forall md, e = Some md -> s - 3600000 <= lastAttempt md
            end) acts.

(** The requests of [acts] are on other operations than [oid], and its
    sweeps keep the entry [e]. *)
Definition leaves_entry (oid : string) (e : option RetryMeta) (acts : list action)
  : Prop :=
  Forall (fun x =>
            match x with
            | Retry b _ _ => operation_id b <> oid
            | Sweep s => forall md, e = Some md -> s - 3600000 <= lastAttempt md
            end) acts.

(** ** Predicates of the further statements *)

(** The stored count of the resource of [a] is between 0 and the limit. *)
Definition count_in_range (a : rate_args) (w : world) : Prop :=
  forall l, rateLimits w !! resource a = Some l ->
            0 <= count l <= Z.max 0 (default 60 (max_requests a)).

(** The cache [c] holds an entry for [op] that is live at [now]. *)
Definition cache_live `{JsRuntime} (c : gmap string CacheEntry) (now : Z)
    (op : BatchOp) : Prop :=
  exists e, c !! batch_cache_key op = Some e /\ now < expiresAt e.

(** The result pushed for an operation that the cache [c] serves. *)
Definition cached_result `{JsRuntime} (c : gmap string CacheEntry) (op : BatchOp)
  : BatchResult :=
  Cached (op_id op) (from_option value JNull (c !! batch_cache_key op)).

Definition is_cached (r : BatchResult) : bool :=
  match r with Cached _ _ => true | _ => false end.

(** The events of the call itself, as opposed to what other requests do to
    the cache in the meantime. *)
Definition keeps_store (ev : event) : bool :=
  match ev with StoreChanged _ => false | _ => true end.

(** The key and namespace under which the cache tools see the entry that
    [batch_operation] keeps for [op]. *)
Definition batch_entry_key `{JsRuntime} (op : BatchOp) : string :=
  op_type op +:+ ":" +:+ JSON_stringify (op_data op).

(** The bookkeeping of a call in which nothing was thrown: every result is a
    success, every operation is queued, in flight or has its result, and
    the handler returns on an empty queue. *)
Record tally (a : batch_args) (st : batch_state) : Prop := {
  tally_success :
    is_thrown (main st) = false ->
    Forall (fun r => result_success r = true) (results st);
  tally_count :
    is_thrown (main st) = false ->
    (length (results st) + length (queue st) + size (pending st) =
     length (operations a))%nat;
  tally_returned :
    forall p, main st = Returned p -> queue st = []
}.

(** Arguments of the further closed instances. *)
Definition sample_cached_batch (ops : list BatchOp) : batch_args :=
  {| operations := ops; concurrency := None; timeout_ms := None;
     continue_on_error := None; use_cache := Some true; cache_ttl_seconds := None |}.

Definition sample_rate (inc : option bool) : rate_args :=
  {| resource := "api"; max_requests := Some 2; window_seconds := Some 60;
     increment := inc |}.

(** A value stored by [cache_put] where [batch_operation] looks for the
    result of a [fetch] operation. *)
Definition sample_seed : cache_put_args :=
  {| put_key := "fetch:null"; put_value := JStr "v"; ttl_seconds := Some 60;
     put_namespace := Some "batch" |}.

(** * Properties *)

(** ** The cache *)

Section CacheFacts.
Context `{JsRuntime}.

Lemma cache_put_store (a : cache_put_args) (now : Z) (w : world) :
  cache (snd (cache_put a now w)) =
  <[getCacheKey (put_key a) (default "default" (put_namespace a)) :=
      {| value := put_value a;
         expiresAt := now + default 300 (ttl_seconds a) * 1000 |}]> (cache w).
Proof. reflexivity. Qed.

Lemma cache_get_live (g : cache_get_args) (now now' : Z) (w : world) (e : CacheEntry) :
  cache w !! getCacheKey (get_key g) (default "default" (get_namespace g)) = Some e ->
  now < expiresAt e ->
  cache_get g now now' w =
  ({| found := true; found_key := get_key g;
      found_namespace := default "default" (get_namespace g);
      found_value := Some (value e);
      expires_in_seconds := Some ((expiresAt e - now') / 1000);
      reason := None |}, w).
Proof.
  intros Hl Hnow. unfold cache_get. rewrite Hl.
  destruct (Z.leb_spec (expiresAt e) now) as [Hle|_]; [lia | reflexivity].
Qed.

Lemma cache_get_expired (g : cache_get_args) (now now' : Z) (w : world) (e : CacheEntry) :
  cache w !! getCacheKey (get_key g) (default "default" (get_namespace g)) = Some e ->
  expiresAt e <= now ->
  cache_get g now now' w =
  ({| found := false; found_key := get_key g;
      found_namespace := default "default" (get_namespace g);
      found_value := None; expires_in_seconds := None;
      reason := Some "expired" |},
   with_cache
     (delete (getCacheKey (get_key g) (default "default" (get_namespace g))) (cache w)) w).
Proof.
  intros Hl Hnow. unfold cache_get. rewrite Hl.
  destruct (Z.leb_spec (expiresAt e) now) as [_|Hlt]; [reflexivity | lia].
Qed.

Lemma cache_get_absent (g : cache_get_args) (now now' : Z) (w : world) :
  cache w !! getCacheKey (get_key g) (default "default" (get_namespace g)) = None ->
  cache_get g now now' w =
  ({| found := false; found_key := get_key g;
      found_namespace := default "default" (get_namespace g);
      found_value := None; expires_in_seconds := None; reason := None |}, w).
Proof. intros Hl. unfold cache_get. now rewrite Hl. Qed.

(** C4.  A [cache_put] followed by a [cache_get] of the same key and
    namespace: while the ttl has not elapsed the read finds the value that
    was put and leaves the state alone; once it has elapsed the read finds
    nothing and deletes the entry. *)
Theorem cache_put_get_roundtrip
    (w : world) (k : string) (v : json) (ttl : Z) (ns : option string)
    (t0 t1 t1' : Z) :
  1 <= ttl <= 86400 ->
  let put := {| put_key := k; put_value := v; ttl_seconds := Some ttl;
                put_namespace := ns |} in
  let get := {| get_key := k; get_namespace := ns |} in
  let w1 := snd (cache_put put t0 w) in
  let r := cache_get get t1 t1' w1 in
  (t1 < t0 + ttl * 1000 ->
     found (fst r) = true /\ found_value (fst r) = Some v /\ snd r = w1) /\
  (t0 + ttl * 1000 <= t1 ->
     found (fst r) = false /\ found_value (fst r) = None /\
     cache (snd r) = delete (getCacheKey k (default "default" ns)) (cache w1) /\
     cache (snd r) !! getCacheKey k (default "default" ns) = None /\
     retryMetadata (snd r) = retryMetadata w /\ rateLimits (snd r) = rateLimits w).
Proof.
  intros _ put get w1 r.
  assert (Hl : cache w1 !! getCacheKey (get_key get) (default "default" (get_namespace get))
               = Some {| value := v; expiresAt := t0 + ttl * 1000 |}).
  { subst w1. rewrite cache_put_store. cbn. apply lookup_insert_eq. }
  split; intros Ht; subst r.
  - rewrite (cache_get_live _ _ _ _ _ Hl) by (cbn; lia). cbn. auto.
  - rewrite (cache_get_expired _ _ _ _ _ Hl) by (cbn; lia). cbn.
    repeat split; try reflexivity. apply lookup_delete_eq.
Qed.

(** C10.  The three cache tools work on the entry stored under
    [namespace ++ ":" ++ key]; two pairs alias exactly when these strings are
    equal, which happens for the distinct pairs ("a:b", "c") and ("a", "b:c"):
    a put under the first is what a get under the second finds. *)
Theorem cache_addresses_by_concatenation :
  (forall key ns, getCacheKey key ns = ns +:+ ":" +:+ key) /\
  (forall a now w,
      cache (snd (cache_put a now w)) =
      <[getCacheKey (put_key a) (default "default" (put_namespace a)) :=
          {| value := put_value a;
             expiresAt := now + default 300 (ttl_seconds a) * 1000 |}]> (cache w)) /\
  (forall d w,
      cache (snd (cache_delete d w)) =
      delete (getCacheKey (del_key d) (default "default" (del_namespace d))) (cache w)) /\
  (forall g now now' w,
      found_value (fst (cache_get g now now' w)) =
      match cache w !! getCacheKey (get_key g) (default "default" (get_namespace g)) with
      | Some e => if expiresAt e <=? now then None else Some (value e)
      | None => None
      end) /\
  (forall k1 ns1 k2 ns2,
      aliases k1 ns1 k2 ns2 <-> getCacheKey k1 ns1 = getCacheKey k2 ns2) /\
  ("a:b", "c") <> ("a", "b:c") /\
  getCacheKey "c" "a:b" = getCacheKey "b:c" "a" /\
  aliases "c" "a:b" "b:c" "a".
Proof.
  assert (Hget : forall g now now' w,
      found_value (fst (cache_get g now now' w)) =
      match cache w !! getCacheKey (get_key g) (default "default" (get_namespace g)) with
      | Some e => if expiresAt e <=? now then None else Some (value e)
      | None => None
      end).
  { intros g now now' w. unfold cache_get.
    destruct (cache w !! _) as [e|]; [|reflexivity].
    destruct (expiresAt e <=? now); reflexivity. }
  assert (Hiff : forall k1 ns1 k2 ns2,
      aliases k1 ns1 k2 ns2 <-> getCacheKey k1 ns1 = getCacheKey k2 ns2).
  { intros k1 ns1 k2 ns2. split.
    - intros Ha. specialize (Ha empty_world JNull 1 0 0 0 ltac:(lia)).
      rewrite Hget, cache_put_store in Ha. cbn in Ha.
      destruct (decide (getCacheKey k1 ns1 = getCacheKey k2 ns2)) as [|Hne]; [done|].
      rewrite lookup_insert_ne, lookup_empty in Ha by done. discriminate.
    - intros Heq w v ttl t0 t1 t1' Ht.
      rewrite Hget, cache_put_store. cbn. rewrite Heq, lookup_insert_eq. cbn.
      destruct (Z.leb_spec (t0 + ttl * 1000) t1); [lia | reflexivity]. }
  repeat split; try reflexivity; try apply Hiff; try apply Hget; try discriminate.
  reflexivity.
Qed.

(** [cache_put] stores under any [ttl_seconds], expiring at
    [now + ttl_seconds * 1000], reports success and leaves the two other
    stores alone. *)
Lemma cache_put_any_ttl (a : cache_put_args) (now : Z) (w : world) :
  let r := cache_put a now w in
  put_success (fst r) = true /\
  cache (snd r) !! getCacheKey (put_key a) (default "default" (put_namespace a)) =
    Some {| value := put_value a;
            expiresAt := now + default 300 (ttl_seconds a) * 1000 |} /\
  retryMetadata (snd r) = retryMetadata w /\
  rateLimits (snd r) = rateLimits w.
Proof.
  cbn. repeat split; try reflexivity. apply lookup_insert_eq.
Qed.

(** What the caller of [cache_put] gets: the state is written in any case,
    the reply is given when its date can be rendered. *)
Lemma cache_put_outcome_cases (a : cache_put_args) (now : Z) (w : world) :
  snd (cache_put_outcome a now w) = snd (cache_put a now w) /\
  fst (cache_put_outcome a now w) =
    if valid_time (now + default 300 (ttl_seconds a) * 1000)
    then Replied (fst (cache_put a now w))
    else Threw InternalError invalid_time_error.
Proof.
  unfold cache_put_outcome. destruct (cache_put a now w) as [r w1].
  now destruct (valid_time _).
Qed.

End CacheFacts.

(** ** The retry tracker *)

Section RetryFacts.

Lemma retry_lookup_unsuccessful (w : world) (id : string) :
  none_succeeded w -> success (retry_lookup w id) = false.
Proof.
  intros Hw. unfold retry_lookup.
  destruct (retryMetadata w !! id) as [md|] eqn:E; cbn; eauto.
Qed.

(** The handler either leaves the state alone or answers [execute_attempt]
    and stores one more attempt. *)
Lemma retry_operation_cases (a : retry_args) (now now' : Z) (w : world) :
  let md := retry_lookup w (operation_id a) in
  (snd (retry_operation a now now' w) = w /\
   (forall oid, is_execute_attempt oid (fst (retry_operation a now now' w)) = false) /\
   reply_id (fst (retry_operation a now now' w)) = operation_id a) \/
  (success md = false /\ attempts md < default 3 (max_retries a) /\
   fst (retry_operation a now now' w) =
     ExecuteAttempt (operation_id a) (attempts md + 1) (operation_type a) (operation_data a) /\
   snd (retry_operation a now now' w) =
     with_retryMetadata
       (<[operation_id a := {| attempts := attempts md + 1; lastAttempt := now';
                               success := false |}]> (retryMetadata w)) w).
Proof.
  unfold retry_operation. cbn zeta.
  destruct (success (retry_lookup w (operation_id a))) eqn:Es; [left; cbn; auto|].
  destruct (Z.leb_spec (default 3 (max_retries a)) (attempts (retry_lookup w (operation_id a))));
    [left; cbn; auto|].
  destruct (_ && _); [left; cbn; auto|].
  destruct (negb _); [left; cbn; auto|].
  right. cbn. auto.
Qed.

Lemma retry_operation_none_succeeded (a : retry_args) (now now' : Z) (w : world) :
  none_succeeded w -> none_succeeded (snd (retry_operation a now now' w)).
Proof.
  intros Hw.
  destruct (retry_operation_cases a now now' w) as [(-> & _)|(_ & _ & _ & ->)]; [done|].
  intros id md. cbn. rewrite lookup_insert.
  case_decide; [intros [= <-]; reflexivity | apply Hw].
Qed.

Lemma sweep_none_succeeded (now : Z) (w : world) :
  none_succeeded w -> none_succeeded (sweep now w).
Proof.
  intros Hw id md. cbn. intros [Hl _]%map_lookup_filter_Some. eauto.
Qed.

Lemma retry_operation_not_already_succeeded (a : retry_args) (now now' : Z) (w : world) :
  none_succeeded w ->
  status (fst (retry_operation a now now' w)) <> "already_succeeded".
Proof.
  intros Hw. unfold retry_operation. cbn zeta.
  rewrite (retry_lookup_unsuccessful _ _ Hw).
  repeat match goal with |- context [if ?b then _ else _] => destruct b end;
    cbn; discriminate.
Qed.

Lemma run_actions_none_succeeded (acts : list action) (w : world) :
  none_succeeded w ->
  none_succeeded (snd (run_actions acts w)) /\
  Forall (fun r => status r <> "already_succeeded") (fst (run_actions acts w)).
Proof.
  revert w. induction acts as [|[a now now'|now] acts IH]; intros w Hw; cbn.
  - auto.
  - pose proof (retry_operation_none_succeeded a now now' w Hw) as Hw1.
    pose proof (retry_operation_not_already_succeeded a now now' w Hw) as Hr.
    destruct (retry_operation a now now' w) as [r w1]. cbn in *.
    specialize (IH w1 Hw1). destruct (run_actions acts w1) as [rs w2]. cbn in *.
    destruct IH. auto.
  - apply IH, sweep_none_succeeded, Hw.
Qed.

(** C9.  From the empty store, whatever [retry_operation] requests (and
    sweeps) happen, no stored entry has [success = true] and no reply has the
    status [already_succeeded]. *)
Theorem retry_success_never_set (acts : list action) :
  (forall id md,
      retryMetadata (snd (run_actions acts empty_world)) !! id = Some md ->
      success md = false) /\
  Forall (fun r => status r <> "already_succeeded")
         (fst (run_actions acts empty_world)).
Proof.
  apply run_actions_none_succeeded. intros id md. cbn. now rewrite lookup_empty.
Qed.

Lemma retry_operation_within_budget (oid : string) (m : Z) (a : retry_args)
    (now now' : Z) (w : world) :
  (operation_id a = oid -> default 3 (max_retries a) = m) ->
  within_budget oid m w -> within_budget oid m (snd (retry_operation a now now' w)).
Proof.
  intros Hm Hw.
  destruct (retry_operation_cases a now now' w) as [(-> & _)|(_ & Hlt & _ & ->)]; [done|].
  intros md. cbn. rewrite lookup_insert.
  case_decide as Hid; [intros [= <-]; cbn; specialize (Hm Hid); lia | apply Hw].
Qed.

Lemma sweep_within_budget (oid : string) (m : Z) (now : Z) (w : world) :
  within_budget oid m w -> within_budget oid m (sweep now w).
Proof.
  intros Hw md. cbn. intros [Hl _]%map_lookup_filter_Some. eauto.
Qed.

Lemma run_actions_within_budget (oid : string) (m : Z) (acts : list action) (w : world) :
  fixed_max_retries oid m acts ->
  within_budget oid m w -> within_budget oid m (snd (run_actions acts w)).
Proof.
  intros Hfix. revert w.
  induction Hfix as [|[a now now'|now] acts Hm _ IH]; intros w Hw; cbn; [done| |].
  - pose proof (retry_operation_within_budget oid m a now now' w Hm Hw) as Hw1.
    destruct (retry_operation a now now' w) as [r w1]. cbn in *.
    specialize (IH w1 Hw1). now destruct (run_actions acts w1).
  - now apply IH, sweep_within_budget.
Qed.

Lemma retry_lookup_insert (w : world) (id oid : string) (md : RetryMeta) :
  retry_lookup (with_retryMetadata (<[id := md]> (retryMetadata w)) w) oid =
  if decide (id = oid) then md else retry_lookup w oid.
Proof.
  unfold retry_lookup. cbn. rewrite lookup_insert. now case_decide.
Qed.

(** Without sweeps, the stored attempts of [oid] count the
    [execute_attempt] replies it was given. *)
Lemma run_actions_counts_attempts (oid : string) (acts : list action) (w : world) :
  forallb is_retry acts = true ->
  attempts (retry_lookup (snd (run_actions acts w)) oid) =
  attempts (retry_lookup w oid) +
  Z.of_nat (length (List.filter (is_execute_attempt oid) (fst (run_actions acts w)))).
Proof.
  revert w. induction acts as [|[a now now'|now] acts IH]; intros w Hall; cbn in *;
    [lia| |discriminate].
  specialize (IH (snd (retry_operation a now now' w)) Hall).
  destruct (retry_operation_cases a now now' w) as [(Hw & Hr & _)|(_ & _ & Hr & Hw)];
    destruct (retry_operation a now now' w) as [r w1]; cbn in *; subst;
    destruct (run_actions acts _) as [rs w2]; cbn in *.
  - rewrite Hr. lia.
  - rewrite retry_lookup_insert in IH. rewrite IH.
    destruct (decide (operation_id a = oid)) as [Hid|Hid].
    + rewrite bool_decide_eq_true_2 by done. subst oid. cbn [attempts length]. lia.
    + rewrite bool_decide_eq_false_2 by done. reflexivity.
Qed.

(** A request on an exhausted operation is refused and changes nothing. *)
Lemma retry_operation_exhausted (a : retry_args) (now now' : Z) (w : world) :
  none_succeeded w ->
  default 3 (max_retries a) <= attempts (retry_lookup w (operation_id a)) ->
  retry_operation a now now' w =
  (MaxRetriesExceeded (operation_id a) (attempts (retry_lookup w (operation_id a))), w).
Proof.
  intros Hw Hm. unfold retry_operation. cbn zeta.
  rewrite (retry_lookup_unsuccessful _ _ Hw).
  destruct (Z.leb_spec (default 3 (max_retries a))
              (attempts (retry_lookup w (operation_id a)))); [reflexivity | lia].
Qed.

(** A request on another operation does not touch the entry of [oid]. *)
Lemma retry_operation_other (oid : string) (a : retry_args) (now now' : Z) (w : world) :
  operation_id a <> oid ->
  retry_lookup (snd (retry_operation a now now' w)) oid = retry_lookup w oid.
Proof.
  intros Hid.
  destruct (retry_operation_cases a now now' w) as [(-> & _)|(_ & _ & _ & ->)]; [done|].
  rewrite retry_lookup_insert. now case_decide.
Qed.

(** What is left of the retry store after a sweep. *)
Lemma sweep_retry_lookup (t : Z) (w : world) (i : string) :
  retryMetadata (sweep t w) !! i =
  match retryMetadata w !! i with
  | Some md => if lastAttempt md <? t - 3600000 then None else Some md
  | None => None
  end.
Proof.
  cbn [sweep retryMetadata]. destruct (retryMetadata w !! i) as [md|] eqn:Hi.
  - destruct (Z.ltb_spec (lastAttempt md) (t - 3600000)).
    + apply map_lookup_filter_None_2. right. intros x Hx Hp.
      assert (x = md) as -> by congruence. cbn in Hp. lia.
    + apply map_lookup_filter_Some_2; [done | cbn; lia].
  - apply map_lookup_filter_None_2. now left.
Qed.

Lemma sweep_keeps_entry (oid : string) (s : Z) (w : world) :
  (forall md, retryMetadata w !! oid = Some md -> s - 3600000 <= lastAttempt md) ->
  retryMetadata (sweep s w) !! oid = retryMetadata w !! oid.
Proof.
  intros Hk. rewrite sweep_retry_lookup.
  destruct (retryMetadata w !! oid) as [md|]; [|reflexivity].
  specialize (Hk md eq_refl).
  destruct (Z.ltb_spec (lastAttempt md) (s - 3600000)); [lia | reflexivity].
Qed.

Lemma retry_lookup_entry (w1 w2 : world) (oid : string) :
  retryMetadata w1 !! oid = retryMetadata w2 !! oid ->
  retry_lookup w1 oid = retry_lookup w2 oid.
Proof. unfold retry_lookup. now intros ->. Qed.

Lemma retry_operation_other_entry (oid : string) (a : retry_args) (now now' : Z)
    (w : world) :
  operation_id a <> oid ->
  retryMetadata (snd (retry_operation a now now' w)) !! oid = retryMetadata w !! oid /\
  reply_id (fst (retry_operation a now now' w)) = operation_id a.
Proof.
  intros Hid.
  destruct (retry_operation_cases a now now' w) as [(-> & _ & Hr)|(_ & _ & -> & ->)].
  - auto.
  - cbn. now rewrite lookup_insert_ne.
Qed.

(** As long as an entry that has used its retries is kept, every request
    on it is refused. *)
Lemma run_actions_refused (oid : string) (m : Z) (e : option RetryMeta)
    (more : list action) :
  sweeps_keep e more ->
  fixed_max_retries oid m more ->
  forall w,
    none_succeeded w ->
    retryMetadata w !! oid = e ->
    m <= attempts (retry_lookup w oid) ->
    Forall (fun r => reply_id r = oid ->
                     r = MaxRetriesExceeded oid (attempts (retry_lookup w oid)))
           (fst (run_actions more w)) /\
    retryMetadata (snd (run_actions more w)) !! oid = e.
Proof.
  induction more as [|[a now now'|s] more IH]; intros Hk Hfix w Hw He Hm; cbn.
  - auto.
  - apply Forall_cons in Hk as [_ Hk]. apply Forall_cons in Hfix as [Hmax Hfix].
    pose proof (retry_operation_none_succeeded a now now' w Hw) as Hw1.
    destruct (decide (operation_id a = oid)) as [Hid|Hid].
    + rewrite retry_operation_exhausted by (rewrite ?Hid, ?Hmax; auto).
      specialize (IH Hk Hfix w Hw He Hm). destruct (run_actions more w) as [rs w2].
      cbn in *. destruct IH as [IH1 IH2]. split; [|done]. constructor; [|done].
      intros _. now rewrite Hid.
    + destruct (retry_operation_other_entry oid a now now' w Hid) as [Hraw Hrid].
      destruct (retry_operation a now now' w) as [r w1]. cbn in *.
      pose proof (retry_lookup_entry w1 w oid Hraw) as Hlk.
      specialize (IH Hk Hfix w1 Hw1). rewrite Hlk, Hraw in IH. specialize (IH He Hm).
      destruct (run_actions more w1) as [rs w2]. cbn in *.
      destruct IH as [IH1 IH2]. split; [|done]. constructor; [|done].
      intros Hr. congruence.
  - apply Forall_cons in Hk as [Hs Hk]. apply Forall_cons in Hfix as [_ Hfix].
    assert (Hraw : retryMetadata (sweep s w) !! oid = retryMetadata w !! oid).
    { apply sweep_keeps_entry. intros md Hmd. apply Hs. congruence. }
    pose proof (retry_lookup_entry (sweep s w) w oid Hraw) as Hlk.
    specialize (IH Hk Hfix (sweep s w) (sweep_none_succeeded s w Hw)).
    rewrite Hlk, Hraw in IH. now apply IH.
Qed.

Lemma retry_lookup_counted (w : world) (oid : string) :
  (forall id md, retryMetadata w !! id = Some md -> 0 <= attempts md) ->
  0 <= attempts (retry_lookup w oid).
Proof.
  intros Hw. unfold retry_lookup.
  destruct (retryMetadata w !! oid) as [md|] eqn:E; cbn; [eauto | lia].
Qed.

(** Whatever the sweeps, an operation never has more attempts stored than
    it was given [execute_attempt] replies. *)
Lemma run_actions_attempts_le (oid : string) (acts : list action) (w : world) :
  (forall id md, retryMetadata w !! id = Some md -> 0 <= attempts md) ->
  attempts (retry_lookup (snd (run_actions acts w)) oid) <=
  attempts (retry_lookup w oid) +
  Z.of_nat (length (List.filter (is_execute_attempt oid) (fst (run_actions acts w)))).
Proof.
  revert w. induction acts as [|[a now now'|s] acts IH]; intros w Hw; cbn.
  - lia.
  - pose proof (retry_lookup_counted w (operation_id a) Hw) as Hpos.
    assert (Hw1 : forall id md,
               retryMetadata (snd (retry_operation a now now' w)) !! id = Some md ->
               0 <= attempts md).
    { destruct (retry_operation_cases a now now' w) as [(-> & _)|(_ & _ & _ & ->)];
        [exact Hw|].
      intros id md. cbn. rewrite lookup_insert.
      case_decide; [intros [= <-]; cbn; lia | apply Hw]. }
    specialize (IH (snd (retry_operation a now now' w)) Hw1).
    destruct (retry_operation_cases a now now' w) as [(Hs & Hr & _)|(_ & _ & Hr & Hs)];
      destruct (retry_operation a now now' w) as [r w1]; cbn in *; subst;
      destruct (run_actions acts _) as [rs w2]; cbn in *.
    + rewrite Hr. lia.
    + rewrite retry_lookup_insert in IH.
      destruct (decide (operation_id a = oid)) as [Hid|Hid].
      * rewrite bool_decide_eq_true_2 by done. subst oid. cbn [attempts length] in *. lia.
      * rewrite bool_decide_eq_false_2 by done. exact IH.
  - assert (Hw1 : forall id md, retryMetadata (sweep s w) !! id = Some md ->
                                0 <= attempts md).
    { intros id md. cbn. intros [Hl _]%map_lookup_filter_Some. eauto. }
    specialize (IH (sweep s w) Hw1).
    assert (Hle : attempts (retry_lookup (sweep s w) oid) <= attempts (retry_lookup w oid)).
    { pose proof (retry_lookup_counted w oid Hw) as Hpos.
      unfold retry_lookup in *. rewrite sweep_retry_lookup.
      destruct (retryMetadata w !! oid) as [md|]; cbn in *; [|lia].
      destruct (lastAttempt md <? s - 3600000); cbn; lia. }
    lia.
Qed.

(** C2, as the code has it.  Requests on [oid] that all pass the whole
    number [m] as [max_retries], interleaved with any requests on other
    operations and with sweeps, from the empty store.  The stored attempts
    of [oid] never exceed [m], nor the number of [execute_attempt] replies
    given for [oid], which they equal when there was no sweep.  Once they
    have reached [m], every further request on [oid] is answered
    [max_retries_exceeded] with the same attempts, and the entry stays as
    it is, for as long as no sweep runs more than an hour after its last
    attempt.  Such a sweep forgets the entry, and the next request on [oid]
    is given attempt number 1. *)
Theorem retry_attempts_bounded (oid : string) (m : Z) (acts : list action) :
  fixed_max_retries oid m acts ->
  let w := snd (run_actions acts empty_world) in
  let executed :=
    Z.of_nat (length (List.filter (is_execute_attempt oid)
                                  (fst (run_actions acts empty_world)))) in
  (forall md, retryMetadata w !! oid = Some md -> attempts md <= m) /\
  attempts (retry_lookup w oid) <= executed /\
  (forallb is_retry acts = true -> attempts (retry_lookup w oid) = executed) /\
  (m <= attempts (retry_lookup w oid) ->
   forall more,
     sweeps_keep (retryMetadata w !! oid) more ->
     fixed_max_retries oid m more ->
     Forall (fun r => reply_id r = oid ->
                      r = MaxRetriesExceeded oid (attempts (retry_lookup w oid)) /\
                      status r = "max_retries_exceeded")
            (fst (run_actions more w)) /\
     retryMetadata (snd (run_actions more w)) !! oid = retryMetadata w !! oid) /\
  (forall md t a now now',
     retryMetadata w !! oid = Some md ->
     lastAttempt md < t - 3600000 ->
     operation_id a = oid ->
     0 < default 3 (max_retries a) ->
     default true (should_execute a) = true ->
     retryMetadata (sweep t w) !! oid = None /\
     fst (retry_operation a now now' (sweep t w)) =
       ExecuteAttempt oid 1 (operation_type a) (operation_data a)).
Proof.
  intros Hfix w executed.
  assert (Hnone : none_succeeded empty_world).
  { intros id md. cbn. now rewrite lookup_empty. }
  split; [|split; [|split; [|split]]].
  - apply (run_actions_within_budget oid m acts empty_world Hfix).
    intros md. cbn. now rewrite lookup_empty.
  - subst w executed.
    pose proof (run_actions_attempts_le oid acts empty_world) as Hle.
    cbn in Hle. apply Hle. intros id md. now rewrite lookup_empty.
  - intros Hall. subst w executed. now rewrite run_actions_counts_attempts.
  - intros Hm more Hkeep Hmore.
    destruct (run_actions_refused oid m (retryMetadata w !! oid) more Hkeep Hmore w)
      as [H1 H2]; auto.
    { apply run_actions_none_succeeded, Hnone. }
    split; [|done]. eapply Forall_impl; [exact H1|].
    intros r Hr Hid. cbn in Hr. rewrite (Hr Hid). auto.
  - intros md t a now now' Hmd Hold Hid Hmax Hexec.
    assert (Hgone : retryMetadata (sweep t w) !! oid = None).
    { rewrite sweep_retry_lookup, Hmd.
      destruct (Z.ltb_spec (lastAttempt md) (t - 3600000)); [reflexivity | lia]. }
    split; [exact Hgone|].
    unfold retry_operation, retry_lookup. rewrite Hid, Hgone, Hexec. cbn.
    destruct (Z.leb_spec (default 3 (max_retries a)) 0); [lia | reflexivity].
Qed.

(** C6, as the code has it.  On an operation that is not marked successful
    and has used some but not all of its retries, a request that comes before
    [initial_delay_ms * 2 ^ attempts] has passed since the last attempt is
    answered [retry_delayed], with the positive time still to wait, and
    leaves the state as it is. *)
Theorem retry_delayed_before_backoff (a : retry_args) (now now' : Z) (w : world) :
  let md := retry_lookup w (operation_id a) in
  let requiredDelay := default 1000 (initial_delay_ms a) * 2 ^ attempts md in
  success md = false ->
  0 < attempts md < default 3 (max_retries a) ->
  now - lastAttempt md < requiredDelay ->
  retry_operation a now now' w =
    (RetryDelayed (operation_id a) (attempts md)
       (requiredDelay - (now - lastAttempt md)), w) /\
  status (fst (retry_operation a now now' w)) = "retry_delayed" /\
  0 < requiredDelay - (now - lastAttempt md).
Proof.
  intros md requiredDelay Hs [Hpos Hmax] Hel.
  assert (E : retry_operation a now now' w =
              (RetryDelayed (operation_id a) (attempts md)
                 (requiredDelay - (now - lastAttempt md)), w)).
  { subst md requiredDelay. unfold retry_operation. cbn zeta. rewrite Hs.
    destruct (Z.leb_spec (default 3 (max_retries a))
                (attempts (retry_lookup w (operation_id a)))); [lia|].
    destruct (Z.ltb_spec 0 (attempts (retry_lookup w (operation_id a)))); [|lia].
    destruct (Z.ltb_spec (now - lastAttempt (retry_lookup w (operation_id a)))
                (default 1000 (initial_delay_ms a) *
                 2 ^ attempts (retry_lookup w (operation_id a)))); [|lia].
    reflexivity. }
  rewrite E. cbn. split; [reflexivity | split; [reflexivity | lia]].
Qed.

End RetryFacts.

(** ** The rate limiter *)

Section RateFacts.
Context `{JsRuntime}.

Lemma rate_limit_check_spec (a : rate_args) (now : Z) (w : world) :
  let limit := current_limit a now w in
  let ok := count limit <? default 60 (max_requests a) in
  let limit' :=
    if ok && default true (increment a)
    then {| count := count limit + 1; resetAt := resetAt limit |} else limit in
  allowed (fst (rate_limit_check a now w)) = ok /\
  remaining (fst (rate_limit_check a now w)) =
    Z.max 0 (default 60 (max_requests a) - count limit) /\
  current_count (fst (rate_limit_check a now w)) = count limit' /\
  rateLimits (snd (rate_limit_check a now w)) !! resource a = Some limit'.
Proof.
  unfold rate_limit_check, current_limit. cbn.
  repeat split; try reflexivity. apply lookup_insert_eq.
Qed.

(** A check on a resource whose window is open and holds [n] requests. *)
Lemma rate_limit_check_in_window (a : rate_args) (now : Z) (w : world) (n reset : Z) :
  rateLimits w !! resource a = Some {| count := n; resetAt := reset |} ->
  now < reset ->
  default true (increment a) = true ->
  let r := rate_limit_check a now w in
  allowed (fst r) = (n <? default 60 (max_requests a)) /\
  remaining (fst r) = Z.max 0 (default 60 (max_requests a) - n) /\
  current_count (fst r) = (if n <? default 60 (max_requests a) then n + 1 else n) /\
  rateLimits (snd r) !! resource a =
    Some {| count := if n <? default 60 (max_requests a) then n + 1 else n;
            resetAt := reset |}.
Proof.
  intros Hl Hnow Hinc r. subst r.
  unfold rate_limit_check. rewrite Hl, Hinc. cbn.
  destruct (Z.leb_spec reset now); [lia|]. cbn.
  rewrite andb_true_r, lookup_insert_eq.
  destruct (n <? default 60 (max_requests a)); auto.
Qed.

(** A check on a resource that has no window yet. *)
Lemma rate_limit_check_fresh (a : rate_args) (now : Z) (w : world) :
  rateLimits w !! resource a = None ->
  default true (increment a) = true ->
  let r := rate_limit_check a now w in
  allowed (fst r) = (0 <? default 60 (max_requests a)) /\
  remaining (fst r) = Z.max 0 (default 60 (max_requests a) - 0) /\
  current_count (fst r) = (if 0 <? default 60 (max_requests a) then 0 + 1 else 0) /\
  rateLimits (snd r) !! resource a =
    Some {| count := if 0 <? default 60 (max_requests a) then 0 + 1 else 0;
            resetAt := now + default 60 (window_seconds a) * 1000 |}.
Proof.
  intros Hl Hinc r. subst r.
  unfold rate_limit_check. rewrite Hl, Hinc. cbn.
  rewrite andb_true_r, lookup_insert_eq.
  destruct (0 <? default 60 (max_requests a)); auto.
Qed.

(** C3, on the code.  Six checks of a fresh resource with
    [max_requests = 5], [window_seconds = 60] and [increment = true], the
    last five before the window of the first one ends: the first five are
    allowed and report [remaining] 5, 4, 3, 2, 1 (the count before the
    request is added), the sixth is refused with [remaining] 0. *)
Theorem rate_limit_six_checks (w : world) (rsrc : string) (t0 t1 t2 t3 t4 t5 : Z) :
  rateLimits w !! rsrc = None ->
  Forall (fun t => t < t0 + 60000) [t1; t2; t3; t4; t5] ->
  let a := {| resource := rsrc; max_requests := Some 5;
              window_seconds := Some 60; increment := Some true |} in
  List.map (fun r => (allowed r, remaining r, current_count r))
           (fst (rate_run a [t0; t1; t2; t3; t4; t5] w)) =
  [(true, 5, 1); (true, 4, 2); (true, 3, 3); (true, 2, 4); (true, 1, 5); (false, 0, 5)].
Proof.
  intros Hfresh Hts a.
  repeat match goal with
         | Hf : Forall _ (_ :: _) |- _ => apply Forall_cons_1 in Hf; destruct Hf as [? Hf]
         end.
  cbn [rate_run].
  pose proof (rate_limit_check_fresh a t0 w Hfresh eq_refl) as (A0 & R0 & C0 & W0).
  destruct (rate_limit_check a t0 w) as [r0 w0]. cbn [fst snd] in *.
  pose proof (rate_limit_check_in_window a t1 w0 1 (t0 + 60000) W0 ltac:(lia) eq_refl)
    as (A1 & R1 & C1 & W1).
  destruct (rate_limit_check a t1 w0) as [r1 w1]. cbn [fst snd] in *.
  pose proof (rate_limit_check_in_window a t2 w1 2 (t0 + 60000) W1 ltac:(lia) eq_refl)
    as (A2 & R2 & C2 & W2).
  destruct (rate_limit_check a t2 w1) as [r2 w2]. cbn [fst snd] in *.
  pose proof (rate_limit_check_in_window a t3 w2 3 (t0 + 60000) W2 ltac:(lia) eq_refl)
    as (A3 & R3 & C3 & W3).
  destruct (rate_limit_check a t3 w2) as [r3 w3]. cbn [fst snd] in *.
  pose proof (rate_limit_check_in_window a t4 w3 4 (t0 + 60000) W3 ltac:(lia) eq_refl)
    as (A4 & R4 & C4 & W4).
  destruct (rate_limit_check a t4 w3) as [r4 w4]. cbn [fst snd] in *.
  pose proof (rate_limit_check_in_window a t5 w4 5 (t0 + 60000) W4 ltac:(lia) eq_refl)
    as (A5 & R5 & C5 & W5).
  destruct (rate_limit_check a t5 w4) as [r5 w5]. cbn [fst snd List.map] in *.
  rewrite A0, R0, C0, A1, R1, C1, A2, R2, C2, A3, R3, C3, A4, R4, C4, A5, R5, C5.
  reflexivity.
Qed.

End RateFacts.

(** ** The batch runner *)

Section BatchFacts.
Context `{JsRuntime}.
Variable a : batch_args.

Lemma batch_inv_init (c : gmap string CacheEntry) :
  NoDup (List.map op_id (operations a)) -> batch_inv a (batch_init a c).
Proof.
  intros Hnd. split; cbn.
  - exact Hnd.
  - intros op _. apply lookup_empty.
  - intros h op [Hp|[ok Hs]]; rewrite lookup_empty in *; discriminate.
  - intros i h Hi. rewrite lookup_empty in Hi. discriminate.
  - intros h _. apply lookup_empty.
  - intros h [[x Hx]|[x Hx]]; rewrite lookup_empty in Hx; discriminate.
  - rewrite map_size_empty. lia.
Qed.

Lemma batch_inv_set_main (m : main_state) (st : batch_state) :
  batch_inv a st -> batch_inv a (set_main m st).
Proof. intros [? ? ? ? ? ? ?]. split; cbn; assumption. Qed.

Lemma batch_inv_after_inner (st : batch_state) :
  batch_inv a st -> batch_inv a (after_inner a st).
Proof.
  intros Hst. unfold after_inner.
  destruct (0 <? size (inProgress st))%nat; [now apply batch_inv_set_main|].
  destruct (queue st); [now apply batch_inv_set_main | assumption].
Qed.

Lemma batch_inv_start_next (now : Z) (op : BatchOp) (rest : list BatchOp)
    (st : batch_state) :
  queue st = op :: rest ->
  Z.of_nat (size (inProgress st)) < the_concurrency a ->
  batch_inv a st -> batch_inv a (start_next a now op rest st).
Proof.
  intros Hq Hc [Hnd Hfresh Htasks Hback Hdisj Hhandles Hsize].
  rewrite Hq in Hnd, Hfresh. cbn in Hnd. apply NoDup_cons in Hnd as [Hop Hnd].
  assert (Hnew : inProgress st !! op_id op = None) by (apply Hfresh; now left).
  unfold start_next. destruct (cache_hit a now op (store st)) as [cached|].
  - split; cbn; auto.
    intros op' Hin. apply Hfresh. now right.
  - split; cbn; auto.
    + intros op' Hin. rewrite lookup_insert_ne; [apply Hfresh; now right|].
      intros Heq. apply Hop. rewrite Heq. apply list_elem_of_In, in_map, Hin.
    + intros h op' Ht.
      destruct (decide (h = next_promise st)) as [->|Hne].
      * destruct Ht as [Hp|[ok Hs]].
        -- rewrite lookup_insert_eq in Hp. injection Hp as <-. apply lookup_insert_eq.
        -- exfalso. specialize (Hhandles (next_promise st) (or_intror (mk_is_Some _ _ Hs))). lia.
      * rewrite lookup_insert_ne in Ht by done.
        specialize (Htasks h op' Ht).
        rewrite lookup_insert_ne; [done|]. intros Heq. rewrite Heq in Hnew. congruence.
    + intros i h Hi. rewrite lookup_insert in Hi. case_decide as Hid.
      * injection Hi as <-. exists op. split; [done|]. left. apply lookup_insert_eq.
      * destruct (Hback i h Hi) as (op' & Hop' & Ht). exists op'. split; [done|].
        destruct Ht as [Hp|Hs]; [left|now right].
        rewrite lookup_insert_ne; [done|]. intros <-.
        specialize (Hhandles (next_promise st) (or_introl (mk_is_Some _ _ Hp))). lia.
    + intros h Hs. rewrite lookup_insert_ne; [now apply Hdisj|]. intros <-.
      specialize (Hhandles (next_promise st) (or_intror Hs)). lia.
    + intros h [Hp|Hs].
      * rewrite lookup_insert in Hp. case_decide; [lia|].
        specialize (Hhandles h (or_introl Hp)). lia.
      * specialize (Hhandles h (or_intror Hs)). lia.
    + rewrite map_size_insert_None by done. lia.
Qed.

Lemma batch_inv_main_step (now : Z) (st : batch_state) :
  batch_inv a st -> batch_inv a (main_step a now st).
Proof.
  intros Hst. unfold main_step. destruct (main st); try assumption.
  destruct (queue st) as [|op rest] eqn:Hq; [now apply batch_inv_after_inner|].
  destruct (Z.ltb_spec (Z.of_nat (size (inProgress st))) (the_concurrency a)).
  - now apply batch_inv_start_next.
  - now apply batch_inv_after_inner.
Qed.

(** Moving a promise from [pending] to [settled] keeps the invariant,
    whatever happens to the other fields that it does not read. *)
Lemma batch_inv_settle (h : nat) (op : BatchOp) (ok : bool) (st st' : batch_state) :
  pending st !! h = Some op ->
  (queue st' = queue st \/ queue st' = []) ->
  inProgress st' = inProgress st ->
  pending st' = delete h (pending st) ->
  settled st' = <[h := (op, ok)]> (settled st) ->
  next_promise st' = next_promise st ->
  batch_inv a st -> batch_inv a st'.
Proof.
  intros Hh Hq Hi Hp Hs Hn [Hnd Hfresh Htasks Hback Hdisj Hhandles Hsize].
  split; rewrite ?Hi, ?Hp, ?Hs, ?Hn.
  - destruct Hq as [->| ->]; [done | constructor].
  - destruct Hq as [->| ->]; [done | intros ? []].
  - intros h' op' [Hp'|[ok' Hs']].
    + apply lookup_delete_Some in Hp' as [_ Hp']. apply Htasks. now left.
    + rewrite lookup_insert in Hs'. case_decide as Hhh.
      * injection Hs' as <- <-. subst h'. apply Htasks. now left.
      * apply Htasks. right. now exists ok'.
  - intros i h' Hi'. destruct (Hback i h' Hi') as (op' & Hop' & Ht).
    exists op'. split; [done|].
    destruct (decide (h' = h)) as [->|Hne].
    + right. exists ok. rewrite lookup_insert_eq.
      destruct Ht as [Hp'|[ok' Hs']].
      * congruence.
      * rewrite (Hdisj h (mk_is_Some _ _ Hs')) in Hh. discriminate.
    + destruct Ht as [Hp'|[ok' Hs']].
      * left. now rewrite lookup_delete_ne.
      * right. exists ok'. now rewrite lookup_insert_ne.
  - intros h' Hs'. destruct (decide (h' = h)) as [->|Hne].
    + apply lookup_delete_eq.
    + rewrite lookup_insert_ne in Hs' by done. rewrite lookup_delete_ne by done.
      now apply Hdisj.
  - intros h' [Hp'|Hs'].
    + apply Hhandles. left. destruct Hp' as [x Hx].
      apply lookup_delete_Some in Hx as [_ Hx]. now exists x.
    + destruct (decide (h' = h)) as [->|Hne].
      * apply Hhandles. left. now exists op.
      * rewrite lookup_insert_ne in Hs' by done. apply Hhandles. now right.
  - exact Hsize.
Qed.

Lemma batch_inv_on_fulfilled (h : nat) (op : BatchOp) (now : Z) (st : batch_state) :
  pending st !! h = Some op ->
  batch_inv a st -> batch_inv a (on_fulfilled a h op now st).
Proof.
  intros Hh. apply (batch_inv_settle h op true); cbn; auto.
Qed.

Lemma batch_inv_on_rejected (h : nat) (op : BatchOp) (st : batch_state) :
  pending st !! h = Some op ->
  batch_inv a st -> batch_inv a (on_rejected a h op st).
Proof.
  intros Hh. apply (batch_inv_settle h op false); cbn; auto.
  destruct (the_continue_on_error a); auto.
Qed.

Lemma batch_inv_on_finally (h : nat) (op : BatchOp) (ok : bool) (st : batch_state) :
  settled st !! h = Some (op, ok) ->
  batch_inv a st -> batch_inv a (on_finally h op ok st).
Proof.
  intros Hh [Hnd Hfresh Htasks Hback Hdisj Hhandles Hsize].
  assert (Hkey : inProgress st !! op_id op = Some h).
  { apply Htasks. right. now exists ok. }
  assert (Hother : forall h' op',
             h' <> h ->
             pending st !! h' = Some op' \/ (exists ok', settled st !! h' = Some (op', ok')) ->
             op_id op' <> op_id op).
  { intros h' op' Hne Ht Heq. specialize (Htasks h' op' Ht). congruence. }
  split; cbn.
  - exact Hnd.
  - intros op' Hin. apply lookup_delete_None. right. now apply Hfresh.
  - intros h' op' Ht.
    assert (Hne : h' <> h).
    { destruct Ht as [Hp|[ok' Hs]].
      - intros ->. rewrite (Hdisj h (mk_is_Some _ _ Hh)) in Hp. discriminate.
      - intros ->. rewrite lookup_delete_eq in Hs. discriminate. }
    assert (Ht' : pending st !! h' = Some op' \/
                  (exists ok', settled st !! h' = Some (op', ok'))).
    { destruct Ht as [Hp|[ok' Hs]]; [now left|right].
      exists ok'. now rewrite lookup_delete_ne in Hs. }
    rewrite lookup_delete_ne; [now apply Htasks|].
    intros Heq. now apply (Hother h' op' Hne Ht').
  - intros i h' Hi. apply lookup_delete_Some in Hi as [Hne Hi].
    destruct (Hback i h' Hi) as (op' & Hop' & Ht). exists op'. split; [done|].
    destruct Ht as [Hp|[ok' Hs]]; [now left|right]. exists ok'.
    rewrite lookup_delete_ne; [done|]. intros <-. congruence.
  - intros h' [x Hx]. apply lookup_delete_Some in Hx as [_ Hx]. apply Hdisj. now exists x.
  - intros h' [Hp|[x Hx]].
    + apply Hhandles. now left.
    + apply lookup_delete_Some in Hx as [_ Hx]. apply Hhandles. right. now exists x.
  - pose proof (map_size_delete (op_id op) (inProgress st)) as Hd.
    rewrite Hkey in Hd. lia.
Qed.

Lemma batch_inv_on_late_work (h : nat) (op : BatchOp) (now : Z) (st : batch_state) :
  batch_inv a st -> batch_inv a (on_late_work a h op now st).
Proof. intros [? ? ? ? ? ? ?]. split; cbn; assumption. Qed.

Lemma batch_inv_set_store (c : gmap string CacheEntry) (st : batch_state) :
  batch_inv a st -> batch_inv a (set_store c st).
Proof. intros [? ? ? ? ? ? ?]. split; cbn; assumption. Qed.

Lemma batch_inv_step (st st' : batch_state) :
  step a st st' -> batch_inv a st -> batch_inv a st'.
Proof.
  intros [now s _|h op now s _ Hp|h op s _ Hp|h op ok s _ Hs|h op now s _ _|c s _].
  - apply batch_inv_main_step.
  - now apply batch_inv_on_fulfilled.
  - now apply batch_inv_on_rejected.
  - now apply batch_inv_on_finally.
  - apply batch_inv_on_late_work.
  - apply batch_inv_set_store.
Qed.

Lemma reachable_batch_inv (c : gmap string CacheEntry) (st : batch_state) :
  NoDup (List.map op_id (operations a)) ->
  reachable a c st -> batch_inv a st.
Proof.
  intros Hnd Hr.
  apply (@rtc_ind_r _ (step a) (fun s => batch_inv a s) (batch_init a c)); [| |exact Hr].
  - now apply batch_inv_init.
  - intros y z _ Hstep Hy. now apply (batch_inv_step y z).
Qed.

(** Distinct promises are stored under distinct ids, so no more promises are
    unsettled than [inProgress] holds. *)
Lemma tasks_fit (p : gmap nat BatchOp) (m : gmap string nat) :
  (forall h op, p !! h = Some op -> m !! op_id op = Some h) ->
  (size p <= size m)%nat.
Proof.
  revert m. induction p as [|h op p Hh IH] using map_ind; intros m Hm.
  - rewrite map_size_empty. lia.
  - rewrite map_size_insert_None by done.
    assert (Hk : m !! op_id op = Some h) by apply Hm, lookup_insert_eq.
    specialize (IH (delete (op_id op) m)).
    rewrite map_size_delete_Some in IH by eauto.
    assert (size m <> 0)%nat by (apply (map_size_ne_0_lookup_2 _ (op_id op)); eauto).
    enough (size p <= pred (size m))%nat by lia. apply IH.
    intros h' op' Hp. assert (h' <> h) by congruence.
    assert (Hk' : m !! op_id op' = Some h') by (apply Hm; rewrite lookup_insert_ne; done).
    rewrite lookup_delete_ne; [done|]. congruence.
Qed.

Lemma batch_inv_in_flight (st : batch_state) :
  batch_inv a st -> (in_flight st <= size (inProgress st))%nat.
Proof.
  intros Hst. apply tasks_fit. intros h op Hp. apply (inv_tasks a st Hst). now left.
Qed.

Lemma after_inner_pending (st : batch_state) :
  pending (after_inner a st) = pending st.
Proof.
  unfold after_inner. destruct (0 <? size (inProgress st))%nat; [reflexivity|].
  now destruct (queue st).
Qed.

(** C8, as the code has it.  In a call whose operations have distinct ids
    and whose [concurrency] is a whole number, not negative, every state that
    the call passes through has at most [concurrency] operations in flight
    and at most [concurrency] promises in [inProgress], and a step of the
    loop puts one more operation in flight only from a state where
    [inProgress] holds fewer than [concurrency] promises. *)
Theorem batch_in_flight_bounded (c : gmap string CacheEntry) (st : batch_state) :
  NoDup (List.map op_id (operations a)) ->
  0 <= the_concurrency a ->
  reachable a c st ->
  Z.of_nat (in_flight st) <= the_concurrency a /\
  Z.of_nat (size (inProgress st)) <= the_concurrency a /\
  (forall now,
      (in_flight st < in_flight (main_step a now st))%nat ->
      Z.of_nat (size (inProgress st)) < the_concurrency a).
Proof.
  intros Hnd Hc Hr.
  pose proof (reachable_batch_inv c st Hnd Hr) as Hst.
  pose proof (batch_inv_in_flight st Hst) as Hfit.
  pose proof (inv_size a st Hst) as Hsize.
  split; [lia|]. split; [lia|].
  intros now. unfold in_flight, main_step.
  destruct (main st); try lia.
  destruct (queue st) as [|op rest]; [rewrite after_inner_pending; lia|].
  destruct (Z.ltb_spec (Z.of_nat (size (inProgress st))) (the_concurrency a)); [done|].
  rewrite after_inner_pending. lia.
Qed.

(** *** What the handler returns *)

Lemma raced_on_promises (m : gmap string nat) (i : string) (h : nat) :
  m !! i = Some h -> raced_on h (promises m) = true.
Proof.
  intros Hm. apply existsb_exists. exists h. split; [|apply Nat.eqb_refl].
  apply (in_map snd _ (i, h)), list_elem_of_In, elem_of_map_to_list, Hm.
Qed.

Lemma wake_fulfilled (h : nat) (e : string) (m : main_state) :
  wake h true e m = m \/ (wake h true e m = Running /\ exists raced, m = Awaiting raced).
Proof.
  destruct m as [|raced| |]; cbn; auto.
  destruct (raced_on h raced); eauto.
Qed.

Lemma wake_awaiting (h : nat) (ok : bool) (e : string) (m : main_state) (raced : list nat) :
  wake h ok e m = Awaiting raced -> m = Awaiting raced.
Proof.
  destruct m as [|raced'| |]; cbn; auto.
  destruct (raced_on h raced'); [|done]. now destruct ok.
Qed.

Lemma wake_returned (h : nat) (ok : bool) (e : string) (m : main_state) (p : batch_payload) :
  wake h ok e m = Returned p -> m = Returned p.
Proof.
  destruct m as [|raced'| |]; cbn; auto.
  destruct (raced_on h raced'); [|done]. now destruct ok.
Qed.

Lemma wake_not_thrown (h : nat) (ok : bool) (e : string) (m : main_state) :
  is_thrown (wake h ok e m) = false -> is_thrown m = false.
Proof. now destruct m. Qed.

Lemma call_inv_init (c : gmap string CacheEntry) : call_inv a (batch_init a c).
Proof.
  split; cbn; [done | auto | done].
Qed.

Lemma call_inv_after_inner (st : batch_state) :
  main st = Running ->
  batch_inv a st -> call_inv a st -> call_inv a (after_inner a st).
Proof.
  intros Hrun Hb Hc. pose proof Hc as [Haw Hcov Hret].
  rewrite Hrun in Hcov. specialize (Hcov eq_refl).
  unfold after_inner.
  destruct (Nat.ltb_spec 0 (size (inProgress st))) as [Hpos|Hzero].
  - split; cbn; [|auto|done].
    intros raced h [= <-] Hh.
    assert (exists op, inProgress st !! op_id op = Some h) as [op Hop].
    { destruct Hh as [[op Hp]|[[op ok] Hs]]; exists op; apply (inv_tasks a st Hb); eauto. }
    now apply (raced_on_promises _ (op_id op)).
  - destruct (queue st) as [|op rest] eqn:Hq; [|exact Hc].
    assert (Hempty : inProgress st = ∅) by (apply map_size_empty_inv; lia).
    split; cbn; [done|intros _ op Hop; rewrite Hq; auto|].
    intros p [= <-]. split; [done|]. split; [done|].
    intros op Hop. destruct (Hcov op Hop) as [[]|[[h Hp]|Hres]]; [|done].
    pose proof (inv_tasks a st Hb h op (or_introl Hp)) as Hk.
    rewrite Hempty, lookup_empty in Hk. discriminate.
Qed.

Lemma call_inv_start_next (now : Z) (op : BatchOp) (rest : list BatchOp)
    (st : batch_state) :
  main st = Running -> queue st = op :: rest ->
  batch_inv a st -> call_inv a st -> call_inv a (start_next a now op rest st).
Proof.
  intros Hrun Hq Hb [Haw Hcov Hret]. rewrite Hrun in Hcov. specialize (Hcov eq_refl).
  rewrite Hq in Hcov.
  unfold start_next. destruct (cache_hit a now op (store st)) as [cached|].
  - split; cbn; [done| |done].
    intros _ op' Hop'. rewrite map_app, in_app_iff. cbn.
    destruct (Hcov op' Hop') as [[<-|Hin]|[Hp|Hres]]; auto.
  - split; cbn; [done| |done].
    intros _ op' Hop'.
    destruct (Hcov op' Hop') as [[<-|Hin]|[[h Hp]|Hres]]; auto.
    + right. left. exists (next_promise st). apply lookup_insert_eq.
    + right. left. exists h. rewrite lookup_insert_ne; [done|]. intros <-.
      pose proof (inv_handles a st Hb (next_promise st) (or_introl (mk_is_Some _ _ Hp))). lia.
Qed.

Lemma call_inv_main_step (now : Z) (st : batch_state) :
  batch_inv a st -> call_inv a st -> call_inv a (main_step a now st).
Proof.
  intros Hb Hc. unfold main_step. destruct (main st) eqn:Hm; try assumption.
  destruct (queue st) as [|op rest] eqn:Hq; [now apply call_inv_after_inner|].
  destruct (Z.of_nat (size (inProgress st)) <? the_concurrency a).
  - now apply call_inv_start_next.
  - now apply call_inv_after_inner.
Qed.

Lemma call_inv_on_fulfilled (h : nat) (op : BatchOp) (now : Z) (st : batch_state) :
  pending st !! h = Some op ->
  batch_inv a st -> call_inv a st -> call_inv a (on_fulfilled a h op now st).
Proof.
  intros Hh Hb [Haw Hcov Hret]. split; cbn.
  - intros raced h' Hm Hh'. apply wake_awaiting in Hm. apply (Haw raced h' Hm).
    destruct Hh' as [[x Hx]|[x Hx]].
    + apply lookup_delete_Some in Hx as [_ Hx]. eauto.
    + rewrite lookup_insert in Hx. case_decide; subst; eauto.
  - intros Hm op' Hop'. apply wake_not_thrown in Hm.
    rewrite map_app, in_app_iff. cbn.
    destruct (Hcov Hm op' Hop') as [Hin|[[h' Hp]|Hres]]; auto.
    destruct (decide (h' = h)) as [->|Hne].
    + assert (op' = op) as -> by congruence. auto.
    + right. left. exists h'. now rewrite lookup_delete_ne.
  - intros p Hm. apply wake_returned in Hm. destruct (Hret p Hm) as (Hempty & _).
    pose proof (inv_tasks a st Hb h op (or_introl Hh)) as Hk.
    rewrite Hempty, lookup_empty in Hk. discriminate.
Qed.

(** A timeout always reaches the handler: its [await] throws. *)
Lemma on_rejected_thrown (h : nat) (op : BatchOp) (st : batch_state) :
  main st <> Running -> pending st !! h = Some op ->
  batch_inv a st -> call_inv a st ->
  is_thrown (main (on_rejected a h op st)) = true.
Proof.
  intros Hrun Hh Hb [Haw _ Hret]. cbn.
  destruct (main st) as [|raced|p|code msg] eqn:Hm; cbn; [done| | |done].
  - rewrite (Haw raced h eq_refl) by eauto. reflexivity.
  - destruct (Hret p eq_refl) as (Hempty & _).
    pose proof (inv_tasks a st Hb h op (or_introl Hh)) as Hk.
    rewrite Hempty, lookup_empty in Hk. discriminate.
Qed.

Lemma call_inv_thrown (st : batch_state) :
  is_thrown (main st) = true -> call_inv a st.
Proof.
  intros Hm. destruct (main st) eqn:E; try discriminate.
  split; rewrite E; cbn; done.
Qed.

Lemma call_inv_on_finally (h : nat) (op : BatchOp) (ok : bool) (st : batch_state) :
  call_inv a st -> call_inv a (on_finally h op ok st).
Proof.
  intros [Haw Hcov Hret]. split; cbn.
  - intros raced h' Hm Hh'. apply wake_awaiting in Hm. apply (Haw raced h' Hm).
    destruct Hh' as [Hp|[x Hx]]; [now left|].
    apply lookup_delete_Some in Hx as [_ Hx]. eauto.
  - intros Hm. apply wake_not_thrown in Hm. auto.
  - intros p Hm. apply wake_returned in Hm. destruct (Hret p Hm) as (Hempty & Hp & Hall).
    rewrite Hempty. split; [apply delete_empty | auto].
Qed.

Lemma call_inv_on_late_work (h : nat) (op : BatchOp) (now : Z) (st : batch_state) :
  call_inv a st -> call_inv a (on_late_work a h op now st).
Proof. intros [? ? ?]. split; cbn; assumption. Qed.

Lemma call_inv_set_store (c : gmap string CacheEntry) (st : batch_state) :
  call_inv a st -> call_inv a (set_store c st).
Proof. intros [? ? ?]. split; cbn; assumption. Qed.

Lemma invariants_step (st st' : batch_state) :
  step a st st' -> batch_inv a st /\ call_inv a st -> batch_inv a st' /\ call_inv a st'.
Proof.
  intros Hstep [Hb Hc]. split; [now apply (batch_inv_step st st')|].
  destruct Hstep
    as [now s _|h op now s _ Hp|h op s Hrun Hp|h op ok s _ Hs|h op now s _ _|c s _].
  - now apply call_inv_main_step.
  - now apply call_inv_on_fulfilled.
  - now apply call_inv_thrown, on_rejected_thrown.
  - now apply call_inv_on_finally.
  - now apply call_inv_on_late_work.
  - now apply call_inv_set_store.
Qed.

Lemma reachable_invariants (c : gmap string CacheEntry) (st : batch_state) :
  NoDup (List.map op_id (operations a)) ->
  reachable a c st -> batch_inv a st /\ call_inv a st.
Proof.
  intros Hnd Hr.
  apply (@rtc_ind_r _ (step a) (fun s => batch_inv a s /\ call_inv a s) (batch_init a c));
    [| |exact Hr].
  - split; [now apply batch_inv_init | apply call_inv_init].
  - intros y z _ Hstep Hy. now apply (invariants_step y z).
Qed.

(** *** The runs of the event loop are runs of the step relation *)

Lemma main_step_rtc (now : Z) (st : batch_state) :
  rtc (step a) st (main_step a now st).
Proof.
  destruct (main st) eqn:Hm.
  - apply rtc_once. now constructor.
  - unfold main_step. rewrite Hm. apply rtc_refl.
  - unfold main_step. rewrite Hm. apply rtc_refl.
  - unfold main_step. rewrite Hm. apply rtc_refl.
Qed.

Lemma iter_main_step_rtc (n : nat) (now : Z) (st : batch_state) :
  rtc (step a) st (Nat.iter n (main_step a now) st).
Proof.
  induction n as [|n IH]; cbn; [apply rtc_refl|].
  eapply rtc_trans; [exact IH | apply main_step_rtc].
Qed.

Lemma run_main_rtc (now : Z) (st : batch_state) :
  rtc (step a) st (run_main a now st).
Proof. apply iter_main_step_rtc. Qed.

Lemma main_step_settled (now : Z) (st : batch_state) :
  settled (main_step a now st) = settled st.
Proof.
  unfold main_step, start_next, after_inner.
  repeat match goal with
         | |- context [match ?x with _ => _ end] => destruct x
         end; reflexivity.
Qed.

Lemma run_main_settled (now : Z) (st : batch_state) :
  settled (run_main a now st) = settled st.
Proof.
  unfold run_main. generalize (S (length (queue st))) as n.
  induction n as [|n IH]; cbn; [reflexivity|].
  now rewrite main_step_settled.
Qed.

Lemma is_running_false (m : main_state) : is_running m = false -> m <> Running.
Proof. now destruct m. Qed.

Lemma wake_rejected_not_running (h : nat) (e : string) (m : main_state) :
  m <> Running -> wake h false e m <> Running.
Proof.
  destruct m as [|raced| |]; cbn; try done. now destruct (raced_on h raced).
Qed.

Lemma fire_rtc (ev : event) (st : batch_state) :
  rtc (step a) st (fire a ev st).
Proof.
  unfold fire, when_idle.
  destruct (is_running (main st)) eqn:Hrun; [apply rtc_refl|].
  apply is_running_false in Hrun.
  destruct ev as [h now|h now|c].
  - destruct (pending st !! h) as [op|] eqn:Hp.
    + eapply rtc_l; [now apply (step_fulfilled a h op now)|].
      eapply rtc_trans; [apply run_main_rtc|].
      destruct (is_running (main (run_main a now (on_fulfilled a h op now st)))) eqn:Hrun1;
        [apply rtc_refl|].
      apply is_running_false in Hrun1.
      eapply rtc_l; [|apply run_main_rtc].
      apply step_finally; [done|].
      rewrite run_main_settled. cbn. apply lookup_insert_eq.
    + destruct (orphaned st !! h) as [op|] eqn:Ho; [|apply rtc_refl].
      apply rtc_once. now constructor.
  - destruct (pending st !! h) as [op|] eqn:Hp; [|apply rtc_refl].
    eapply rtc_l; [now apply (step_rejected a h op)|].
    apply rtc_once. apply step_finally.
    + cbn. now apply wake_rejected_not_running.
    + cbn. apply lookup_insert_eq.
  - apply rtc_once. now constructor.
Qed.

Lemma batch_run_reachable (now : Z) (c : gmap string CacheEntry) (evs : list event) :
  reachable a c (batch_run a now c evs).
Proof.
  unfold batch_run, reachable.
  assert (Hstart : rtc (step a) (batch_init a c) (batch_start a now c))
    by apply run_main_rtc.
  revert Hstart. generalize (batch_start a now c) as st.
  induction evs as [|ev evs IH]; intros st Hst; cbn; [exact Hst|].
  apply IH. eapply rtc_trans; [exact Hst | apply fire_rtc].
Qed.

(** *** The order of the results *)

Lemma sortedResults_ids (rs : list BatchResult) :
  (forall op, In op (operations a) -> In (op_id op) (List.map result_id rs)) ->
  List.map (fmap result_id) (sortedResults a rs) =
  List.map (fun op => Some (op_id op)) (operations a).
Proof.
  intros Hall. unfold sortedResults. rewrite map_map.
  apply map_ext_in. intros op Hop.
  destruct (List.find _ rs) as [r|] eqn:Hfind; cbn.
  - apply find_some in Hfind as [_ Heq]. apply String.eqb_eq in Heq. now rewrite Heq.
  - apply Hall, in_map_iff in Hop as (r & Hr & Hin).
    apply (find_none _ _ Hfind) in Hin. rewrite Hr, String.eqb_refl in Hin. discriminate.
Qed.

(** *** The call returns when the last operation completes *)

Lemma main_step_idle (now : Z) (st : batch_state) :
  main st <> Running -> main_step a now st = st.
Proof. unfold main_step. now destruct (main st). Qed.

Lemma iter_main_step_idle (n : nat) (now : Z) (st : batch_state) :
  main st <> Running -> Nat.iter n (main_step a now) st = st.
Proof.
  intros Hm. induction n as [|n IH]; [reflexivity|].
  rewrite Nat.iter_succ, IH. now apply main_step_idle.
Qed.

Lemma suspended_not_running (st : batch_state) :
  suspended_or_returned st -> main st <> Running.
Proof. intros [[p Hp]|(raced & Hr & _)]; congruence. Qed.

(** With a positive [concurrency] the loop does not spin: the handler always
    reaches its [await] or its [return]. *)
Lemma iter_main_step_outcome (n : nat) (now : Z) (st : batch_state) :
  1 <= the_concurrency a ->
  (length (queue st) < n)%nat ->
  main st = Running ->
  suspended_or_returned (Nat.iter n (main_step a now) st).
Proof.
  intros Hc. revert st. induction n as [|n IH]; intros st Hlen Hrun; [lia|].
  rewrite Nat.iter_succ_r.
  assert (Hafter : suspended_or_returned (after_inner a st) ->
                   suspended_or_returned (Nat.iter n (main_step a now) (after_inner a st))).
  { intros Hs. rewrite iter_main_step_idle; [done | now apply suspended_not_running]. }
  assert (Hnonempty : (0 < size (inProgress st))%nat ->
                      suspended_or_returned (after_inner a st)).
  { intros Hpos. unfold after_inner.
    destruct (Nat.ltb_spec 0 (size (inProgress st))); [|lia].
    right. eexists. split; [reflexivity|]. cbn.
    apply map_size_non_empty_iff. lia. }
  unfold main_step at 2. rewrite Hrun.
  destruct (queue st) as [|op rest] eqn:Hq.
  - apply Hafter.
    destruct (Nat.ltb_spec 0 (size (inProgress st))) as [Hpos|Hzero]; [auto|].
    unfold after_inner. destruct (Nat.ltb_spec 0 (size (inProgress st))); [lia|].
    rewrite Hq. left. eexists. reflexivity.
  - destruct (Z.ltb_spec (Z.of_nat (size (inProgress st))) (the_concurrency a)) as [Hlt|Hge].
    + apply IH.
      * unfold start_next. cbn in Hlen.
        destruct (cache_hit a now op (store st)); cbn; lia.
      * unfold start_next. now destruct (cache_hit a now op (store st)).
    + apply Hafter, Hnonempty. lia.
Qed.

Lemma run_main_outcome (now : Z) (st : batch_state) :
  1 <= the_concurrency a ->
  main st = Running ->
  suspended_or_returned (run_main a now st).
Proof. intros Hc Hrun. apply iter_main_step_outcome; auto. Qed.

Lemma returned_nothing_in_progress (st : batch_state) (h : nat) (op : BatchOp) :
  batch_inv a st -> call_inv a st ->
  pending st !! h = Some op \/ (exists ok, settled st !! h = Some (op, ok)) ->
  forall p, main st <> Returned p.
Proof.
  intros Hb Hc Ht p Hp.
  destruct (inv_returned a st Hc p Hp) as (Hempty & _).
  pose proof (inv_tasks a st Hb h op Ht) as Hk.
  rewrite Hempty, lookup_empty in Hk. discriminate.
Qed.

Lemma fire_quiet (c : gmap string CacheEntry) (ev : event) (st : batch_state) :
  NoDup (List.map op_id (operations a)) ->
  1 <= the_concurrency a ->
  no_timeout ev = true ->
  reachable a c st -> quiet st -> quiet (fire a ev st).
Proof.
  intros Hnd Hc Hev Hr [Hset Hsus].
  destruct (reachable_invariants c st Hnd Hr) as [Hb Hi].
  pose proof (suspended_not_running st Hsus) as Hrun.
  unfold fire, when_idle.
  destruct (is_running (main st)) eqn:E; [now destruct (main st)|]. clear E.
  destruct ev as [h now|h now|c']; [|discriminate|now split].
  destruct (pending st !! h) as [op|] eqn:Hp.
  - (* the race of [h] is fulfilled and wakes the handler *)
    assert (Hwake : main (on_fulfilled a h op now st) = Running).
    { destruct Hsus as [[p Hm]|(raced & Hm & _)].
      - now destruct (returned_nothing_in_progress st h op Hb Hi (or_introl Hp) p).
      - cbn. rewrite Hm. cbn. rewrite (inv_await a st Hi raced h Hm) by eauto. reflexivity. }
    set (st1 := run_main a now (on_fulfilled a h op now st)).
    assert (Hr1 : reachable a c st1).
    { eapply rtc_trans; [exact Hr|].
      eapply rtc_l; [now apply (step_fulfilled a h op now)|apply run_main_rtc]. }
    destruct (reachable_invariants c st1 Hnd Hr1) as [Hb1 Hi1].
    assert (Hs1 : settled st1 !! h = Some (op, true)).
    { subst st1. rewrite run_main_settled. cbn. apply lookup_insert_eq. }
    pose proof (run_main_outcome now _ Hc Hwake) as Hsus1. fold st1 in Hsus1.
    destruct Hsus1 as [[p Hm1]|(raced1 & Hm1 & _)].
    { now destruct (returned_nothing_in_progress st1 h op Hb1 Hi1
                      (or_intror (ex_intro _ true Hs1)) p). }
    rewrite Hm1. cbn [is_running].
    assert (Hwake2 : main (on_finally h op true st1) = Running).
    { change (main (on_finally h op true st1))
        with (wake h true (timeout_message op) (main st1)).
      rewrite Hm1. cbn [wake].
      rewrite (inv_await a st1 Hi1 raced1 h Hm1) by eauto. reflexivity. }
    split.
    + rewrite run_main_settled. cbn [settled on_finally]. subst st1.
      rewrite run_main_settled. cbn [settled on_fulfilled].
      rewrite Hset. now rewrite delete_insert_eq, delete_empty.
    + now apply run_main_outcome.
  - destruct (orphaned st !! h) as [op|]; [|now split].
    split; [exact Hset|]. exact Hsus.
Qed.

Lemma batch_start_quiet (now : Z) (c : gmap string CacheEntry) :
  1 <= the_concurrency a -> quiet (batch_start a now c).
Proof.
  intros Hc. split.
  - unfold batch_start. now rewrite run_main_settled.
  - now apply run_main_outcome.
Qed.

Lemma batch_run_quiet (now : Z) (c : gmap string CacheEntry) (evs : list event) :
  NoDup (List.map op_id (operations a)) ->
  1 <= the_concurrency a ->
  forallb no_timeout evs = true ->
  quiet (batch_run a now c evs).
Proof.
  intros Hnd Hc. unfold batch_run.
  pose proof (batch_start_quiet now c Hc) as Hq.
  assert (Hr : reachable a c (batch_start a now c)) by apply run_main_rtc.
  revert Hq Hr. generalize (batch_start a now c) as st.
  induction evs as [|ev evs IH]; intros st Hq Hr Hall; cbn in *; [exact Hq|].
  apply andb_prop in Hall as [Hev Hall].
  apply IH; [now apply (fire_quiet c) | | exact Hall].
  eapply rtc_trans; [exact Hr | apply fire_rtc].
Qed.

(** *** A loop that does not suspend *)

Lemma main_step_progress (now : Z) (st : batch_state) :
  main st = Running ->
  main (main_step a now st) = Running ->
  (length (queue (main_step a now st)) < length (queue st))%nat \/
  (forall now', main_step a now' st = st).
Proof.
  intros Hrun. unfold main_step. rewrite Hrun.
  assert (Hafter : main (after_inner a st) = Running -> after_inner a st = st).
  { unfold after_inner. destruct (0 <? size (inProgress st))%nat; [done|].
    now destruct (queue st). }
  destruct (queue st) as [|op rest] eqn:Hq.
  - intros Hm. right. intros _. now apply Hafter.
  - destruct (Z.of_nat (size (inProgress st)) <? the_concurrency a).
    + intros _. left. unfold start_next.
      destruct (cache_hit a now op (store st)); cbn; lia.
    + intros Hm. right. intros _. now apply Hafter.
Qed.

Lemma iter_main_step_spins (n : nat) (now : Z) (st : batch_state) :
  (length (queue st) < n)%nat ->
  main (Nat.iter n (main_step a now) st) = Running ->
  forall now', main_step a now' (Nat.iter n (main_step a now) st) =
               Nat.iter n (main_step a now) st.
Proof.
  revert st. induction n as [|n IH]; intros st Hlen Hm; [lia|].
  destruct (is_running (main st)) eqn:Hrun.
  - assert (Hst : main st = Running) by now destruct (main st).
    rewrite Nat.iter_succ_r in *.
    destruct (is_running (main (main_step a now st))) eqn:Hrun'.
    + assert (Hst' : main (main_step a now st) = Running)
        by now destruct (main (main_step a now st)).
      destruct (main_step_progress now st Hst Hst') as [Hlt|Hfix].
      * apply IH; [lia | exact Hm].
      * rewrite (Hfix now) in *.
        assert (Hiter : forall k, Nat.iter k (main_step a now) st = st).
        { induction k as [|k IHk]; [reflexivity|]. now rewrite Nat.iter_succ, IHk. }
        rewrite Hiter. exact Hfix.
    + rewrite iter_main_step_idle in Hm by now apply is_running_false.
      rewrite Hm in Hrun'. discriminate.
  - rewrite iter_main_step_idle in Hm by now apply is_running_false.
    rewrite Hm in Hrun. discriminate.
Qed.

(** A handler that is still running when [run_main] stops never leaves its
    loop: every further step, at any time, leaves the state as it is. *)
Lemma run_main_spins (now : Z) (st : batch_state) :
  main (run_main a now st) = Running ->
  forall now', main_step a now' (run_main a now st) = run_main a now st.
Proof. apply iter_main_step_spins. lia. Qed.

(** *** What a failure does to the call *)

(** A timeout of an operation in flight, delivered to a call whose ids are
    distinct, ends the handler with an exception: the rejected promise is one
    of those the handler races on. *)
Lemma timeout_throws (c : gmap string CacheEntry) (st : batch_state)
    (h : nat) (now : Z) (op : BatchOp) :
  NoDup (List.map op_id (operations a)) ->
  reachable a c st ->
  main st <> Running ->
  pending st !! h = Some op ->
  is_thrown (main (fire a (TimedOut h now) st)) = true.
Proof.
  intros Hnd Hr Hrun Hp.
  destruct (reachable_invariants c st Hnd Hr) as [Hb Hi].
  pose proof (on_rejected_thrown h op st Hrun Hp Hb Hi) as Hthrown.
  unfold fire, when_idle. destruct (main st) eqn:Hm; [done| | |]; cbn [is_running];
    rewrite Hp; cbn [main on_finally];
    destruct (main (on_rejected a h op st)) eqn:E; try discriminate; reflexivity.
Qed.

(** *** A call in which an operation times out *)

Lemma step_thrown (st st' : batch_state) (code : ErrorCode) (msg : string) :
  step a st st' -> main st = Thrown code msg -> main st' = Thrown code msg.
Proof.
  intros Hstep Hm.
  destruct Hstep; cbn; rewrite ?Hm; cbn; try reflexivity; congruence.
Qed.

Lemma rtc_thrown (st st' : batch_state) (code : ErrorCode) (msg : string) :
  rtc (step a) st st' -> main st = Thrown code msg -> main st' = Thrown code msg.
Proof.
  induction 1 as [|x y z Hxy _ IH]; [auto|].
  intros Hm. apply IH. now apply (step_thrown x y).
Qed.

Lemma fold_fire_rtc (evs : list event) (st : batch_state) :
  rtc (step a) st (fold_left (fun s ev => fire a ev s) evs st).
Proof.
  revert st. induction evs as [|ev evs IH]; intros st; cbn; [apply rtc_refl|].
  eapply rtc_trans; [apply fire_rtc | apply IH].
Qed.

Lemma fold_fire_running (evs : list event) (st : batch_state) :
  is_running (main st) = true ->
  fold_left (fun s ev => fire a ev s) evs st = st.
Proof.
  intros Hrun. induction evs as [|ev evs IH]; cbn; [reflexivity|].
  unfold fire at 2, when_idle. now rewrite Hrun.
Qed.

(** C1, on the code.  A call whose operations have distinct ids, on any
    cache and under any schedule of completions, timeouts and changes of the
    cache.  Whenever the handler returns, [results] has one entry per
    operation of the input, in the order of the input and with its id; and
    with a positive [concurrency] and no timeout it does return, once the
    operations started have all completed, in whatever order.  But when an
    operation in flight times out the handler returns nothing, then or
    later: the array that the claim describes is not produced. *)
Theorem batch_results_in_input_order
    (now : Z) (c : gmap string CacheEntry) (evs : list event) :
  NoDup (List.map op_id (operations a)) ->
  let st := batch_run a now c evs in
  (forall p, main st = Returned p ->
     length (sorted_results p) = length (operations a) /\
     List.map (fmap result_id) (sorted_results p) =
       List.map (fun op => Some (op_id op)) (operations a)) /\
  (1 <= the_concurrency a ->
   forallb no_timeout evs = true ->
   pending st = ∅ ->
   exists p, main st = Returned p) /\
  (forall h t op later,
     pending st !! h = Some op ->
     forall p, main (batch_run a now c (evs ++ TimedOut h t :: later)) <> Returned p).
Proof.
  intros Hnd st.
  pose proof (batch_run_reachable now c evs) as Hr. fold st in Hr.
  destruct (reachable_invariants c st Hnd Hr) as [Hb Hi].
  split; [|split].
  - intros p Hp. destruct (inv_returned a st Hi p Hp) as (_ & -> & Hall). cbn. split.
    + unfold sortedResults. apply length_map.
    + now apply sortedResults_ids.
  - intros Hc Hall Hpend.
    destruct (batch_run_quiet now c evs Hnd Hc Hall) as [Hset Hsus]. fold st in Hset, Hsus.
    destruct Hsus as [Hret|(raced & _ & Hne)]; [exact Hret|].
    exfalso. apply map_choose in Hne as (i & h & Hih).
    destruct (inv_back a st Hb i h Hih) as (op & _ & [Hp|[ok Hs]]).
    + rewrite Hpend, lookup_empty in Hp. discriminate.
    + rewrite Hset, lookup_empty in Hs. discriminate.
  - intros h t op later Hp p.
    unfold batch_run. rewrite fold_left_app. fold (batch_run a now c evs). fold st.
    cbn [fold_left].
    destruct (is_running (main st)) eqn:Hrun.
    + assert (Hst : fire a (TimedOut h t) st = st)
        by (unfold fire, when_idle; now rewrite Hrun).
      rewrite Hst, fold_fire_running by exact Hrun.
      destruct (main st); done.
    + pose proof (timeout_throws c st h t op Hnd Hr (is_running_false _ Hrun) Hp) as Hth.
      destruct (main (fire a (TimedOut h t) st)) as [| | |code msg] eqn:Hm;
        try discriminate.
      rewrite (rtc_thrown _ _ code msg (fold_fire_rtc later _) Hm). discriminate.
Qed.

(** C7, on the code.  Three operations run one at a time with
    [continue_on_error = false] and a timeout of half a second; the first
    completes after 100 ms, the second is still asleep when its timeout
    fires.  The third is never started and the first result was recorded,
    but the handler ends with an [InternalError] instead of returning the
    results. *)
Theorem batch_failure_loses_results :
  let op i := {| op_id := i; op_type := "fetch"; op_data := JNull |} in
  let args := {| operations := [op "a"; op "b"; op "c"];
                 concurrency := Some 1; timeout_ms := Some 500;
                 continue_on_error := Some false;
                 use_cache := None; cache_ttl_seconds := None |} in
  let before := batch_run args 0 ∅ [WorkDone 0 100] in
  let st := batch_run args 0 ∅ [WorkDone 0 100; TimedOut 1 600] in
  List.map result_id (results before) = ["a"] /\
  queue before = [op "c"] /\
  main st = Thrown InternalError "Tool execution failed: Operation b timed out" /\
  List.map result_id (results st) = ["a"; "b"] /\
  List.map result_success (results st) = [true; false] /\
  queue st = [] /\ in_flight st = 0%nat.
Proof.
  vm_compute. repeat split; reflexivity.
Qed.

(** *** No validation of [concurrency] *)

Lemma main_step_thrown (now : Z) (st : batch_state) :
  is_thrown (main (main_step a now st)) = is_thrown (main st).
Proof.
  unfold main_step. destruct (main st) eqn:Hm; rewrite ?Hm; try reflexivity.
  unfold start_next, after_inner.
  repeat match goal with
         | |- context [match ?x with _ => _ end] => destruct x
         end; cbn; rewrite ?Hm; reflexivity.
Qed.

Lemma batch_start_not_thrown (now : Z) (c : gmap string CacheEntry) :
  is_thrown (main (batch_start a now c)) = false.
Proof.
  unfold batch_start, run_main.
  generalize (S (length (queue (batch_init a c)))) as n.
  induction n as [|n IH]; [reflexivity|].
  now rewrite Nat.iter_succ, main_step_thrown.
Qed.

Lemma after_inner_suspends (st : batch_state) :
  (0 < size (inProgress st))%nat \/ queue st = [] ->
  main (after_inner a st) <> Running.
Proof.
  intros Hc. unfold after_inner.
  destruct (Nat.ltb_spec 0 (size (inProgress st))); [done|].
  destruct Hc as [?| ->]; [lia | done].
Qed.

(** Without cache hits the loop starts operations until [concurrency] are in
    progress or the queue is empty. *)
Lemma iter_main_step_launches (n : nat) (now : Z) (st : batch_state) :
  the_use_cache a = false ->
  1 <= the_concurrency a ->
  batch_inv a st ->
  main st = Running ->
  (length (queue st) < n)%nat ->
  size (pending st) = size (inProgress st) ->
  Z.of_nat (size (pending st)) <= the_concurrency a ->
  Z.of_nat (in_flight (Nat.iter n (main_step a now) st)) =
  Z.min (the_concurrency a) (Z.of_nat (size (pending st) + length (queue st))).
Proof.
  intros Huse Hc. revert st.
  induction n as [|n IH]; intros st Hb Hrun Hlen Hsz Hle; [lia|].
  rewrite Nat.iter_succ_r.
  assert (Hidle : main (after_inner a st) <> Running ->
                  in_flight (Nat.iter n (main_step a now) (after_inner a st)) =
                  size (pending st)).
  { intros Hm. rewrite iter_main_step_idle by done.
    unfold in_flight. now rewrite after_inner_pending. }
  unfold main_step at 2. rewrite Hrun.
  destruct (queue st) as [|op rest] eqn:Hq.
  - rewrite Hidle by (apply after_inner_suspends; auto). cbn. lia.
  - destruct (Z.ltb_spec (Z.of_nat (size (inProgress st))) (the_concurrency a)) as [Hlt|Hge].
    + pose proof (batch_inv_start_next now op rest st Hq Hlt Hb) as Hb'.
      assert (Hfresh : inProgress st !! op_id op = None).
      { apply (inv_queue_fresh a st Hb). rewrite Hq. now left. }
      assert (Hnew : pending st !! next_promise st = None).
      { destruct (pending st !! next_promise st) eqn:E; [|done].
        pose proof (inv_handles a st Hb (next_promise st) (or_introl (mk_is_Some _ _ E))). lia. }
      revert Hb'. unfold start_next, cache_hit. rewrite Huse. intros Hb'.
      rewrite IH; cbn; auto.
      * rewrite map_size_insert_None by done. cbn in Hlen. lia.
      * cbn in Hlen. lia.
      * now rewrite !map_size_insert_None, Hsz by done.
      * rewrite map_size_insert_None by done. lia.
    + rewrite Hidle by (apply after_inner_suspends; lia). cbn. lia.
Qed.

Lemma batch_start_launches (now : Z) (c : gmap string CacheEntry) :
  NoDup (List.map op_id (operations a)) ->
  the_use_cache a = false ->
  1 <= the_concurrency a ->
  Z.of_nat (in_flight (batch_start a now c)) =
  Z.min (the_concurrency a) (Z.of_nat (length (operations a))).
Proof.
  intros Hnd Huse Hc. unfold batch_start, run_main.
  rewrite iter_main_step_launches; cbn; auto.
  - now apply batch_inv_init.
  - rewrite map_size_empty. lia.
Qed.

(** C5, as the code has it.  No handler checks an argument against the
    range its schema announces.  [cache_put] writes its entry under any
    whole number of [ttl_seconds], in range or not: the entry expires at
    [now + ttl_seconds * 1000] and the two other stores are left alone.  It
    then reports success if that time is one that [Date] can render, which
    it is for every [ttl_seconds] within 8.64e15 ms of the clock, and
    otherwise, the entry written, throws an [InternalError]; it never
    throws [InvalidParams].  [batch_operation] with a whole-number
    [concurrency] above 20 is not refused either: its first run throws
    nothing and, with distinct ids and no cache, starts as many operations as
    [concurrency] allows. *)
Theorem arguments_not_validated
    (pa : cache_put_args) (now : Z) (w : world)
    (t : Z) (c : gmap string CacheEntry) :
  let expiry := now + default 300 (ttl_seconds pa) * 1000 in
  let r := cache_put_outcome pa now w in
  (cache (snd r) !! getCacheKey (put_key pa) (default "default" (put_namespace pa)) =
     Some {| value := put_value pa; expiresAt := expiry |} /\
   retryMetadata (snd r) = retryMetadata w /\
   rateLimits (snd r) = rateLimits w /\
   (valid_time expiry = true ->
    exists reply, fst r = Replied reply /\ put_success reply = true /\
                  stored_ttl_seconds reply = default 300 (ttl_seconds pa)) /\
   (valid_time expiry = false -> fst r = Threw InternalError invalid_time_error) /\
   (forall msg, fst r <> Threw InvalidParams msg)) /\
  (20 < the_concurrency a ->
   NoDup (List.map op_id (operations a)) ->
   the_use_cache a = false ->
   is_thrown (main (batch_start a t c)) = false /\
   Z.of_nat (in_flight (batch_start a t c)) =
     Z.min (the_concurrency a) (Z.of_nat (length (operations a)))).
Proof.
  intros expiry r. subst expiry r. split.
  - destruct (cache_put_outcome_cases pa now w) as [-> ->].
    destruct (cache_put_any_ttl pa now w) as (Hok & Hput & Hretry & Hrate).
    split; [exact Hput|]. split; [exact Hretry|]. split; [exact Hrate|].
    destruct (valid_time (now + default 300 (ttl_seconds pa) * 1000)).
    + split; [|split; [discriminate | discriminate]].
      intros _. eexists. split; [reflexivity|]. split; [exact Hok | reflexivity].
    + split; [discriminate|]. split; [reflexivity | discriminate].
  - intros Hc Hnd Huse. split; [apply batch_start_not_thrown|].
    apply batch_start_launches; auto. lia.
Qed.

End BatchFacts.

(** * Further properties *)

(** ** The cache: delete, clear, sweep, overwrite *)

Section CacheMore.
Context `{JsRuntime}.

Lemma with_cache_with_cache (c c' : gmap string CacheEntry) (w : world) :
  with_cache c (with_cache c' w) = with_cache c w.
Proof. reflexivity. Qed.

Lemma with_cache_same (w : world) : with_cache (cache w) w = w.
Proof. now destruct w. Qed.

(** X1.  [cache_delete] reports [existed] exactly when an entry was stored
    under the key, expired or not; afterwards the key is gone, the other
    keys are as before, a read of the key finds nothing (and gives no
    reason), and deleting again reports [existed = false]. *)
Theorem cache_delete_removes (d : cache_delete_args) (w : world) (now now' : Z) :
  let k := getCacheKey (del_key d) (default "default" (del_namespace d)) in
  let w1 := snd (cache_delete d w) in
  let g := {| get_key := del_key d; get_namespace := del_namespace d |} in
  (existed (fst (cache_delete d w)) = true <-> is_Some (cache w !! k)) /\
  cache w1 !! k = None /\
  (forall k', k' <> k -> cache w1 !! k' = cache w !! k') /\
  found (fst (cache_get g now now' w1)) = false /\
  reason (fst (cache_get g now now' w1)) = None /\
  snd (cache_get g now now' w1) = w1 /\
  existed (fst (cache_delete d w1)) = false /\
  snd (cache_delete d w1) = w1.
Proof.
  intros k w1 g.
  assert (Hgone : cache w1 !! k = None) by apply lookup_delete_eq.
  split; [apply bool_decide_eq_true|]. split; [exact Hgone|].
  split; [intros k' Hk'; now apply lookup_delete_ne|].
  rewrite (cache_get_absent g now now' w1 Hgone). cbn [fst snd found reason].
  repeat split.
  - cbn [cache_delete fst existed]. apply bool_decide_eq_false.
    fold k. rewrite Hgone. now intros [x Hx].
  - cbn [cache_delete snd]. fold k. rewrite delete_id by exact Hgone.
    apply with_cache_same.
Qed.

Lemma prefix_append (s t : string) : String.prefix s (s +:+ t) = true.
Proof.
  induction s as [|c s IH]; simpl; [now destruct t|].
  destruct (Ascii.ascii_dec c c); [exact IH | congruence].
Qed.

Lemma append_assoc (s t u : string) : (s +:+ t) +:+ u = s +:+ t +:+ u.
Proof.
  induction s as [|c s IH]; [reflexivity|].
  change (String c ((s +:+ t) +:+ u) = String c (s +:+ t +:+ u)). now f_equal.
Qed.

(** What [cache_clear] does with a namespace that is not empty. *)
Lemma cache_clear_namespace (ns : string) (w : world) :
  ns <> "" ->
  cache_clear (Some ns) w =
  ({| clear_success := true; cleared_namespace := Some ns;
      cleared_entries :=
        size (filter (fun kv : string * CacheEntry =>
                        String.prefix (ns +:+ ":") (fst kv) = true) (cache w)) |},
   with_cache
     (filter (fun kv : string * CacheEntry =>
                ~ String.prefix (ns +:+ ":") (fst kv) = true) (cache w)) w).
Proof.
  intros Hns. unfold cache_clear. now rewrite bool_decide_eq_false_2.
Qed.

(** X2.  [cache_clear] with a namespace removes the entries whose stored key
    starts with the namespace and a colon, and no other: every key of the
    namespace is gone, the number it reports and the number it leaves add up
    to the number there was, and clearing again clears nothing. *)
Theorem cache_clear_by_prefix (ns : string) (w : world) :
  ns <> "" ->
  let r := cache_clear (Some ns) w in
  (forall k, cache (snd r) !! k =
             if String.prefix (ns +:+ ":") k then None else cache w !! k) /\
  (forall key, cache (snd r) !! getCacheKey key ns = None) /\
  (cleared_entries (fst r) + size (cache (snd r)) = size (cache w))%nat /\
  retryMetadata (snd r) = retryMetadata w /\
  rateLimits (snd r) = rateLimits w /\
  cleared_entries (fst (cache_clear (Some ns) (snd r))) = 0%nat /\
  snd (cache_clear (Some ns) (snd r)) = snd r.
Proof.
  intros Hns r. subst r. rewrite (cache_clear_namespace ns w Hns).
  cbn [fst snd cleared_entries].
  set (hit := fun kv : string * CacheEntry =>
                String.prefix (ns +:+ ":") (fst kv) = true).
  assert (Hlook : forall k,
             filter (fun kv => ~ hit kv) (cache w) !! k =
             if String.prefix (ns +:+ ":") k then None else cache w !! k).
  { intros k. destruct (String.prefix (ns +:+ ":") k) eqn:Hp.
    - apply map_lookup_filter_None_2. right. intros x _ Hn. now apply Hn.
    - destruct (cache w !! k) as [e|] eqn:Hk.
      + apply map_lookup_filter_Some_2; [done|]. unfold hit. cbn. congruence.
      + apply map_lookup_filter_None_2. now left. }
  split; [exact Hlook|].
  split.
  { intros key. cbn [cache with_cache]. rewrite Hlook.
    unfold getCacheKey. rewrite <- append_assoc. now rewrite prefix_append. }
  split.
  { cbn [cache with_cache].
    rewrite <- (map_filter_union_complement hit (cache w)) at 3.
    rewrite map_size_disj_union by apply map_disjoint_filter_complement.
    reflexivity. }
  split; [reflexivity|]. split; [reflexivity|].
  rewrite (cache_clear_namespace ns _ Hns). cbn [fst snd cleared_entries cache with_cache].
  split.
  - apply map_size_empty_iff, map_empty_filter_2.
    intros k e [_ Hn]%map_lookup_filter_Some Hhit. now apply Hn.
  - rewrite with_cache_with_cache. f_equal. apply map_filter_id.
    intros k e [_ Hn]%map_lookup_filter_Some. exact Hn.
Qed.

(** X3.  [cache_clear] with no namespace, or with the empty string (which
    the test [if (namespace)] takes for none), empties the whole cache and
    reports how many entries it held; a second call reports 0. *)
Theorem cache_clear_everything (namespace : option string) (w : world)
    (g : cache_get_args) (now now' : Z) :
  namespace = None \/ namespace = Some "" ->
  let r := cache_clear namespace w in
  cleared_entries (fst r) = size (cache w) /\
  cache (snd r) = ∅ /\
  found (fst (cache_get g now now' (snd r))) = false /\
  retryMetadata (snd r) = retryMetadata w /\
  rateLimits (snd r) = rateLimits w /\
  cleared_entries (fst (cache_clear namespace (snd r))) = 0%nat.
Proof.
  intros [-> | ->]; cbn; rewrite ?lookup_empty; repeat split; apply map_size_empty.
Qed.

(** X4.  Clearing a namespace also clears every namespace whose name starts
    with it and a colon: after [cache_clear] of [ns], no key of the
    namespace [ns ++ ":" ++ rest] is left. *)
Theorem cache_clear_reaches_nested_namespaces
    (ns rest key : string) (w : world) (now now' : Z) :
  ns <> "" ->
  let w1 := snd (cache_clear (Some ns) w) in
  let g := {| get_key := key; get_namespace := Some (ns +:+ ":" +:+ rest) |} in
  cache w1 !! getCacheKey key (ns +:+ ":" +:+ rest) = None /\
  found (fst (cache_get g now now' w1)) = false.
Proof.
  intros Hns w1 g.
  assert (Hgone : cache w1 !! getCacheKey key (ns +:+ ":" +:+ rest) = None).
  { subst w1. rewrite (cache_clear_namespace ns w Hns). cbn [snd cache with_cache].
    apply map_lookup_filter_None_2. right. intros e _ Hn. apply Hn. cbn [fst].
    unfold getCacheKey. rewrite <- (append_assoc ns ":" rest), append_assoc.
    apply prefix_append. }
  split; [exact Hgone|].
  now rewrite (cache_get_absent g now now' w1 Hgone).
Qed.

(** What is left of the cache after a sweep. *)
Lemma sweep_cache_lookup (t : Z) (w : world) (k : string) :
  cache (sweep t w) !! k =
  match cache w !! k with
  | Some e => if expiresAt e <=? t then None else Some e
  | None => None
  end.
Proof.
  cbn [sweep cache]. destruct (cache w !! k) as [e|] eqn:Hk.
  - destruct (Z.leb_spec (expiresAt e) t).
    + apply map_lookup_filter_None_2. right. intros x Hx Hp.
      assert (x = e) as -> by congruence. cbn in Hp. lia.
    + apply map_lookup_filter_Some_2; [done | cbn; lia].
  - apply map_lookup_filter_None_2. now left.
Qed.

(** X5.  The periodic sweep deletes the cache entries that have expired and
    keeps the others.  A [cache_get] made at or after the sweep finds what
    it would have found without it, the same value with the same remaining
    time, and leaves the key as it would have.  The sweep shows in one
    field only: a read of an entry that it removed gives no [reason], where
    without the sweep the read would have met the entry, answered
    [reason: "expired"] and deleted it; every other read gets the very same
    reply. *)
Theorem sweep_shows_only_in_reason (t : Z) (w : world) (g : cache_get_args)
    (now now' : Z) :
  t <= now ->
  let k := getCacheKey (get_key g) (default "default" (get_namespace g)) in
  let swept := cache (sweep t w) in
  let after := cache_get g now now' (sweep t w) in
  let before := cache_get g now now' w in
  (forall k', swept !! k' =
              match cache w !! k' with
              | Some e => if expiresAt e <=? t then None else Some e
              | None => None
              end) /\
  found (fst after) = found (fst before) /\
  found_value (fst after) = found_value (fst before) /\
  expires_in_seconds (fst after) = expires_in_seconds (fst before) /\
  cache (snd after) !! k = cache (snd before) !! k /\
  (swept !! k = cache w !! k -> fst after = fst before) /\
  (swept !! k <> cache w !! k ->
   reason (fst before) = Some "expired" /\ reason (fst after) = None) /\
  rateLimits (sweep t w) = rateLimits w.
Proof.
  intros Ht k swept after before. subst swept after before.
  pose proof (sweep_cache_lookup t w k) as Hsw.
  split; [apply sweep_cache_lookup|].
  unfold cache_get. fold k. rewrite Hsw.
  destruct (cache w !! k) as [e|] eqn:Hk.
  - destruct (Z.leb_spec (expiresAt e) t) as [Hold|Hlive];
      destruct (Z.leb_spec (expiresAt e) now) as [Hexp|Hnot]; try lia;
      cbn [fst snd cache with_cache found found_value expires_in_seconds reason];
      rewrite ?lookup_delete_eq, ?Hsw, ?Hk;
      repeat match goal with |- _ /\ _ => split end;
      try reflexivity; try (intros E; done).
    all: destruct (Z.leb_spec (expiresAt e) t); try lia; try reflexivity;
      try (intros E; done).
  - cbn [fst snd]. rewrite Hsw, Hk.
    repeat match goal with |- _ /\ _ => split end;
      try reflexivity; intros E; done.
Qed.

(** X6.  A [cache_put] on a key that is already stored replaces the entry
    and its expiry outright: the cache is what the second put alone would
    have left, and the size it reports does not grow. *)
Theorem cache_put_overwrites (a1 a2 : cache_put_args) (t1 t2 : Z) (w : world) :
  getCacheKey (put_key a1) (default "default" (put_namespace a1)) =
  getCacheKey (put_key a2) (default "default" (put_namespace a2)) ->
  let w1 := snd (cache_put a1 t1 w) in
  snd (cache_put a2 t2 w1) = snd (cache_put a2 t2 w) /\
  cache_size (fst (cache_put a2 t2 w1)) = cache_size (fst (cache_put a1 t1 w)) /\
  (forall k, k <> getCacheKey (put_key a2) (default "default" (put_namespace a2)) ->
             cache (snd (cache_put a2 t2 w1)) !! k = cache w !! k).
Proof.
  intros Hk w1. subst w1. cbn. rewrite Hk, insert_insert_eq.
  split; [reflexivity|]. split.
  - rewrite !map_size_insert. now destruct (cache w !! _).
  - intros k Hne. now rewrite lookup_insert_ne.
Qed.

End CacheMore.

(** ** The retry tracker: dry runs, the wait hint, the sweep *)

Section RetryMore.

(** X7.  A request with [should_execute = false] never changes the store
    and is never answered [execute_attempt]; it is answered
    [ready_to_execute] exactly when the same request with
    [should_execute = true] would be given the next attempt, and in every
    other case both requests get the same answer. *)
Theorem retry_dry_run_predicts (a : retry_args) (now now' : Z) (w : world) :
  let dry := retry_operation (set_should_execute false a) now now' w in
  let real := retry_operation (set_should_execute true a) now now' w in
  snd dry = w /\
  (forall oid, is_execute_attempt oid (fst dry) = false) /\
  match fst dry with
  | ReadyToExecute i n d ty da =>
      fst real = ExecuteAttempt i (n + 1) ty da /\
      d = default 1000 (initial_delay_ms a) * 2 ^ n
  | r => real = (r, w)
  end.
Proof.
  unfold retry_operation. cbn.
  destruct (success (retry_lookup w (operation_id a))); [now cbn|].
  destruct (default 3 (max_retries a) <=? attempts (retry_lookup w (operation_id a)));
    [now cbn|].
  destruct (_ && _); now cbn.
Qed.

(** The conditions under which the handler answers [retry_delayed]. *)
Lemma retry_delayed_inv (a : retry_args) (now now' : Z) (w : world)
    (i : string) (n wait : Z) :
  fst (retry_operation a now now' w) = RetryDelayed i n wait ->
  let md := retry_lookup w (operation_id a) in
  i = operation_id a /\ n = attempts md /\ success md = false /\
  0 < attempts md < default 3 (max_retries a) /\
  wait = default 1000 (initial_delay_ms a) * 2 ^ attempts md - (now - lastAttempt md) /\
  0 < wait.
Proof.
  unfold retry_operation. cbn zeta.
  destruct (success (retry_lookup w (operation_id a))); [discriminate|].
  destruct (Z.leb_spec (default 3 (max_retries a))
              (attempts (retry_lookup w (operation_id a)))); [discriminate|].
  destruct (Z.ltb_spec 0 (attempts (retry_lookup w (operation_id a)))); cbn [andb].
  - destruct (Z.ltb_spec (now - lastAttempt (retry_lookup w (operation_id a)))
                (default 1000 (initial_delay_ms a) *
                 2 ^ attempts (retry_lookup w (operation_id a)))).
    + cbn. intros [= <- <- <-]. repeat split; auto; lia.
    + destruct (negb _); discriminate.
  - destruct (negb _); discriminate.
Qed.

(** Requests on other operations, and sweeps that come within the hour of
    its last attempt, leave the entry of an operation as it is. *)
Lemma run_actions_leaves_entry (oid : string) (e : option RetryMeta)
    (acts : list action) :
  leaves_entry oid e acts ->
  forall w, retryMetadata w !! oid = e ->
            retryMetadata (snd (run_actions acts w)) !! oid = e.
Proof.
  induction acts as [|[b now now'|s] acts IH]; intros Hl w He; cbn; [exact He| |].
  - apply Forall_cons in Hl as [Hb Hl].
    destruct (retry_operation_other_entry oid b now now' w Hb) as [Hraw _].
    destruct (retry_operation b now now' w) as [r w1]. cbn in *.
    specialize (IH Hl w1). destruct (run_actions acts w1) as [rs w2]. cbn in *.
    apply IH. congruence.
  - apply Forall_cons in Hl as [Hs Hl]. apply (IH Hl).
    rewrite sweep_keeps_entry; [exact He|]. intros md Hmd. apply Hs. congruence.
Qed.

(** X8.  The wait that a [retry_delayed] answer announces is exact for as
    long as the entry of the operation is kept.  Whatever requests on other
    operations and whatever sweeps come in between, none of the sweeps later
    than one hour after the last attempt of the operation: until [wait_ms]
    have passed the same request is delayed again, with the time that is
    left, and from then on it is given the next attempt.  (A sweep that
    comes later than that hour forgets the operation: X9.) *)
Theorem retry_wait_hint_exact (a : retry_args) (now now' : Z) (w : world)
    (i : string) (n wait : Z) (acts : list action) :
  default true (should_execute a) = true ->
  fst (retry_operation a now now' w) = RetryDelayed i n wait ->
  leaves_entry (operation_id a) (retryMetadata w !! operation_id a) acts ->
  let w1 := snd (run_actions acts w) in
  0 < wait /\
  (forall t t', t < now + wait ->
     retry_operation a t t' w1 = (RetryDelayed i n (wait + (now - t)), w1)) /\
  (forall t t', now + wait <= t ->
     fst (retry_operation a t t' w1) =
       ExecuteAttempt i (n + 1) (operation_type a) (operation_data a) /\
     retryMetadata (snd (retry_operation a t t' w1)) !! i =
       Some {| attempts := n + 1; lastAttempt := t'; success := false |}).
Proof.
  intros Hexec Hr Hleave w1.
  destruct (retry_delayed_inv a now now' w i n wait Hr)
    as (-> & -> & Hs & [Hpos Hmax] & Hwait & Hw).
  assert (Hlk : retry_lookup w1 (operation_id a) = retry_lookup w (operation_id a)).
  { apply retry_lookup_entry.
    now apply (run_actions_leaves_entry (operation_id a) _ acts Hleave w). }
  split; [exact Hw|]. split; intros t t' Ht; unfold retry_operation; cbn zeta;
    rewrite Hlk, Hs, Hexec;
    destruct (Z.leb_spec (default 3 (max_retries a))
                (attempts (retry_lookup w (operation_id a)))); try lia;
    destruct (Z.ltb_spec 0 (attempts (retry_lookup w (operation_id a)))); try lia;
    destruct (Z.ltb_spec (t - lastAttempt (retry_lookup w (operation_id a)))
                (default 1000 (initial_delay_ms a) *
                 2 ^ attempts (retry_lookup w (operation_id a)))); try lia; cbn.
  - do 2 f_equal. lia.
  - split; [reflexivity | apply lookup_insert_eq].
Qed.

(** X9.  The sweep forgets an operation one hour after its last attempt,
    whatever its state: the next request on it, even if it had used all its
    retries, is given attempt number 1 without delay.  An operation whose
    last attempt is more recent is kept as it is. *)
Theorem sweep_forgets_old_operations (a : retry_args) (t now now' : Z)
    (w : world) (md : RetryMeta) :
  retryMetadata w !! operation_id a = Some md ->
  0 < default 3 (max_retries a) ->
  default true (should_execute a) = true ->
  (lastAttempt md < t - 3600000 ->
   retryMetadata (sweep t w) !! operation_id a = None /\
   fst (retry_operation a now now' (sweep t w)) =
     ExecuteAttempt (operation_id a) 1 (operation_type a) (operation_data a)) /\
  (t - 3600000 <= lastAttempt md ->
   retryMetadata (sweep t w) !! operation_id a = Some md /\
   fst (retry_operation a now now' (sweep t w)) = fst (retry_operation a now now' w)).
Proof.
  intros Hmd Hmax Hexec.
  pose proof (sweep_retry_lookup t w (operation_id a)) as Hl. rewrite Hmd in Hl.
  split; intros Hage.
  - destruct (Z.ltb_spec (lastAttempt md) (t - 3600000)); [|lia].
    split; [exact Hl|].
    unfold retry_operation, retry_lookup. rewrite Hl, Hexec. cbn.
    destruct (Z.leb_spec (default 3 (max_retries a)) 0); [lia | reflexivity].
  - destruct (Z.ltb_spec (lastAttempt md) (t - 3600000)); [lia|].
    split; [exact Hl|].
    unfold retry_operation, retry_lookup. rewrite Hl, Hmd. cbn.
    repeat match goal with |- context [if ?b then _ else _] => destruct b end; reflexivity.
Qed.

(** X10.  A [retry_operation] request touches nothing but the entry of its
    own operation: the cache, the rate limits and the entries of the other
    operations are as before, and its own entry either stays or gains one
    attempt, its [success] flag unchanged. *)
Theorem retry_operation_touches_one_entry (a : retry_args) (now now' : Z) (w : world) :
  let w1 := snd (retry_operation a now now' w) in
  cache w1 = cache w /\
  rateLimits w1 = rateLimits w /\
  (forall oid, oid <> operation_id a ->
               retryMetadata w1 !! oid = retryMetadata w !! oid) /\
  (attempts (retry_lookup w1 (operation_id a)) =
     attempts (retry_lookup w (operation_id a)) \/
   attempts (retry_lookup w1 (operation_id a)) =
     attempts (retry_lookup w (operation_id a)) + 1) /\
  success (retry_lookup w1 (operation_id a)) =
    success (retry_lookup w (operation_id a)).
Proof.
  intros w1. subst w1.
  destruct (retry_operation_cases a now now' w) as [(-> & _)|(Hs & _ & _ & ->)].
  - repeat split; auto.
  - rewrite retry_lookup_insert. rewrite decide_True by done. cbn.
    repeat split; auto.
    intros oid Hne. now rewrite lookup_insert_ne.
Qed.

End RetryMore.

(** ** The rate limiter: bounds, expiry, peeking *)

Section RateMore.
Context `{JsRuntime}.

Lemma rate_limit_check_in_range (a : rate_args) (now : Z) (w : world) :
  count_in_range a w ->
  count_in_range a (snd (rate_limit_check a now w)) /\
  0 <= current_count (fst (rate_limit_check a now w))
    <= Z.max 0 (default 60 (max_requests a)) /\
  0 <= remaining (fst (rate_limit_check a now w))
    <= Z.max 0 (default 60 (max_requests a)) /\
  (allowed (fst (rate_limit_check a now w)) = true <->
   0 < remaining (fst (rate_limit_check a now w))).
Proof.
  unfold count_in_range. intros Hw.
  destruct (rate_limit_check_spec a now w) as (Ha & Hr & Hc & Hs).
  cbn zeta in *.
  assert (Hlim : 0 <= count (current_limit a now w)
                   <= Z.max 0 (default 60 (max_requests a))).
  { unfold current_limit. destruct (rateLimits w !! resource a) as [l|] eqn:Hl.
    - destruct (resetAt l <=? now); [cbn; lia | now apply Hw].
    - cbn. lia. }
  rewrite Ha, Hr, Hc.
  destruct (Z.ltb_spec (count (current_limit a now w)) (default 60 (max_requests a)))
    as [Hlt|Hge].
  - split.
    { intros lim. rewrite Hs. intros [= <-].
      destruct (default true (increment a)); cbn; lia. }
    repeat split; try lia; destruct (default true (increment a)); cbn; lia.
  - split.
    { intros lim. rewrite Hs. intros [= <-]. cbn. lia. }
    repeat split; cbn; try lia; try discriminate.
Qed.

(** What the caller of [rate_limit_check] gets: the window is stored and
    the request counted in any case, the reply is given when its date can be
    rendered. *)
Lemma rate_limit_check_outcome_cases (a : rate_args) (now : Z) (w : world) :
  snd (rate_limit_check_outcome a now w) = snd (rate_limit_check a now w) /\
  fst (rate_limit_check_outcome a now w) =
    if valid_time (resetAt (current_limit a now w))
    then Replied (fst (rate_limit_check a now w))
    else Threw InternalError invalid_time_error.
Proof.
  unfold rate_limit_check_outcome. destruct (rate_limit_check a now w) as [r w1].
  now destruct (valid_time _).
Qed.

(** X11.  Whatever the times of the checks, the count kept for a resource
    never passes a whole-number [max_requests]: after any number of checks
    with the same arguments on a fresh resource the stored count is between 0
    and the limit, and so are [current_count] and [remaining] in every reply
    that is given, where [allowed] holds exactly when [remaining] is
    positive.  A check that gives no reply throws an [InternalError]. *)
Theorem rate_count_never_exceeds_limit (a : rate_args) (times : list Z) (w : world) :
  rateLimits w !! resource a = None ->
  (forall l, rateLimits (snd (rate_run_outcome a times w)) !! resource a = Some l ->
             0 <= count l <= Z.max 0 (default 60 (max_requests a))) /\
  Forall (fun o =>
            match o with
            | Replied r =>
                0 <= current_count r <= Z.max 0 (default 60 (max_requests a)) /\
                0 <= remaining r <= Z.max 0 (default 60 (max_requests a)) /\
                (allowed r = true <-> 0 < remaining r)
            | Threw code _ => code = InternalError
            end)
         (fst (rate_run_outcome a times w)).
Proof.
  intros Hfresh.
  assert (Hw : count_in_range a w) by (intros l Hl; congruence).
  clear Hfresh. revert w Hw.
  induction times as [|now times IH]; intros w Hw; cbn [rate_run_outcome].
  - split; [exact Hw | constructor].
  - destruct (rate_limit_check_in_range a now w Hw) as (Hw1 & Hc & Hr & Ha).
    destruct (rate_limit_check_outcome_cases a now w) as [Hsnd Hfst].
    destruct (rate_limit_check_outcome a now w) as [o w1]. cbn [fst snd] in *.
    subst w1 o. specialize (IH _ Hw1).
    destruct (rate_run_outcome a times _) as [os w2].
    cbn [fst snd] in *. destruct IH as [IH1 IH2]. split; [exact IH1|].
    constructor; [|exact IH2]. destruct (valid_time _); auto.
Qed.

Lemma ceil_div_thousand (n : Z) : ceil_div (n * 1000) 1000 = n.
Proof.
  unfold ceil_div. rewrite <- Z.mul_opp_l, Z.div_mul by lia. lia.
Qed.

(** X12.  A window that has run out counts for nothing: a check at or after
    its [resetAt] has the outcome, and leaves the state, that it has on a
    resource with no window.  It opens a new window of [window_seconds] from
    now, holding this request alone when it is allowed and counted.  When
    the end of that window is a date that can be rendered the reply announces
    it in [reset_in_seconds], a whole number of [window_seconds] as it was
    passed; when it is not, the window is stored all the same and the call
    throws an [InternalError]. *)
Theorem rate_window_expiry (a : rate_args) (now : Z) (w : world) (l : RateLimit) :
  rateLimits w !! resource a = Some l ->
  resetAt l <= now ->
  let o := rate_limit_check_outcome a now w in
  let allowed_now := 0 <? default 60 (max_requests a) in
  let counted := if allowed_now && default true (increment a) then 1 else 0 in
  let reset := now + default 60 (window_seconds a) * 1000 in
  o = rate_limit_check_outcome a now
        (with_rateLimits (delete (resource a) (rateLimits w)) w) /\
  rateLimits (snd o) !! resource a = Some {| count := counted; resetAt := reset |} /\
  (valid_time reset = true ->
   exists r, fst o = Replied r /\
             allowed r = allowed_now /\
             current_count r = counted /\
             reset_in_seconds r = default 60 (window_seconds a)) /\
  (valid_time reset = false -> fst o = Threw InternalError invalid_time_error).
Proof.
  intros Hl Hnow o allowed_now counted reset. subst o allowed_now counted reset.
  assert (Hlim : current_limit a now w =
                 {| count := 0; resetAt := now + default 60 (window_seconds a) * 1000 |}).
  { unfold current_limit. rewrite Hl.
    destruct (Z.leb_spec (resetAt l) now); [reflexivity | lia]. }
  assert (Hcheck : rate_limit_check a now w =
                   rate_limit_check a now
                     (with_rateLimits (delete (resource a) (rateLimits w)) w)).
  { unfold rate_limit_check. cbn [rateLimits with_rateLimits].
    rewrite Hl, lookup_delete_eq.
    destruct (Z.leb_spec (resetAt l) now); [|lia]. cbn.
    now rewrite insert_delete_eq. }
  split.
  { unfold rate_limit_check_outcome. rewrite <- Hcheck. unfold current_limit.
    cbn [rateLimits with_rateLimits]. rewrite Hl, lookup_delete_eq.
    destruct (Z.leb_spec (resetAt l) now); [reflexivity | lia]. }
  destruct (rate_limit_check_outcome_cases a now w) as [-> ->].
  destruct (rate_limit_check_spec a now w) as (Ha & _ & Hc & Hs). cbn zeta in *.
  rewrite Hlim in *. cbn [count resetAt] in *.
  split.
  { rewrite Hs. destruct (0 <? default 60 (max_requests a));
      destruct (default true (increment a)); reflexivity. }
  destruct (valid_time (now + default 60 (window_seconds a) * 1000)).
  - split; [|discriminate]. intros _. eexists. split; [reflexivity|].
    split; [exact Ha|]. split.
    + rewrite Hc. destruct (0 <? default 60 (max_requests a));
        destruct (default true (increment a)); reflexivity.
    + unfold rate_limit_check. rewrite Hl.
      destruct (Z.leb_spec (resetAt l) now); [|lia]. cbn.
      replace (now + default 60 (window_seconds a) * 1000 - now)
        with (default 60 (window_seconds a) * 1000) by lia.
      apply ceil_div_thousand.
  - split; [discriminate | reflexivity].
Qed.

(** X13.  A check with [increment = false] counts nothing.  Inside a live
    window it leaves the whole state as it is, and when the end of the window
    is a date that can be rendered it reports what a counting check would:
    whether a request is allowed and how many remain; when it is not, the
    call throws an [InternalError].  On a resource that has no window the
    check still opens one, with a count of 0. *)
Theorem rate_peek (a : rate_args) (now : Z) (w : world) :
  increment a = Some false ->
  let o := rate_limit_check_outcome a now w in
  (forall l, rateLimits w !! resource a = Some l -> now < resetAt l ->
     snd o = w /\
     (valid_time (resetAt l) = true ->
      exists r, fst o = Replied r /\
                allowed r = (count l <? default 60 (max_requests a)) /\
                remaining r = Z.max 0 (default 60 (max_requests a) - count l) /\
                current_count r = count l) /\
     (valid_time (resetAt l) = false ->
      fst o = Threw InternalError invalid_time_error)) /\
  (rateLimits w !! resource a = None ->
     rateLimits (snd o) !! resource a =
       Some {| count := 0; resetAt := now + default 60 (window_seconds a) * 1000 |}).
Proof.
  intros Hinc o. subst o.
  destruct (rate_limit_check_outcome_cases a now w) as [-> ->]. split.
  - intros l Hl Hlive.
    assert (Hlim : current_limit a now w = l).
    { unfold current_limit. rewrite Hl.
      destruct (Z.leb_spec (resetAt l) now); [lia | reflexivity]. }
    assert (Hcheck : snd (rate_limit_check a now w) = w /\
                     allowed (fst (rate_limit_check a now w)) =
                       (count l <? default 60 (max_requests a)) /\
                     remaining (fst (rate_limit_check a now w)) =
                       Z.max 0 (default 60 (max_requests a) - count l) /\
                     current_count (fst (rate_limit_check a now w)) = count l).
    { unfold rate_limit_check. rewrite Hl, Hinc. cbn.
      destruct (Z.leb_spec (resetAt l) now); [lia|]. cbn.
      rewrite andb_false_r. rewrite insert_id by exact Hl.
      repeat split. now destruct w. }
    destruct Hcheck as (Hs & Ha & Hr & Hc). rewrite Hlim.
    split; [exact Hs|]. destruct (valid_time (resetAt l)).
    + split; [|discriminate]. intros _. eexists. split; [reflexivity|]. auto.
    + split; [discriminate | reflexivity].
  - intros Hl. unfold rate_limit_check. rewrite Hl, Hinc. cbn.
    rewrite andb_false_r. apply lookup_insert_eq.
Qed.

End RateMore.

(** ** The batch runner: what a call can and cannot do *)

Section BatchMore.
Context `{JsRuntime}.
Variable a : batch_args.

Lemma main_step_stuck (now : Z) (c : gmap string CacheEntry) :
  the_concurrency a <= 0 -> operations a <> [] ->
  main_step a now (batch_init a c) = batch_init a c.
Proof.
  intros Hc Hne. unfold main_step, after_inner, batch_init. cbn.
  destruct (operations a) as [|op rest]; [done|].
  rewrite map_size_empty.
  destruct (Z.ltb_spec (Z.of_nat 0) (the_concurrency a)); [lia|]. reflexivity.
Qed.

(** X14.  A [concurrency] of zero or less, which nothing refuses, leaves a
    call with operations in its first state for ever: the handler never
    reaches its [await] or its [return], no operation is started, no result
    is recorded, and since the handler never suspends no timer or callback
    ever runs. *)
Theorem batch_never_answers_without_concurrency
    (now : Z) (c : gmap string CacheEntry) :
  the_concurrency a <= 0 ->
  operations a <> [] ->
  (forall st, reachable a c st -> st = batch_init a c) /\
  (forall evs, batch_run a now c evs = batch_init a c) /\
  (forall evs, main (batch_run a now c evs) = Running /\
               results (batch_run a now c evs) = [] /\
               next_promise (batch_run a now c evs) = 0%nat).
Proof.
  intros Hc Hne.
  assert (Hall : forall st, reachable a c st -> st = batch_init a c).
  { intros st Hr.
    apply (@rtc_ind_r _ (step a) (fun s => s = batch_init a c) (batch_init a c));
      [reflexivity | | exact Hr].
    intros y z _ Hstep ->.
    inversion Hstep; subst; try (cbn in *; congruence).
    now apply main_step_stuck. }
  split; [exact Hall|].
  assert (Hrun : forall evs, batch_run a now c evs = batch_init a c)
    by (intros evs; apply Hall, batch_run_reachable).
  split; [exact Hrun|].
  intros evs. now rewrite Hrun.
Qed.

(** X15.  A timeout of an operation in flight ends the call, whatever
    [continue_on_error] says: the handler throws [InternalError] with the
    message of that operation, the failure is pushed on results that are
    never returned, and nothing that happens later (completions of the other
    operations, further timeouts) changes the outcome. *)
Theorem batch_timeout_ends_call (c : gmap string CacheEntry) (st : batch_state)
    (h : nat) (now : Z) (op : BatchOp) :
  NoDup (List.map op_id (operations a)) ->
  reachable a c st ->
  main st <> Running ->
  is_thrown (main st) = false ->
  pending st !! h = Some op ->
  let st1 := fire a (TimedOut h now) st in
  main st1 =
    Thrown InternalError
           ("Tool execution failed: Operation " +:+ op_id op +:+ " timed out") /\
  results st1 = (results st ++ [Failed (op_id op) (timeout_message op)])%list /\
  (forall st', rtc (step a) st1 st' -> main st' = main st1) /\
  (forall evs, main (fold_left (fun s ev => fire a ev s) evs st1) = main st1).
Proof.
  intros Hnd Hr Hrun Hth Hp st1.
  destruct (reachable_invariants a c st Hnd Hr) as [Hb Hi].
  assert (Hm : exists raced, main st = Awaiting raced /\ raced_on h raced = true).
  { destruct (main st) as [|raced|p|code msg] eqn:Hm; [done| | |done].
    - exists raced. split; [reflexivity|].
      apply (inv_await a st Hi raced h Hm). left. eauto.
    - exfalso. apply (returned_nothing_in_progress a st h op Hb Hi (or_introl Hp) p Hm). }
  destruct Hm as (raced & Hm & Hraced).
  assert (Hst1 : st1 = on_finally h op false (on_rejected a h op st)).
  { unfold st1, fire, when_idle. now rewrite Hm, Hp. }
  assert (Hmain : main st1 =
            Thrown InternalError
              ("Tool execution failed: Operation " +:+ op_id op +:+ " timed out")).
  { rewrite Hst1. cbn. rewrite Hm. cbn. rewrite Hraced. reflexivity. }
  split; [exact Hmain|]. split; [now rewrite Hst1|].
  assert (Hfinal : forall st', rtc (step a) st1 st' -> main st' = main st1).
  { intros st' Hsteps. rewrite Hmain. now apply (rtc_thrown a st1 st'). }
  split; [exact Hfinal|].
  intros evs. apply Hfinal. clear. generalize st1 as s.
  induction evs as [|ev evs IH]; intros s; cbn; [apply rtc_refl|].
  eapply rtc_trans; [apply fire_rtc | apply IH].
Qed.

(** *** The tally of a call *)

Lemma tally_init (c : gmap string CacheEntry) : tally a (batch_init a c).
Proof.
  split; cbn.
  - constructor.
  - rewrite map_size_empty. lia.
  - discriminate.
Qed.

Lemma tally_main_step (now : Z) (st : batch_state) :
  batch_inv a st -> main st = Running -> tally a st -> tally a (main_step a now st).
Proof.
  intros Hb Hrun [Hs Hn Hr]. rewrite Hrun in Hs, Hn.
  specialize (Hs eq_refl). specialize (Hn eq_refl).
  unfold main_step. rewrite Hrun.
  assert (Hafter : tally a (after_inner a st)).
  { unfold after_inner. destruct (0 <? size (inProgress st))%nat.
    - split; cbn; auto. discriminate.
    - destruct (queue st) eqn:Hq.
      + split; cbn; rewrite ?Hq; auto.
      + split; rewrite ?Hrun, ?Hq; auto. discriminate. }
  destruct (queue st) as [|op rest] eqn:Hq; [exact Hafter|].
  destruct (Z.of_nat (size (inProgress st)) <? the_concurrency a); [|exact Hafter].
  unfold start_next. destruct (cache_hit a now op (store st)).
  - split; cbn.
    + intros _. apply Forall_app. split; [exact Hs | repeat constructor].
    + intros _. rewrite length_app. cbn in *. lia.
    + discriminate.
  - assert (Hnew : pending st !! next_promise st = None).
    { destruct (pending st !! next_promise st) eqn:E; [|done].
      pose proof (inv_handles a st Hb (next_promise st) (or_introl (mk_is_Some _ _ E))).
      lia. }
    split; cbn.
    + auto.
    + intros _. rewrite map_size_insert_None by done. cbn in Hn. lia.
    + discriminate.
Qed.

Lemma tally_step (st st' : batch_state) :
  batch_inv a st -> call_inv a st -> step a st st' -> tally a st -> tally a st'.
Proof.
  intros Hb Hc Hstep Ht.
  destruct Hstep
    as [now s Hrun|h op now s _ Hp|h op s Hrun Hp|h op ok s _ Hs|h op now s _ _|c s _].
  - now apply tally_main_step.
  - destruct Ht as [Hs Hn Hr]. split; cbn.
    + intros Hth%wake_not_thrown. apply Forall_app. split; [auto | repeat constructor].
    + intros Hth%wake_not_thrown. specialize (Hn Hth).
      rewrite length_app, map_size_delete_Some by eauto. cbn.
      assert (size (pending s) <> 0%nat).
      { apply map_size_non_empty_iff. intros E. rewrite E, lookup_empty in Hp. done. }
      lia.
    + intros p Hret%wake_returned. exfalso.
      apply (returned_nothing_in_progress a s h op Hb Hc (or_introl Hp) p Hret).
  - pose proof (on_rejected_thrown a h op s Hrun Hp Hb Hc) as Hth.
    split; [intros E; congruence | intros E; congruence |].
    intros p Hret. rewrite Hret in Hth. discriminate.
  - destruct Ht as [Hs' Hn Hr]. split; cbn.
    + intros Hth%wake_not_thrown. auto.
    + intros Hth%wake_not_thrown. auto.
    + intros p Hret%wake_returned. eauto.
  - destruct Ht as [Hs' Hn Hr]. split; cbn; auto.
  - destruct Ht as [Hs' Hn Hr]. split; cbn; auto.
Qed.

Lemma reachable_tally (c : gmap string CacheEntry) (st : batch_state) :
  NoDup (List.map op_id (operations a)) ->
  reachable a c st -> tally a st.
Proof.
  intros Hnd Hr.
  cut ((batch_inv a st /\ call_inv a st) /\ tally a st); [tauto|].
  apply (@rtc_ind_r _ (step a)
           (fun s => (batch_inv a s /\ call_inv a s) /\ tally a s) (batch_init a c));
    [| |exact Hr].
  - split; [split; [now apply batch_inv_init | apply call_inv_init] | apply tally_init].
  - intros y z _ Hstep [Hy Ht]. split; [now apply (invariants_step a y z)|].
    destruct Hy. now apply (tally_step y z).
Qed.

Lemma filter_all_success (rs : list BatchResult) :
  Forall (fun r => result_success r = true) rs ->
  List.filter result_success rs = rs /\
  List.filter (fun r => negb (result_success r)) rs = [].
Proof.
  induction 1 as [|r rs Hr _ [IH1 IH2]]; [done|].
  cbn. rewrite Hr. cbn. now rewrite IH1, IH2.
Qed.

(** X16.  In a call with distinct ids, a payload that is returned never
    reports a failure: [failed] is 0, [successful] is the number of
    operations, and every entry of [results] is there and is a success.  The
    failures that the [.catch] callback records are only ever seen by a
    handler that throws. *)
Theorem batch_returns_only_successes
    (c : gmap string CacheEntry) (st : batch_state) (p : batch_payload) :
  NoDup (List.map op_id (operations a)) ->
  reachable a c st ->
  main st = Returned p ->
  failed p = 0%nat /\
  successful p = length (operations a) /\
  total_operations p = length (operations a) /\
  Forall (fun r => exists x, r = Some x /\ result_success x = true)
         (sorted_results p) /\
  in_flight st = 0%nat.
Proof.
  intros Hnd Hr Hp.
  destruct (reachable_invariants a c st Hnd Hr) as [Hb Hi].
  destruct (reachable_tally c st Hnd Hr) as [Hs Hn Hq].
  rewrite Hp in Hs, Hn. specialize (Hs eq_refl). specialize (Hn eq_refl).
  specialize (Hq p Hp).
  destruct (inv_returned a st Hi p Hp) as (Hempty & -> & Hall).
  assert (Hpend : pending st = ∅).
  { apply map_empty. intros h. destruct (pending st !! h) as [op|] eqn:E; [|done].
    pose proof (inv_tasks a st Hb h op (or_introl E)) as Hk.
    rewrite Hempty, lookup_empty in Hk. discriminate. }
  rewrite Hq, Hpend, map_size_empty in Hn. cbn in Hn.
  destruct (filter_all_success _ Hs) as [Hf1 Hf2].
  cbn. rewrite Hf1, Hf2. cbn.
  split; [reflexivity|]. split; [lia|]. split; [reflexivity|]. split.
  - unfold sortedResults. apply List.Forall_map, List.Forall_forall.
    intros op Hop.
    destruct (List.find _ (results st)) as [r|] eqn:Hfind.
    + exists r. split; [reflexivity|].
      apply find_some in Hfind as [Hin _].
      now apply (proj1 (List.Forall_forall _ _) Hs).
    + apply Hall, in_map_iff in Hop as (r & Hid & Hin).
      apply (find_none _ _ Hfind) in Hin.
      rewrite Hid, String.eqb_refl in Hin. discriminate.
  - unfold in_flight. now rewrite Hpend, map_size_empty.
Qed.

(** *** Operations served from the cache *)

Lemma iter_main_step_hits (n : nat) (now : Z) (st : batch_state) :
  1 <= the_concurrency a ->
  the_use_cache a = true ->
  main st = Running ->
  inProgress st = ∅ ->
  Forall (cache_live (store st) now) (queue st) ->
  (length (queue st) < n)%nat ->
  Nat.iter n (main_step a now) st =
  {| queue := []; inProgress := ∅; pending := pending st; settled := settled st;
     orphaned := orphaned st;
     results := results st ++ List.map (cached_result (store st)) (queue st);
     next_promise := next_promise st;
     main := Returned (payload a (results st ++
                                  List.map (cached_result (store st)) (queue st)));
     store := store st |}.
Proof.
  intros Hc Huse. revert st.
  induction n as [|n IH]; intros st Hrun Hip Hlive Hlen; [lia|].
  rewrite Nat.iter_succ_r.
  destruct st as [q ip pe se orp rs np m s]. cbn in *. subst ip m.
  unfold main_step at 2. cbn [main queue inProgress].
  destruct q as [|op rest].
  - unfold after_inner. cbn [inProgress queue]. rewrite map_size_empty. cbn.
    rewrite iter_main_step_idle by done. unfold set_main. cbn. now rewrite app_nil_r.
  - rewrite map_size_empty.
    destruct (Z.ltb_spec (Z.of_nat 0) (the_concurrency a)); [|lia].
    apply Forall_cons in Hlive as [(e & He & Hexp) Hlive].
    unfold start_next, cache_hit. cbn [store]. rewrite Huse, He.
    destruct (Z.ltb_spec now (expiresAt e)); [|lia].
    rewrite IH by (cbn in *; auto; lia). cbn.
    assert (Hcr : cached_result s op = Cached (op_id op) (value e))
      by (unfold cached_result; now rewrite He).
    now rewrite Hcr, <- !app_assoc.
Qed.

Lemma find_cached (c : gmap string CacheEntry) (ops : list BatchOp) (op : BatchOp) :
  NoDup (List.map op_id ops) -> In op ops ->
  List.find (fun r => String.eqb (result_id r) (op_id op))
            (List.map (cached_result c) ops) = Some (cached_result c op).
Proof.
  induction ops as [|x ops IH]; intros Hnd Hin; [destruct Hin|].
  cbn in Hnd. apply NoDup_cons in Hnd as [Hx Hnd]. cbn.
  destruct (String.eqb_spec (op_id x) (op_id op)) as [Heq|Hne].
  - destruct Hin as [->|Hin]; [reflexivity|]. exfalso. apply Hx.
    rewrite Heq. apply list_elem_of_In, in_map, Hin.
  - destruct Hin as [->|Hin]; [done|]. now apply IH.
Qed.

(** X17.  With [use_cache] and a positive [concurrency], a call all of whose
    operations have a live entry in the cache is answered in its first run,
    before any [await]: no promise is created, the cache is left as it is,
    every result is the stored value under the id of its operation, all are
    counted as successes, and with distinct ids the results are those of the
    operations in input order. *)
Theorem batch_served_from_cache (now : Z) (c : gmap string CacheEntry) :
  1 <= the_concurrency a ->
  the_use_cache a = true ->
  Forall (cache_live c now) (operations a) ->
  let st := batch_start a now c in
  let rs := List.map (cached_result c) (operations a) in
  main st = Returned (payload a rs) /\
  results st = rs /\
  next_promise st = 0%nat /\
  store st = c /\
  successful (payload a rs) = length (operations a) /\
  failed (payload a rs) = 0%nat /\
  (NoDup (List.map op_id (operations a)) ->
   sorted_results (payload a rs) =
     List.map (fun op => Some (cached_result c op)) (operations a)).
Proof.
  intros Hc Huse Hlive st rs. subst st rs.
  unfold batch_start, run_main.
  rewrite iter_main_step_hits; cbn; auto.
  repeat split.
  - assert (Hall : Forall (fun r => result_success r = true)
                          (List.map (cached_result c) (operations a))).
    { apply List.Forall_map, List.Forall_forall. now intros op _. }
    destruct (filter_all_success _ Hall) as [-> _]. apply length_map.
  - assert (Hall : Forall (fun r => result_success r = true)
                          (List.map (cached_result c) (operations a))).
    { apply List.Forall_map, List.Forall_forall. now intros op _. }
    now destruct (filter_all_success _ Hall) as [_ ->].
  - intros Hnd. unfold sortedResults. apply map_ext_in. intros op Hop.
    now apply find_cached.
Qed.

(** *** The cache of the batch runner and the cache tools *)

Lemma main_step_store (now : Z) (st : batch_state) :
  store (main_step a now st) = store st.
Proof.
  unfold main_step, start_next, after_inner.
  repeat match goal with
         | |- context [match ?x with _ => _ end] => destruct x
         end; reflexivity.
Qed.

Lemma run_main_store (now : Z) (st : batch_state) :
  store (run_main a now st) = store st.
Proof.
  unfold run_main. generalize (S (length (queue st))) as n.
  induction n as [|n IH]; cbn; [reflexivity|].
  now rewrite main_step_store.
Qed.

Lemma fire_work_store (h : nat) (now : Z) (op : BatchOp) (st : batch_state) :
  main st <> Running -> pending st !! h = Some op ->
  store (fire a (WorkDone h now) st) = work_store a op now (store st).
Proof.
  intros Hrun Hp. unfold fire, when_idle.
  destruct (is_running (main st)) eqn:E; [now destruct (main st)|].
  rewrite Hp.
  destruct (is_running (main (run_main a now (on_fulfilled a h op now st))));
    repeat (rewrite run_main_store; cbn [store on_finally]); reflexivity.
Qed.

Lemma batch_cache_key_namespace (op : BatchOp) :
  batch_cache_key op = getCacheKey (batch_entry_key op) "batch".
Proof. reflexivity. Qed.

(** X18.  The entries that [batch_operation] keeps are entries of the
    namespace [batch] of the cache tools, under the key made of the type of
    the operation, a colon and its serialized data.  So with [use_cache]: a
    value stored there by [cache_put] is what a batch takes for the result
    of the operation while it lives; the result of an operation that
    completes can be read with [cache_get] until [cache_ttl_seconds] have
    passed; and after [cache_clear] of that namespace no operation is
    served from the cache. *)
Theorem batch_cache_is_namespace_batch :
  the_use_cache a = true ->
  (forall op v ttl t0 now w,
     now < t0 + ttl * 1000 ->
     cache_hit a now op
       (cache (snd (cache_put {| put_key := batch_entry_key op; put_value := v;
                                 ttl_seconds := Some ttl;
                                 put_namespace := Some "batch" |} t0 w))) =
     Some {| value := v; expiresAt := t0 + ttl * 1000 |}) /\
  (forall st h op now t t' w,
     main st <> Running -> pending st !! h = Some op ->
     cache w = store (fire a (WorkDone h now) st) ->
     t < now + the_cache_ttl_seconds a * 1000 ->
     let r := fst (cache_get {| get_key := batch_entry_key op;
                                get_namespace := Some "batch" |} t t' w) in
     found r = true /\ found_value r = Some (work_result op now)) /\
  (forall op now w,
     cache_hit a now op (cache (snd (cache_clear (Some "batch") w))) = None).
Proof.
  intros Huse. split; [|split].
  - intros op v ttl t0 now w Hlive. unfold cache_hit. rewrite Huse.
    cbn [cache_put snd cache with_cache put_key put_namespace default].
    rewrite batch_cache_key_namespace, lookup_insert_eq. cbn.
    destruct (Z.ltb_spec now (t0 + ttl * 1000)); [reflexivity | lia].
  - intros st h op now t t' w Hrun Hp Hw Hlive r. subst r.
    rewrite (fire_work_store h now op st Hrun Hp) in Hw.
    unfold work_store in Hw. rewrite Huse in Hw.
    unfold cache_get. cbn [get_key get_namespace default].
    rewrite <- batch_cache_key_namespace, Hw, lookup_insert_eq. cbn.
    destruct (Z.leb_spec (now + the_cache_ttl_seconds a * 1000) t); [lia|].
    split; reflexivity.
  - intros op now w. unfold cache_hit. rewrite Huse.
    rewrite cache_clear_namespace by done. cbn [snd cache with_cache].
    rewrite (proj2 (map_lookup_filter_None _ _ _)); [reflexivity|].
    right. intros e _ Hn. apply Hn. cbn.
    rewrite batch_cache_key_namespace. unfold getCacheKey.
    rewrite <- append_assoc. apply prefix_append.
Qed.

(** *** A call without [use_cache] *)

Lemma main_step_uncached (now : Z) (st : batch_state) :
  the_use_cache a = false ->
  results (main_step a now st) = results st.
Proof.
  intros Huse. unfold main_step, start_next, after_inner, cache_hit. rewrite Huse.
  repeat match goal with
         | |- context [match ?x with _ => _ end] => destruct x
         end; reflexivity.
Qed.

Lemma run_main_uncached (now : Z) (st : batch_state) :
  the_use_cache a = false ->
  results (run_main a now st) = results st.
Proof.
  intros Huse. unfold run_main. generalize (S (length (queue st))) as n.
  induction n as [|n IH]; cbn; [reflexivity|].
  now rewrite main_step_uncached.
Qed.

Lemma fire_uncached (ev : event) (st : batch_state) :
  the_use_cache a = false ->
  keeps_store ev = true ->
  store (fire a ev st) = store st /\
  existsb is_cached (results (fire a ev st)) = existsb is_cached (results st).
Proof.
  intros Huse Hev. unfold fire, when_idle.
  destruct (is_running (main st)); [auto|].
  destruct ev as [h now|h now|c]; [| |discriminate].
  - destruct (pending st !! h) as [op|].
    + destruct (is_running (main (run_main a now (on_fulfilled a h op now st))));
        repeat (rewrite run_main_store; cbn [store on_finally]);
        repeat (rewrite run_main_uncached by done; cbn [results on_finally]);
        cbn; unfold work_store; rewrite Huse, ?existsb_app; cbn;
        rewrite ?orb_false_r; auto.
    + destruct (orphaned st !! h); cbn; unfold work_store; rewrite ?Huse; auto.
  - destruct (pending st !! h) as [op|]; cbn;
      rewrite ?existsb_app; cbn; rewrite ?orb_false_r; auto.
Qed.

(** X19.  Without [use_cache], which is the default, a call has nothing to
    do with the shared cache: whatever its operations do, it leaves the
    cache as it found it, and none of its results is marked as served from
    the cache, whatever the cache holds. *)
Theorem batch_without_cache_leaves_store
    (now : Z) (c : gmap string CacheEntry) (evs : list event) :
  the_use_cache a = false ->
  forallb keeps_store evs = true ->
  store (batch_run a now c evs) = c /\
  existsb is_cached (results (batch_run a now c evs)) = false.
Proof.
  intros Huse Hevs. unfold batch_run.
  assert (Hstart : store (batch_start a now c) = c /\
                   existsb is_cached (results (batch_start a now c)) = false).
  { unfold batch_start. now rewrite run_main_store, run_main_uncached. }
  revert Hstart Hevs. generalize (batch_start a now c) as st.
  induction evs as [|ev evs IH]; intros st Hst Hevs; cbn in *; [exact Hst|].
  apply andb_prop in Hevs as [Hev Hevs].
  destruct (fire_uncached ev st Huse Hev) as (Hs & Hr).
  apply IH; [|exact Hevs]. destruct Hst as [Hst1 Hst2]. split; congruence.
Qed.

End BatchMore.

(** ** The times that the replies announce *)

Section TimeHints.
Context `{JsRuntime}.

Lemma ceil_div_upper (x : Z) : x <= ceil_div x 1000 * 1000.
Proof. unfold ceil_div. pose proof (Z.mul_div_le (- x) 1000). lia. Qed.

(** X20.  The [reset_in_seconds] of a reply can be relied on: once that
    many seconds have passed since the check, the window it reported has
    ended.  With a positive limit, the next check on the resource opens a
    new window and is counted in it, and when the end of the new window is a
    date that can be rendered the check is answered: it is allowed, with the
    whole limit reported as remaining.  When it is not, the call throws an
    [InternalError], the window stored. *)
Theorem rate_reset_hint_sound (a : rate_args) (now t : Z) (w : world)
    (r0 : rate_reply) :
  0 < default 60 (max_requests a) ->
  fst (rate_limit_check_outcome a now w) = Replied r0 ->
  now + reset_in_seconds r0 * 1000 <= t ->
  let counted := if default true (increment a) then 1 else 0 in
  let reset := t + default 60 (window_seconds a) * 1000 in
  let o := rate_limit_check_outcome a t (snd (rate_limit_check_outcome a now w)) in
  rateLimits (snd o) !! resource a = Some {| count := counted; resetAt := reset |} /\
  (valid_time reset = true ->
   exists r, fst o = Replied r /\
             allowed r = true /\
             remaining r = default 60 (max_requests a) /\
             current_count r = counted) /\
  (valid_time reset = false -> fst o = Threw InternalError invalid_time_error).
Proof.
  intros Hmax Hr0 Ht counted reset o. subst counted reset o.
  destruct (rate_limit_check_outcome_cases a now w) as [Hw1 Ho].
  rewrite Hw1. rewrite Ho in Hr0.
  assert (Hreply : r0 = fst (rate_limit_check a now w)).
  { destruct (valid_time _); [now injection Hr0 | discriminate]. }
  subst r0. clear Hr0 Ho Hw1.
  destruct (rate_limit_check_spec a now w) as (_ & _ & _ & Hs). cbn zeta in Hs.
  assert (Hreset : reset_in_seconds (fst (rate_limit_check a now w)) =
                   ceil_div (resetAt (current_limit a now w) - now) 1000)
    by reflexivity.
  pose proof (ceil_div_upper (resetAt (current_limit a now w) - now)) as Hup.
  set (w1 := snd (rate_limit_check a now w)) in *.
  assert (Hfresh : current_limit a t w1 =
                   {| count := 0; resetAt := t + default 60 (window_seconds a) * 1000 |}).
  { unfold current_limit. rewrite Hs.
    destruct ((count (current_limit a now w) <? default 60 (max_requests a))
              && default true (increment a)); cbn [resetAt];
      (destruct (Z.leb_spec (resetAt (current_limit a now w)) t); [reflexivity | lia]). }
  destruct (rate_limit_check_outcome_cases a t w1) as [-> ->].
  destruct (rate_limit_check_spec a t w1) as (Ha & Hr & Hc & Hs1). cbn zeta in *.
  rewrite Hfresh in *. cbn [count resetAt] in *.
  destruct (Z.ltb_spec 0 (default 60 (max_requests a))); [|lia]. cbn [andb] in *.
  split.
  { rewrite Hs1. now destruct (default true (increment a)). }
  destruct (valid_time (t + default 60 (window_seconds a) * 1000)).
  - split; [|discriminate]. intros _. eexists. split; [reflexivity|].
    split; [exact Ha|]. split; [rewrite Hr; lia|].
    rewrite Hc. now destruct (default true (increment a)).
  - split; [discriminate | reflexivity].
Qed.

(** X21.  The [expires_in_seconds] of a reply can be relied on: an entry
    reported to live [e] more seconds is found, with the same value, by
    every read made in less than [e] seconds from then. *)
Theorem cache_expiry_hint_sound (g : cache_get_args) (now t t' e : Z) (w : world) :
  expires_in_seconds (fst (cache_get g now now w)) = Some e ->
  now <= t < now + e * 1000 ->
  found (fst (cache_get g t t' w)) = true /\
  found_value (fst (cache_get g t t' w)) = found_value (fst (cache_get g now now w)) /\
  snd (cache_get g t t' w) = w.
Proof.
  unfold cache_get.
  destruct (cache w !! _) as [entry|]; [|discriminate].
  destruct (Z.leb_spec (expiresAt entry) now); [discriminate|].
  cbn. intros [= <-] Ht.
  pose proof (Z.mul_div_le (expiresAt entry - now) 1000).
  destruct (Z.leb_spec (expiresAt entry) t); [lia|]. now cbn.
Qed.

End TimeHints.

(** * Closed instances *)

#[local] Existing Instance example_runtime.

Lemma distinct_sample_ids (l : list string) :
  bool_decide (NoDup l) = true -> NoDup (List.map op_id (List.map sample_op l)).
Proof.
  intros Hl. apply bool_decide_eq_true_1 in Hl.
  rewrite map_map. cbn. now rewrite map_id.
Qed.

(** C1 at three operations run two at a time with a timeout of half a
    second: when they complete out of order the results come back in the
    order of the input; when the second is still asleep at its timeout,
    nothing comes back. *)
Lemma batch_results_in_input_order_witness :
  let args := {| operations := List.map sample_op ["a"; "b"; "c"];
                 concurrency := Some 2; timeout_ms := Some 500;
                 continue_on_error := Some true;
                 use_cache := None; cache_ttl_seconds := None |} in
  let evs := [WorkDone 1 10; WorkDone 0 20; WorkDone 2 30] in
  let failing := [WorkDone 0 100; TimedOut 1 500; WorkDone 2 550] in
  NoDup (List.map op_id (operations args)) /\
  (exists p, main (batch_run args 0 ∅ evs) = Returned p /\
             List.map (fmap result_id) (sorted_results p) =
             [Some "a"; Some "b"; Some "c"]) /\
  pending (batch_run args 0 ∅ [WorkDone 0 100]) !! 1%nat = Some (sample_op "b") /\
  (forall p, main (batch_run args 0 ∅ failing) <> Returned p) /\
  main (batch_run args 0 ∅ failing) =
    Thrown InternalError "Tool execution failed: Operation b timed out".
Proof.
  intros args evs failing.
  assert (Hnd : NoDup (List.map op_id (operations args)))
    by (apply distinct_sample_ids; vm_compute; reflexivity).
  assert (Hpend : pending (batch_run args 0 ∅ [WorkDone 0 100]) !! 1%nat =
                  Some (sample_op "b")) by (vm_compute; reflexivity).
  split; [exact Hnd|].
  destruct (batch_results_in_input_order args 0 ∅ evs Hnd) as (Hord & Hret & _).
  destruct (batch_results_in_input_order args 0 ∅ [WorkDone 0 100] Hnd) as (_ & _ & Hto).
  split.
  { destruct Hret as [p Hp].
    - apply Z.leb_le. vm_compute. reflexivity.
    - reflexivity.
    - vm_compute. reflexivity.
    - exists p. split; [exact Hp|]. apply (Hord p Hp). }
  split; [exact Hpend|]. split.
  - exact (Hto 1%nat 500 (sample_op "b") [WorkDone 2 550] Hpend).
  - vm_compute. reflexivity.
Defined.

(** C2 as stated fails: an operation that has used its three attempts is
    forgotten by the sweep that runs 61 minutes after the start, and the next
    request on it is answered [execute_attempt], the fourth for this id. *)
Lemma exhausted_operation_executes_again_after_sweep :
  let acts := [Retry sample_retry 0 0; Retry sample_retry 2000 2000;
               Retry sample_retry 6000 6000] in
  let later := [Sweep 3660000; Retry sample_retry 3660001 3660001] in
  let w := snd (run_actions acts empty_world) in
  fixed_max_retries "job" 3 (acts ++ later) /\
  attempts (retry_lookup w "job") = 3 /\
  status (fst (retry_operation sample_retry 3660001 3660001 w)) = "max_retries_exceeded" /\
  List.map status (fst (run_actions (acts ++ later) empty_world)) =
    ["execute_attempt"; "execute_attempt"; "execute_attempt"; "execute_attempt"].
Proof.
  cbv zeta. split; [|vm_compute; repeat split; reflexivity].
  repeat constructor; intros _; reflexivity.
Qed.

(** C2, as the code has it, at three attempts of one operation with the
    default [max_retries], a sweep within the hour and a sweep after it. *)
Lemma retry_attempts_bounded_witness :
  let acts := [Retry sample_retry 0 0; Retry sample_retry 2000 2000;
               Retry sample_retry 6000 6000] in
  let w := snd (run_actions acts empty_world) in
  let more := [Sweep 60000; Retry sample_retry 60001 60001] in
  fixed_max_retries "job" 3 acts /\
  (forall md, retryMetadata w !! "job" = Some md -> attempts md <= 3) /\
  attempts (retry_lookup w "job") = 3 /\
  sweeps_keep (retryMetadata w !! "job") more /\
  Forall (fun r => reply_id r = "job" -> status r = "max_retries_exceeded")
         (fst (run_actions more w)) /\
  fst (retry_operation sample_retry 3660001 3660001 (sweep 3660000 w)) =
    ExecuteAttempt "job" 1 "http_request" JNull.
Proof.
  intros acts w more.
  assert (Hfix : fixed_max_retries "job" 3 acts)
    by (repeat constructor; intros _; reflexivity).
  assert (Hfix' : fixed_max_retries "job" 3 more)
    by (repeat constructor; intros _; reflexivity).
  assert (Hmd : retryMetadata w !! "job" =
                Some {| attempts := 3; lastAttempt := 6000; success := false |})
    by (vm_compute; reflexivity).
  assert (Hkeep : sweeps_keep (retryMetadata w !! "job") more).
  { rewrite Hmd. constructor; [|constructor; [exact I | constructor]].
    intros md [= <-]. cbn. lia. }
  split; [exact Hfix|].
  destruct (retry_attempts_bounded "job" 3 acts Hfix) as (Hle & _ & Hcount & Hmore & Hswept).
  split; [exact Hle|]. split; [exact (Hcount eq_refl)|]. split; [exact Hkeep|].
  split.
  - destruct (Hmore ltac:(rewrite (Hcount eq_refl); vm_compute; discriminate)
                more Hkeep Hfix') as [Hrefused _].
    eapply Forall_impl; [exact Hrefused|]. intros r Hr Hid. exact (proj2 (Hr Hid)).
  - apply (Hswept _ 3660000 sample_retry 3660001 3660001 Hmd); reflexivity.
Defined.

(** C3 at six checks one second apart. *)
Lemma rate_limit_six_checks_witness :
  rateLimits empty_world !! "api.github.com" = None /\
  List.map (fun r => (allowed r, remaining r, current_count r))
    (fst (rate_run {| resource := "api.github.com"; max_requests := Some 5;
                      window_seconds := Some 60; increment := Some true |}
            [0; 1000; 2000; 3000; 4000; 5000] empty_world)) =
  [(true, 5, 1); (true, 4, 2); (true, 3, 3); (true, 2, 4); (true, 1, 5); (false, 0, 5)].
Proof.
  split; [reflexivity|].
  apply (rate_limit_six_checks empty_world "api.github.com" 0 1000 2000 3000 4000 5000).
  - reflexivity.
  - repeat constructor; lia.
Defined.

(** C4 at a ttl of one minute, read one millisecond before and at its end. *)
Lemma cache_put_get_roundtrip_witness :
  let w1 := snd (cache_put (sample_put 60) 0 empty_world) in
  let get := {| get_key := "k"; get_namespace := None |} in
  1 <= 60 <= 86400 /\
  found_value (fst (cache_get get 59999 59999 w1)) = Some (JStr "v") /\
  found (fst (cache_get get 60000 60000 w1)) = false /\
  cache (snd (cache_get get 60000 60000 w1)) !! "default:k" = None.
Proof.
  intros w1 get.
  assert (Httl : 1 <= 60 <= 86400) by lia.
  split; [exact Httl|].
  destruct (cache_put_get_roundtrip empty_world "k" (JStr "v") 60 None 0 59999 59999 Httl)
    as [Hlive _].
  destruct (cache_put_get_roundtrip empty_world "k" (JStr "v") 60 None 0 60000 60000 Httl)
    as [_ Hdead].
  destruct (Hlive ltac:(lia)) as (_ & Hv & _).
  destruct (Hdead ltac:(lia)) as (Hf & _ & _ & Hgone & _).
  split; [exact Hv|]. split; [exact Hf | exact Hgone].
Defined.

(** C5 as stated fails: a ttl of zero seconds is stored, with success, and
    a concurrency of 21 puts 21 operations in flight. *)
Lemma out_of_range_arguments_accepted :
  let r := cache_put_outcome (sample_put 0) 1000 empty_world in
  let ids := ["a"; "b"; "c"; "d"; "e"; "f"; "g"; "h"; "i"; "j"; "k"; "l"; "m";
              "n"; "o"; "p"; "q"; "r"; "s"; "t"; "u"; "v"] in
  let st := batch_start (sample_batch (List.map sample_op ids) 21) 0 ∅ in
  (exists reply, fst r = Replied reply /\ put_success reply = true) /\
  cache empty_world !! "default:k" = None /\
  cache (snd r) !! "default:k" = Some {| value := JStr "v"; expiresAt := 1000 |} /\
  is_thrown (main st) = false /\
  in_flight st = 21%nat.
Proof.
  cbv zeta. split.
  - eexists. split; vm_compute; reflexivity.
  - vm_compute. repeat split; reflexivity.
Qed.

(** C5, as the code has it, at the same arguments, and at a ttl that takes
    the expiry past the last date. *)
Lemma arguments_not_validated_witness :
  let ids := ["a"; "b"; "c"; "d"; "e"; "f"; "g"; "h"; "i"; "j"; "k"; "l"; "m";
              "n"; "o"; "p"; "q"; "r"; "s"; "t"; "u"; "v"] in
  let args := sample_batch (List.map sample_op ids) 21 in
  let far := cache_put_outcome (sample_put 8640000000001) 1000 empty_world in
  20 < the_concurrency args /\
  NoDup (List.map op_id (operations args)) /\
  Z.of_nat (in_flight (batch_start args 0 ∅)) =
    Z.min (the_concurrency args) (Z.of_nat (length (operations args))) /\
  valid_time (1000 + 0 * 1000) = true /\
  (exists reply, fst (cache_put_outcome (sample_put 0) 1000 empty_world) = Replied reply /\
                 put_success reply = true) /\
  valid_time (1000 + 8640000000001 * 1000) = false /\
  fst far = Threw InternalError "Tool execution failed: Invalid time value" /\
  cache (snd far) !! "default:k" =
    Some {| value := JStr "v"; expiresAt := 8640000000002000 |}.
Proof.
  intros ids args far.
  assert (Hc : 20 < the_concurrency args) by (apply Z.ltb_lt; vm_compute; reflexivity).
  assert (Hnd : NoDup (List.map op_id (operations args)))
    by (apply distinct_sample_ids; vm_compute; reflexivity).
  split; [exact Hc|]. split; [exact Hnd|].
  destruct (arguments_not_validated args (sample_put 0) 1000 empty_world 0 ∅)
    as [(_ & _ & _ & Hok & _) Hb].
  destruct (arguments_not_validated args (sample_put 8640000000001) 1000 empty_world 0 ∅)
    as [(Hput & _ & _ & _ & Hfar & _) _].
  split; [exact (proj2 (Hb Hc Hnd eq_refl))|].
  split; [reflexivity|].
  split.
  { destruct (Hok eq_refl) as (reply & Hr & Hs & _). exists reply. auto. }
  split; [reflexivity|].
  split; [exact (Hfar eq_refl) | exact Hput].
Defined.

(** C6 as stated fails: after three attempts with the default arguments a
    request that comes one millisecond after the third, long before the
    8000 ms of backoff, is answered [max_retries_exceeded]. *)
Lemma exhausted_before_backoff_not_delayed :
  let acts := [Retry sample_retry 0 0; Retry sample_retry 2000 2000;
               Retry sample_retry 6000 6000] in
  let w := snd (run_actions acts empty_world) in
  let md := retry_lookup w "job" in
  0 < attempts md /\
  6001 - lastAttempt md < 1000 * 2 ^ attempts md /\
  status (fst (retry_operation sample_retry 6001 6001 w)) = "max_retries_exceeded" /\
  snd (retry_operation sample_retry 6001 6001 w) = w.
Proof.
  vm_compute. repeat split; reflexivity.
Qed.

(** C6, as the code has it, half a second after a first attempt. *)
Lemma retry_delayed_before_backoff_witness :
  let w := snd (run_actions [Retry sample_retry 0 0] empty_world) in
  retry_operation sample_retry 500 500 w = (RetryDelayed "job" 1 1500, w).
Proof.
  intros w.
  destruct (retry_delayed_before_backoff sample_retry 500 500 w) as (Hr & _).
  - reflexivity.
  - vm_compute. split; reflexivity.
  - vm_compute. reflexivity.
  - exact Hr.
Defined.

(** C8 as stated fails: three operations that share an id, with a
    concurrency of two, are all in flight at once. *)
Lemma shared_id_exceeds_concurrency :
  let args := sample_batch (List.map sample_op ["a"; "a"; "a"]) 2 in
  let st := batch_start args 0 ∅ in
  reachable args ∅ st /\
  the_concurrency args = 2 /\
  in_flight st = 3%nat /\
  size (inProgress st) = 1%nat.
Proof.
  intros args st. split; [apply run_main_rtc|].
  vm_compute. repeat split; reflexivity.
Qed.

(** C8, as the code has it, at five operations and a concurrency of two. *)
Lemma batch_in_flight_bounded_witness :
  let args := sample_batch (List.map sample_op ["a"; "b"; "c"; "d"; "e"]) 2 in
  let st := batch_run args 0 ∅ [WorkDone 1 10] in
  NoDup (List.map op_id (operations args)) /\
  0 <= the_concurrency args /\
  reachable args ∅ st /\
  Z.of_nat (in_flight st) <= 2 /\
  in_flight st = 2%nat.
Proof.
  intros args st.
  assert (Hnd : NoDup (List.map op_id (operations args)))
    by (apply distinct_sample_ids; vm_compute; reflexivity).
  assert (Hc : 0 <= the_concurrency args) by (apply Z.leb_le; vm_compute; reflexivity).
  assert (Hr : reachable args ∅ st) by apply batch_run_reachable.
  split; [exact Hnd|]. split; [exact Hc|]. split; [exact Hr|].
  destruct (batch_in_flight_bounded args ∅ st Hnd Hc Hr) as (Hle & _).
  split; [exact Hle|]. vm_compute. reflexivity.
Defined.

(** ** Instances of the further properties *)

(** X2 at one entry in the namespace cleared and one outside. *)
Lemma cache_clear_by_prefix_witness :
  let w := snd (cache_put {| put_key := "k"; put_value := JStr "u";
                             ttl_seconds := None; put_namespace := Some "users" |} 0
                  (snd (cache_put (sample_put 60) 0 empty_world))) in
  let r := cache_clear (Some "users") w in
  "users" <> "" /\
  cache (snd r) !! "users:k" = None /\
  cache (snd r) !! "default:k" = cache w !! "default:k" /\
  (cleared_entries (fst r) + size (cache (snd r)))%nat = 2%nat.
Proof.
  intros w r.
  assert (Hns : "users" <> "") by discriminate.
  split; [exact Hns|].
  destruct (cache_clear_by_prefix "users" w Hns) as (Hlook & Hgone & Hsum & _).
  split; [exact (Hgone "k")|]. split; [exact (Hlook "default:k")|].
  unfold r. rewrite Hsum. vm_compute. reflexivity.
Defined.

(** X3 at the empty string as namespace. *)
Lemma cache_clear_everything_witness :
  let w := snd (cache_put (sample_put 60) 0 empty_world) in
  (Some "" = None \/ Some "" = Some "") /\
  cleared_entries (fst (cache_clear (Some "") w)) = 1%nat /\
  cache (snd (cache_clear (Some "") w)) = ∅.
Proof.
  intros w.
  assert (Hns : Some "" = None \/ Some "" = Some "") by (right; reflexivity).
  split; [exact Hns|].
  destruct (cache_clear_everything (Some "") w
              {| get_key := "k"; get_namespace := None |} 0 0 Hns) as (Hn & He & _).
  split; [|exact He]. rewrite Hn. vm_compute. reflexivity.
Defined.

(** X4 at the namespaces [app] and [app:users]. *)
Lemma cache_clear_reaches_nested_namespaces_witness :
  let w := snd (cache_put {| put_key := "k"; put_value := JStr "u";
                             ttl_seconds := None;
                             put_namespace := Some "app:users" |} 0 empty_world) in
  let g := {| get_key := "k"; get_namespace := Some "app:users" |} in
  "app" <> "" /\
  found (fst (cache_get g 1 1 w)) = true /\
  found (fst (cache_get g 1 1 (snd (cache_clear (Some "app") w)))) = false.
Proof.
  intros w g.
  assert (Hns : "app" <> "") by discriminate.
  split; [exact Hns|]. split; [vm_compute; reflexivity|].
  exact (proj2 (cache_clear_reaches_nested_namespaces "app" "users" "k" w 1 1 Hns)).
Defined.

(** X5 at an entry that lives one minute: swept after thirty seconds and
    read after forty, and swept and read after it has expired. *)
Lemma sweep_shows_only_in_reason_witness :
  let w := snd (cache_put (sample_put 60) 0 empty_world) in
  let g := {| get_key := "k"; get_namespace := None |} in
  30000 <= 40000 /\
  120000 <= 130000 /\
  fst (cache_get g 40000 40000 (sweep 30000 w)) = fst (cache_get g 40000 40000 w) /\
  found_value (fst (cache_get g 40000 40000 (sweep 30000 w))) = Some (JStr "v") /\
  reason (fst (cache_get g 130000 130000 w)) = Some "expired" /\
  reason (fst (cache_get g 130000 130000 (sweep 120000 w))) = None.
Proof.
  intros w g.
  assert (Ht : 30000 <= 40000) by lia.
  assert (Ht' : 120000 <= 130000) by lia.
  split; [exact Ht|]. split; [exact Ht'|].
  destruct (sweep_shows_only_in_reason 30000 w g 40000 40000 Ht)
    as (_ & _ & _ & _ & _ & Hsame & _).
  destruct (sweep_shows_only_in_reason 120000 w g 130000 130000 Ht')
    as (_ & _ & _ & _ & _ & _ & Hdiff & _).
  assert (Hreply : fst (cache_get g 40000 40000 (sweep 30000 w)) =
                   fst (cache_get g 40000 40000 w))
    by (apply Hsame; vm_compute; reflexivity).
  split; [exact Hreply|]. split; [rewrite Hreply; vm_compute; reflexivity|].
  apply Hdiff. vm_compute. discriminate.
Defined.

(** X6 at two puts on one key, the namespace left out and given. *)
Lemma cache_put_overwrites_witness :
  let a1 := {| put_key := "k"; put_value := JStr "old"; ttl_seconds := Some 60;
               put_namespace := None |} in
  let a2 := {| put_key := "k"; put_value := JStr "new"; ttl_seconds := Some 10;
               put_namespace := Some "default" |} in
  let w1 := snd (cache_put a1 0 empty_world) in
  getCacheKey (put_key a1) (default "default" (put_namespace a1)) =
  getCacheKey (put_key a2) (default "default" (put_namespace a2)) /\
  snd (cache_put a2 5 w1) = snd (cache_put a2 5 empty_world) /\
  cache_size (fst (cache_put a2 5 w1)) = 1%nat.
Proof.
  intros a1 a2 w1.
  assert (Hk : getCacheKey (put_key a1) (default "default" (put_namespace a1)) =
               getCacheKey (put_key a2) (default "default" (put_namespace a2)))
    by reflexivity.
  split; [exact Hk|].
  destruct (cache_put_overwrites a1 a2 0 5 empty_world Hk) as (Hs & Hsz & _).
  split; [exact Hs|]. unfold w1. rewrite Hsz. vm_compute. reflexivity.
Defined.

(** X8 half a second after a first attempt: 1500 ms to wait, a request on
    another operation and the first sweep in between. *)
Lemma retry_wait_hint_exact_witness :
  let w := snd (run_actions [Retry sample_retry 0 0] empty_world) in
  let other := {| operation_id := "other"; operation_type := "http_request";
                  operation_data := JNull; max_retries := None;
                  initial_delay_ms := None; should_execute := None |} in
  let acts := [Retry other 600 600; Sweep 60000] in
  let w1 := snd (run_actions acts w) in
  default true (should_execute sample_retry) = true /\
  fst (retry_operation sample_retry 500 500 w) = RetryDelayed "job" 1 1500 /\
  leaves_entry "job" (retryMetadata w !! "job") acts /\
  retry_operation sample_retry 1999 1999 w1 = (RetryDelayed "job" 1 1, w1) /\
  fst (retry_operation sample_retry 2000 2000 w1) =
    ExecuteAttempt "job" 2 "http_request" JNull.
Proof.
  intros w other acts w1.
  assert (He : default true (should_execute sample_retry) = true) by reflexivity.
  assert (Hr : fst (retry_operation sample_retry 500 500 w) = RetryDelayed "job" 1 1500)
    by (vm_compute; reflexivity).
  assert (Hmd : retryMetadata w !! "job" =
                Some {| attempts := 1; lastAttempt := 0; success := false |})
    by (vm_compute; reflexivity).
  assert (Hleave : leaves_entry "job" (retryMetadata w !! "job") acts).
  { rewrite Hmd. constructor; [discriminate|]. constructor; [|constructor].
    intros md [= <-]. cbn. lia. }
  split; [exact He|]. split; [exact Hr|]. split; [exact Hleave|].
  destruct (retry_wait_hint_exact sample_retry 500 500 w "job" 1 1500 acts He Hr Hleave)
    as (_ & Hbefore & Hafter).
  split.
  - apply (Hbefore 1999 1999). lia.
  - apply (Hafter 2000 2000). lia.
Defined.

(** X9 at an operation that has used its three attempts, swept a little
    more than an hour after the last. *)
Lemma sweep_forgets_old_operations_witness :
  let acts := [Retry sample_retry 0 0; Retry sample_retry 2000 2000;
               Retry sample_retry 6000 6000] in
  let w := snd (run_actions acts empty_world) in
  let md := {| attempts := 3; lastAttempt := 6000; success := false |} in
  retryMetadata w !! "job" = Some md /\
  0 < default 3 (max_retries sample_retry) /\
  status (fst (retry_operation sample_retry 3606001 3606001 w)) = "max_retries_exceeded" /\
  fst (retry_operation sample_retry 3606001 3606001 (sweep 3606001 w)) =
    ExecuteAttempt "job" 1 "http_request" JNull.
Proof.
  intros acts w md.
  assert (Hmd : retryMetadata w !! operation_id sample_retry = Some md)
    by (vm_compute; reflexivity).
  assert (Hmax : 0 < default 3 (max_retries sample_retry)) by reflexivity.
  split; [exact Hmd|]. split; [exact Hmax|]. split; [vm_compute; reflexivity|].
  destruct (sweep_forgets_old_operations sample_retry 3606001 3606001 3606001 w md
              Hmd Hmax eq_refl) as [Hold _].
  apply Hold. reflexivity.
Defined.

(** X11 at four checks against a limit of two. *)
Lemma rate_count_never_exceeds_limit_witness :
  rateLimits empty_world !! resource (sample_rate None) = None /\
  (forall l,
     rateLimits (snd (rate_run_outcome (sample_rate None) [0; 1; 2; 3] empty_world))
       !! "api" = Some l -> 0 <= count l <= 2) /\
  List.map (fun o => match o with
                     | Replied r => Some (allowed r, current_count r)
                     | Threw _ _ => None
                     end)
           (fst (rate_run_outcome (sample_rate None) [0; 1; 2; 3] empty_world)) =
  [Some (true, 1); Some (true, 2); Some (false, 2); Some (false, 2)].
Proof.
  assert (Hf : rateLimits empty_world !! resource (sample_rate None) = None)
    by reflexivity.
  split; [exact Hf|].
  split; [|vm_compute; reflexivity].
  exact (proj1 (rate_count_never_exceeds_limit (sample_rate None) [0; 1; 2; 3]
                  empty_world Hf)).
Defined.

(** X12 at a check made when the window of a first check ends. *)
Lemma rate_window_expiry_witness :
  let w := snd (rate_limit_check_outcome (sample_rate None) 0 empty_world) in
  let o := rate_limit_check_outcome (sample_rate None) 60000 w in
  rateLimits w !! "api" = Some {| count := 1; resetAt := 60000 |} /\
  valid_time 120000 = true /\
  (exists r, fst o = Replied r /\ current_count r = 1 /\ reset_in_seconds r = 60) /\
  rateLimits (snd o) !! "api" = Some {| count := 1; resetAt := 120000 |}.
Proof.
  intros w o.
  assert (Hl : rateLimits w !! resource (sample_rate None) =
               Some {| count := 1; resetAt := 60000 |}) by (vm_compute; reflexivity).
  split; [exact Hl|]. split; [reflexivity|].
  destruct (rate_window_expiry (sample_rate None) 60000 w _ Hl)
    as (_ & Hs & Hok & _).
  - cbn. lia.
  - split; [|exact Hs].
    destruct (Hok eq_refl) as (r & Hr & _ & Hc & Hreset). exists r. auto.
Defined.

(** X13 at a peek after one counted request, and at a peek on a fresh
    resource. *)
Lemma rate_peek_witness :
  let w := snd (rate_limit_check_outcome (sample_rate None) 0 empty_world) in
  let o := rate_limit_check_outcome (sample_rate (Some false)) 1000 w in
  increment (sample_rate (Some false)) = Some false /\
  snd o = w /\
  (exists r, fst o = Replied r /\ remaining r = 1 /\ current_count r = 1) /\
  rateLimits (snd (rate_limit_check_outcome (sample_rate (Some false)) 0 empty_world))
    !! "api" = Some {| count := 0; resetAt := 60000 |}.
Proof.
  intros w o.
  assert (Hinc : increment (sample_rate (Some false)) = Some false) by reflexivity.
  split; [exact Hinc|].
  destruct (rate_peek (sample_rate (Some false)) 1000 w Hinc) as [Hlive _].
  destruct (rate_peek (sample_rate (Some false)) 0 empty_world Hinc) as [_ Hfresh].
  destruct (Hlive {| count := 1; resetAt := 60000 |}) as (Hs & Hok & _).
  - vm_compute. reflexivity.
  - cbn. lia.
  - split; [exact Hs|]. split; [|apply Hfresh; reflexivity].
    destruct (Hok eq_refl) as (r & Hr & _ & Hrem & Hc). exists r. auto.
Defined.

(** X14 at two operations and a concurrency of zero. *)
Lemma batch_never_answers_without_concurrency_witness :
  let args := sample_batch (List.map sample_op ["a"; "b"]) 0 in
  the_concurrency args <= 0 /\
  operations args <> [] /\
  main (batch_run args 0 ∅ [WorkDone 0 10; TimedOut 0 30000]) = Running.
Proof.
  intros args.
  assert (Hc : the_concurrency args <= 0) by (apply Z.leb_le; vm_compute; reflexivity).
  assert (Hne : operations args <> []) by discriminate.
  split; [exact Hc|]. split; [exact Hne|].
  destruct (batch_never_answers_without_concurrency args 0 ∅ Hc Hne) as (_ & _ & Hev).
  apply Hev.
Defined.

(** X15 at three operations run one at a time, the second of which times
    out after the first has completed. *)
Lemma batch_timeout_ends_call_witness :
  let args := {| operations := List.map sample_op ["a"; "b"; "c"];
                 concurrency := Some 1; timeout_ms := Some 500;
                 continue_on_error := Some true;
                 use_cache := None; cache_ttl_seconds := None |} in
  let st := batch_run args 0 ∅ [WorkDone 0 100] in
  let st1 := fire args (TimedOut 1 600) st in
  NoDup (List.map op_id (operations args)) /\
  pending st !! 1%nat = Some (sample_op "b") /\
  is_thrown (main st) = false /\
  main st1 = Thrown InternalError "Tool execution failed: Operation b timed out" /\
  main (fold_left (fun s ev => fire args ev s) [WorkDone 2 700] st1) = main st1.
Proof.
  intros args st st1.
  assert (Hnd : NoDup (List.map op_id (operations args)))
    by (apply distinct_sample_ids; vm_compute; reflexivity).
  assert (Hp : pending st !! 1%nat = Some (sample_op "b")) by (vm_compute; reflexivity).
  assert (Hth : is_thrown (main st) = false) by (vm_compute; reflexivity).
  assert (Hrun : main st <> Running).
  { intros E. vm_compute in E. discriminate E. }
  split; [exact Hnd|]. split; [exact Hp|]. split; [exact Hth|].
  destruct (batch_timeout_ends_call args ∅ st 1 600 (sample_op "b") Hnd
              (batch_run_reachable args 0 ∅ [WorkDone 0 100]) Hrun Hth Hp)
    as (Hm & _ & _ & Hev).
  split; [exact Hm | apply Hev].
Defined.

(** X16 at three operations completing out of order. *)
Lemma batch_returns_only_successes_witness :
  let args := sample_batch (List.map sample_op ["a"; "b"; "c"]) 2 in
  let st := batch_run args 0 ∅ [WorkDone 1 10; WorkDone 0 20; WorkDone 2 30] in
  NoDup (List.map op_id (operations args)) /\
  exists p, main st = Returned p /\ failed p = 0%nat /\ successful p = 3%nat.
Proof.
  intros args st.
  assert (Hnd : NoDup (List.map op_id (operations args)))
    by (apply distinct_sample_ids; vm_compute; reflexivity).
  assert (Hp : main st = Returned (payload args (results st)))
    by (vm_compute; reflexivity).
  split; [exact Hnd|].
  destruct (batch_returns_only_successes args ∅ st _ Hnd
              (batch_run_reachable args 0 ∅ _) Hp) as (Hf & Hs & _).
  exists (payload args (results st)). split; [exact Hp|]. split; [exact Hf | exact Hs].
Defined.

(** X17 at two operations of the same type and data, whose result
    [cache_put] has stored. *)
Lemma batch_served_from_cache_witness :
  let args := sample_cached_batch (List.map sample_op ["a"; "b"]) in
  let c := cache (snd (cache_put sample_seed 0 empty_world)) in
  1 <= the_concurrency args /\
  Forall (cache_live c 1000) (operations args) /\
  results (batch_start args 1000 c) = [Cached "a" (JStr "v"); Cached "b" (JStr "v")] /\
  next_promise (batch_start args 1000 c) = 0%nat.
Proof.
  intros args c.
  assert (Hc : 1 <= the_concurrency args) by (apply Z.leb_le; vm_compute; reflexivity).
  assert (Hlive : Forall (cache_live c 1000) (operations args)).
  { repeat constructor; exists {| value := JStr "v"; expiresAt := 60000 |};
      (split; [vm_compute; reflexivity | reflexivity]). }
  split; [exact Hc|]. split; [exact Hlive|].
  destruct (batch_served_from_cache args 1000 c Hc eq_refl Hlive) as (_ & Hres & Hnp & _).
  split; [|exact Hnp]. rewrite Hres. vm_compute. reflexivity.
Defined.

(** X18 at a value stored by [cache_put], then cleared. *)
Lemma batch_cache_is_namespace_batch_witness :
  let args := sample_cached_batch (List.map sample_op ["a"]) in
  let w := snd (cache_put sample_seed 0 empty_world) in
  the_use_cache args = true /\
  cache_hit args 1000 (sample_op "a") (cache w) =
    Some {| value := JStr "v"; expiresAt := 60000 |} /\
  cache_hit args 1000 (sample_op "a") (cache (snd (cache_clear (Some "batch") w))) = None.
Proof.
  intros args w.
  assert (Huse : the_use_cache args = true) by reflexivity.
  split; [exact Huse|].
  destruct (batch_cache_is_namespace_batch args Huse) as (Hput & _ & Hclear).
  split; [|apply Hclear].
  apply (Hput (sample_op "a") (JStr "v") 60 0 1000 empty_world). lia.
Defined.

(** X19 at three operations run on a cache that holds their result. *)
Lemma batch_without_cache_leaves_store_witness :
  let args := sample_batch (List.map sample_op ["a"; "b"; "c"]) 2 in
  let c := cache (snd (cache_put sample_seed 0 empty_world)) in
  let evs := [WorkDone 1 10; WorkDone 0 20; WorkDone 2 30] in
  the_use_cache args = false /\
  forallb keeps_store evs = true /\
  store (batch_run args 0 c evs) = c /\
  existsb is_cached (results (batch_run args 0 c evs)) = false.
Proof.
  intros args c evs.
  assert (Huse : the_use_cache args = false) by reflexivity.
  assert (Hevs : forallb keeps_store evs = true) by reflexivity.
  split; [exact Huse|]. split; [exact Hevs|].
  apply (batch_without_cache_leaves_store args 0 c evs Huse Hevs).
Defined.

(** X20 at a check made one and a half seconds into a window of a minute. *)
Lemma rate_reset_hint_sound_witness :
  let w := snd (rate_limit_check_outcome (sample_rate None) 0 empty_world) in
  let first := rate_limit_check_outcome (sample_rate None) 1500 w in
  0 < default 60 (max_requests (sample_rate None)) /\
  (exists r0, fst first = Replied r0 /\ reset_in_seconds r0 = 59) /\
  exists r, fst (rate_limit_check_outcome (sample_rate None) 60500 (snd first)) =
              Replied r /\ allowed r = true /\ remaining r = 2.
Proof.
  intros w first.
  assert (Hmax : 0 < default 60 (max_requests (sample_rate None))) by reflexivity.
  assert (Hfirst : fst first = Replied (fst (rate_limit_check (sample_rate None) 1500 w)))
    by (vm_compute; reflexivity).
  assert (Hreset : reset_in_seconds (fst (rate_limit_check (sample_rate None) 1500 w)) = 59)
    by (vm_compute; reflexivity).
  split; [exact Hmax|]. split; [eexists; split; [exact Hfirst | exact Hreset]|].
  destruct (rate_reset_hint_sound (sample_rate None) 1500 60500 w _ Hmax Hfirst)
    as (_ & Hok & _).
  - rewrite Hreset. lia.
  - destruct (Hok eq_refl) as (r & Hr & Ha & Hrem & _). exists r. auto.
Defined.

(** X21 at an entry of one minute read after one and a half seconds. *)
Lemma cache_expiry_hint_sound_witness :
  let w := snd (cache_put (sample_put 60) 0 empty_world) in
  let g := {| get_key := "k"; get_namespace := None |} in
  expires_in_seconds (fst (cache_get g 1500 1500 w)) = Some 58 /\
  1500 <= 59499 < 1500 + 58 * 1000 /\
  found (fst (cache_get g 59499 59499 w)) = true.
Proof.
  intros w g.
  assert (He : expires_in_seconds (fst (cache_get g 1500 1500 w)) = Some 58)
    by (vm_compute; reflexivity).
  assert (Ht : 1500 <= 59499 < 1500 + 58 * 1000) by lia.
  split; [exact He|]. split; [exact Ht|].
  apply (cache_expiry_hint_sound g 1500 59499 59499 58 w He Ht).
Defined.
